(** * MESS integral engine: a shallow embedding of [mess/integrals.py]

    The development follows the layout of the Python module: the index
    tables ([build_gindex], [build_cindex], [gen_ijkl]), the primitive
    kernels (overlap, kinetic, nuclear attraction, electron repulsion) and
    the basis aggregation layer ([integrate_dense], [nuclear_basis],
    [eri_basis_sparse], [eri_basis_sparse_batched], [eri_basis]).

    Floating-point scalars are idealised as real numbers, integer arrays
    are lists over [Z] (values) or [nat] (positions), and a Python
    exception is the result [None]. *)

From Stdlib Require Import Reals Lra Lia ZArith List.
From stdpp Require Import base list.
Import ListNotations.

(** A proof sees the section variables of its statement only. *)
#[global] Set Default Proof Using "Type*".

#[global] Instance R_inhabited : Inhabited R := populate 0%R.

(** ** Python and NumPy helpers *)

Module Py.

(** [range(n)] over signed integers; empty when [n <= 0]. *)
Definition range (n : Z) : list Z := Z.of_nat <$> seq 0 (Z.to_nat n).

(** The value of an unsigned 32-bit result: arithmetic on [uint32] arrays
    wraps around. *)
Definition u32 (x : Z) : Z := x mod 2 ^ 32.

(** [range(lo, hi)] over positions. *)
Definition range2 (lo hi : nat) : list nat := seq lo (hi - lo).

(** [enumerate(l)]. *)
Definition enumerate {A} (l : list A) : list (nat * A) := imap pair l.

(** [np.cumsum] of a list of sizes. *)
Fixpoint cumsum_from (acc : nat) (l : list nat) : list nat :=
  match l with
  | [] => []
  | x :: l' => (acc + x) :: cumsum_from (acc + x) l'
  end.

Definition cumsum (l : list nat) : list nat := cumsum_from 0 l.

(** [more_itertools.batched(l, n)] for [n >= 1]: consecutive chunks of
    [n] items, the last one possibly shorter.  The fuel is the length of
    the input, which bounds the number of chunks. *)
Fixpoint batched_fuel {A} (fuel : nat) (l : list A) (n : nat) : list (list A) :=
  match fuel with
  | O => []
  | S fuel' =>
      match l with
      | [] => []
      | _ => take n l :: batched_fuel fuel' (drop n l) n
      end
  end.

Definition batched {A} (l : list A) (n : nat) : list (list A) :=
  batched_fuel (length l) l n.

End Py.

(** ** Array operations of NumPy and JAX used by the module *)

(** [jnp.sum] of a vector. *)
Definition Rsum (l : list R) : R := foldr Rplus 0%R l.

(** [jnp.take(l, i)] at a position. *)
Definition take_at {A} `{Inhabited A} (l : list A) (i : nat) : A := l !!! i.

(** [jnp.take(l, i)] at a signed index of an index table. *)
Definition take_z {A} `{Inhabited A} (l : list A) (i : Z) : A := l !!! Z.to_nat i.

(** [jax.ops.segment_sum(data, ids, num_segments)]: scatter-add of the
    items of [data] into [num_segments] accumulators, in the order of the
    data; an item whose id is negative or not below [num_segments] is
    dropped. *)
Definition segment_sum_gen {A} (add : A → A → A) (zero : A)
    (data : list A) (ids : list Z) (num_segments : nat) : list A :=
  foldl (λ out '(id, x),
           if decide (0 ≤ id)%Z then alter (λ y, add y x) (Z.to_nat id) out
           else out)
        (replicate num_segments zero) (zip ids data).

Definition segment_sum : list R → list Z → nat → list R :=
  segment_sum_gen Rplus 0%R.

(** What one accumulator of [segment_sum] receives: the items carrying its
    id, added in the order of the data. *)
Definition segment_fold {A} (add : A → A → A) (s : nat) (acc : A)
    (kvs : list (Z * A)) : A :=
  foldl (λ acc '(id, x), if decide (id = Z.of_nat s) then add acc x else acc)
        acc kvs.

(** *** Matrices: lists of rows *)

Abbreviation Matrix := (list (list R)).

(** [jnp.zeros((r, c))]. *)
Definition zeros2 (r c : nat) : Matrix := replicate r (replicate c 0%R).

(** [A[i, j]]. *)
Definition mget (A : Matrix) (i j : nat) : R := (A !!! i) !!! j.

(** [A.at[ii, jj].set(vals)]: the updates are applied in order; an update
    outside the array is dropped. *)
Definition at_set2 (A : Matrix) (idx : list (nat * nat)) (vals : list R) : Matrix :=
  foldl (λ A '((i, j), v), alter (<[j := v]>) i A) A (zip idx vals).

(** [A.T] for an [r × c] array. *)
Definition transpose (r c : nat) (A : Matrix) : Matrix :=
  (λ j, (λ i, mget A i j) <$> seq 0 r) <$> seq 0 c.

(** Elementwise [A + B] and [A - B] of arrays of one shape. *)
Definition madd (A B : Matrix) : Matrix := zip_with (zip_with Rplus) A B.
Definition msub (A B : Matrix) : Matrix := zip_with (zip_with Rminus) A B.

(** [jnp.diag] of a matrix (its diagonal) and of a vector (the diagonal
    matrix). *)
Definition diag (A : Matrix) : list R := imap (λ i row, row !!! i) A.

Definition diag_matrix (d : list R) : Matrix :=
  imap (λ i x, <[i := x]> (replicate (length d) 0%R)) d.

(** [segment_sum] of the rows of a matrix with [c] columns. *)
Definition segment_sum_rows (c : nat) : Matrix → list Z → nat → Matrix :=
  segment_sum_gen (zip_with Rplus) (replicate c 0%R).

(** Shape [(r, c)]. *)
Definition shape2 (r c : nat) (A : Matrix) : Prop :=
  length A = r ∧ Forall (λ row, length row = c) A.

(** [A == A.T] for a square matrix of side [n]. *)
Definition symmetric (n : nat) (A : Matrix) : Prop :=
  shape2 n n A ∧ ∀ i j, i < n → j < n → mget A i j = mget A j i.

(** The sum of a stack of [r × c] matrices along its leading axis. *)
Definition msum (r c : nat) (As : list Matrix) : Matrix :=
  foldl madd (zeros2 r c) As.

(** *** Four-index tensors *)

Abbreviation Tensor4 := (list (list (list (list R)))).

(** [jnp.empty_like(_, shape=(n,)*4)]: JAX returns a zero-filled array. *)
Definition empty4 (n : nat) : Tensor4 :=
  replicate n (replicate n (replicate n (replicate n 0%R))).

(** [G[i, j, k, l]]. *)
Definition tget (G : Tensor4) (q : nat * nat * nat * nat) : R :=
  let '(i, j, k, l) := q in (((G !!! i) !!! j) !!! k) !!! l.

(** [G.at[ii, jj, kk, ll].set(vals)], with the four index arrays zipped. *)
Definition at_set4 (G : Tensor4) (idx : list (nat * nat * nat * nat))
    (vals : list R) : Tensor4 :=
  foldl (λ G '((i, j, k, l), v), alter (alter (alter (<[l := v]>) k) j) i G)
        G (zip idx vals).

(** *** Reading and writing one position *)

(** A sequence of single-position writes, applied in order. *)
Definition scatter {T K V} (set : T → K → V → T) (t : T) (kvs : list (K * V)) : T :=
  foldl (λ t kv, set t kv.1 kv.2) t kvs.

(** One position of a matrix, [None] outside its shape. *)
Definition get2 (A : Matrix) (p : nat * nat) : option R :=
  A !! p.1 ≫= λ row, row !! p.2.

Definition set2 (A : Matrix) (p : nat * nat) (v : R) : Matrix :=
  alter (<[p.2 := v]>) p.1 A.

(** One position of a four-index tensor, [None] outside its shape. *)
Definition get4 (G : Tensor4) (q : nat * nat * nat * nat) : option R :=
  let '(i, j, k, l) := q in
  G !! i ≫= λ G1, G1 !! j ≫= λ G2, G2 !! k ≫= λ G3, G3 !! l.

Definition set4 (G : Tensor4) (q : nat * nat * nat * nat) (v : R) : Tensor4 :=
  let '(i, j, k, l) := q in alter (alter (alter (<[l := v]>) k) j) i G.
(** ** Canonical orbital quadruples: [gen_ijkl] *)

Definition quad : Type := nat * nat * nat * nat.

(** [gen_ijkl(n)]: the four nested loops of the generator, in the order in
    which it yields. *)
Definition gen_ijkl (n : nat) : list quad :=
  idx ← seq 0 n;
  jdx ← seq 0 (idx + 1);
  kdx ← seq 0 (idx + 1);
  let lmax := if decide (idx = kdx) then jdx else kdx in
  ldx ← seq 0 (lmax + 1);
  [(idx, jdx, kdx, ldx)].

(** The eight index positions that [eri_basis] writes for one yielded
    quadruple, in the order of its eight scatter statements. *)
Definition images8 (q : quad) : list quad :=
  let '(i, j, k, l) := q in
  [ (i, j, k, l); (i, j, l, k); (j, i, k, l); (j, i, l, k);
    (k, l, i, j); (k, l, j, i); (l, k, i, j); (l, k, j, i) ].

(** Positions of an [n^4] tensor. *)
Definition in_range (n : nat) (q : quad) : Prop :=
  let '(i, j, k, l) := q in i < n ∧ j < n ∧ k < n ∧ l < n.

(** The loop bounds of [gen_ijkl], as a predicate on quadruples. *)
Definition canonical (n : nat) (q : quad) : Prop :=
  let '(i, j, k, l) := q in
  i < n ∧ j ≤ i ∧ k ≤ i ∧ l ≤ (if decide (i = k) then j else k).

(** A representative of the symmetry class of a position: order each
    pair, then order the two pairs. *)
Definition canon (q : quad) : quad :=
  let '(i, j, k, l) := q in
  let '(a, b) := if decide (j ≤ i) then (i, j) else (j, i) in
  let '(c, d) := if decide (l ≤ k) then (k, l) else (l, k) in
  if decide (c < a ∨ (c = a ∧ d ≤ b)) then (a, b, c, d) else (c, d, a, b).



(** The eight index permutations of the scatter statements of
    [eri_basis], in their order. *)
Definition perms8 : list (quad → quad) :=
  [ (λ '(i, j, k, l), (i, j, k, l)); (λ '(i, j, k, l), (i, j, l, k));
    (λ '(i, j, k, l), (j, i, k, l)); (λ '(i, j, k, l), (j, i, l, k));
    (λ '(i, j, k, l), (k, l, i, j)); (λ '(i, j, k, l), (k, l, j, i));
    (λ '(i, j, k, l), (l, k, i, j)); (λ '(i, j, k, l), (l, k, j, i)) ].
(** ** Data model *)

Definition Float3 : Type := R * R * R.
Definition Int3 : Type := Z * Z * Z.

(** A Cartesian Gaussian primitive.  [norm] is the scalar prefactor that
    the kernels read on the product of two primitives ([p.norm]). *)
Record Primitive := mkPrimitive {
  center : Float3;
  alpha : R;
  lmn : Int3;
  norm : R
}.

#[global] Instance Primitive_inhabited : Inhabited Primitive :=
  populate (mkPrimitive (0, 0, 0)%R 0%R (0, 0, 0)%Z 0%R).

(** A contracted orbital: its primitives and their contraction
    coefficients, position by position (the two lists have one length). *)
Record Orbital := mkOrbital {
  primitives : list Primitive;
  coefficients : list R
}.

(** Atomic numbers and positions of the nuclei. *)
Record Structure := mkStructure {
  atomic_number : list Z;
  position : list Float3
}.

Record Basis := mkBasis {
  structure : Structure;
  orbitals : list Orbital
}.

Definition BinaryPrimitiveOp : Type := Primitive → Primitive → R.

(** Modelled from the spec: the derived attributes of [Orbital] and
    [Basis] (mess/basis.py and mess/orbital.py are not among the sources at
    hand).  The flattened primitive and coefficient arrays are the
    concatenations over the orbitals, [orbital_index] maps each flattened
    primitive position to its owning orbital, [num_primitives] is the sum
    of the orbitals' primitive counts and [num_orbitals] the number of
    orbitals. *)
Definition orbital_num_primitives (o : Orbital) : nat := length (primitives o).

Definition num_orbitals (b : Basis) : nat := length (orbitals b).

Definition num_primitives (b : Basis) : nat :=
  sum_list (orbital_num_primitives <$> orbitals b).

Definition basis_primitives (b : Basis) : list Primitive :=
  orbitals b ≫= primitives.

Definition basis_coefficients (b : Basis) : list R :=
  orbitals b ≫= coefficients.

Definition orbital_index (b : Basis) : list Z :=
  mjoin (imap (λ o orb, replicate (orbital_num_primitives orb) (Z.of_nat o))
              (orbitals b)).

(** *** Three-component vectors *)

Definition sub3 (u v : Float3) : Float3 :=
  let '(u1, u2, u3) := u in let '(v1, v2, v3) := v in
  (u1 - v1, u2 - v2, u3 - v3)%R.

(** [jnp.inner] of two 3-vectors. *)
Definition inner3 (u v : Float3) : R :=
  let '(u1, u2, u3) := u in let '(v1, v2, v3) := v in
  (u1 * v1 + u2 * v2 + u3 * v3)%R.

(** [jnp.prod] and [jnp.sum] over the three axes. *)
Definition prod3 (u : Float3) : R := let '(u1, u2, u3) := u in (u1 * u2 * u3)%R.
Definition sum3 (u : Float3) : R := let '(u1, u2, u3) := u in (u1 + u2 + u3)%R.
Definition sum3z (u : Int3) : Z := let '(u1, u2, u3) := u in (u1 + u2 + u3)%Z.

(** [jnp.arange(3)]. *)
Inductive Axis := AxX | AxY | AxZ.

Definition axis_get {A} (u : A * A * A) (ax : Axis) : A :=
  let '(u1, u2, u3) := u in
  match ax with AxX => u1 | AxY => u2 | AxZ => u3 end.

(** [vmap] over the leading axis of length three. *)
Definition vmap_axes {A} (f : Axis → A) : A * A * A := (f AxX, f AxY, f AxZ).

(** [v.at[ax].add(offset)]. *)
Definition at_add3 (v : Int3) (ax : Axis) (offset : Z) : Int3 :=
  let '(v1, v2, v3) := v in
  match ax with
  | AxX => (v1 + offset, v2, v3)
  | AxY => (v1, v2 + offset, v3)
  | AxZ => (v1, v2, v3 + offset)
  end%Z.

(** ** Reference collaborators and example bases *)

(** Modelled from the spec: the helpers of mess/units.py, mess/special.py
    and mess/primitive.py, which are not among the sources at hand.  They
    are used only to instantiate the engine on concrete inputs; no result
    about the engine depends on them.
    - [LMAX] is 4, the largest angular momentum of the binomial-factor
      table;
    - [factorial] and [factorial2] clamp a negative argument to the value
      at zero, and [factorial2 n] is 1 for [n <= 0];
    - [binom n k] is 0 when [k < 0] or [k > n];
    - [binom_factor l1 l2 a b max_k] has [max_k + 1] entries, entry [k]
      being the coefficient of the [k]-th power in the expansion of
      [(x + a)^l1 (x + b)^l2], and [max_k] defaults to [LMAX];
    - [product] is the Gaussian product rule: the exponent-weighted centre,
      the sum of the exponents and the prefactor
      [exp(- alpha_a alpha_b / (alpha_a + alpha_b) * |A - B|^2)];
    - [gammanu n x] is the integral of [t^(2n) exp(- x t^2)] over
      [0 <= t <= 1]. *)
Module Reference.

Local Open Scope R_scope.

Definition LMAX : Z := 4.

Definition factorial (n : Z) : R := INR (fact (Z.to_nat n)).

Fixpoint double_fact (n : nat) : nat :=
  match n with
  | O => 1
  | S O => 1
  | S (S m) => (n * double_fact m)%nat
  end.

Definition factorial2 (n : Z) : R := INR (double_fact (Z.to_nat n)).

Definition binom (n k : Z) : R :=
  if decide (0 ≤ k ≤ n)%Z then C (Z.to_nat n) (Z.to_nat k) else 0.

Definition binom_factor (l1 l2 : Z) (a b : R) (max_k : option Z) : list R :=
  (λ k, Rsum ((λ t,
          if decide (k - l1 ≤ t ≤ l2)%Z
          then binom l1 (k - t) * binom l2 t
               * powerRZ a (l1 - (k - t)) * powerRZ b (l2 - t)
          else 0) <$> Py.range (k + 1)))
    <$> Py.range (default LMAX max_k + 1).

Definition product (a b : Primitive) : Primitive :=
  let p_alpha := alpha a + alpha b in
  let '(ax, ay, az) := center a in
  let '(bx, by_, bz) := center b in
  let Rab := sub3 (center a) (center b) in
  mkPrimitive
    ((alpha a * ax + alpha b * bx) / p_alpha,
     (alpha a * ay + alpha b * by_) / p_alpha,
     (alpha a * az + alpha b * bz) / p_alpha)
    p_alpha
    (let '(l1, m1, n1) := lmn a in let '(l2, m2, n2) := lmn b in
     (l1 + l2, m1 + m2, n1 + n2)%Z)
    (norm a * norm b * exp (- alpha a * alpha b / p_alpha * inner3 Rab Rab)).

Definition boys_integrand (n : nat) (x t : R) : R :=
  t ^ (2 * n) * exp (- x * t ^ 2).

Lemma boys_integrable (n : nat) (x : R) :
  Riemann_integrable (boys_integrand n x) 0 1.
Proof.
  apply continuity_implies_RiemannInt; [lra|].
  intros t _. apply derivable_continuous_pt. unfold boys_integrand. reg.
Qed.

Definition gammanu (n : Z) (x : R) : R :=
  RiemannInt (boys_integrable (Z.to_nat n) x).

End Reference.

Module Examples.

Local Open Scope R_scope.

(** An s-type primitive on the x axis. *)
Definition s_primitive (x alpha : R) : Primitive :=
  mkPrimitive (x, 0, 0) alpha (0, 0, 0)%Z 1.

(** Two hydrogen nuclei, one single-primitive s orbital on each. *)
Definition h2 : Basis :=
  mkBasis (mkStructure [1; 1]%Z [(0, 0, 0); (1.4, 0, 0)])
          [ mkOrbital [s_primitive 0 1] [1];
            mkOrbital [s_primitive 1.4 1] [1] ].

(** One nucleus with a single-primitive orbital followed by an orbital
    without primitives. *)
Definition lopsided : Basis :=
  mkBasis (mkStructure [1]%Z [(0, 0, 0)])
          [ mkOrbital [s_primitive 0 1] [1];
            mkOrbital [] [] ].

End Examples.

(** ** The binomial-factor table: [mess/binom_factor_table.py] *)

Module BinomFactorTable.

Local Open Scope Z_scope.

(** The first index array: the angular momentum [i] of the first factor. *)
Definition index_i : list Z :=
  [0; 0; 0; 0; 0; 0; 0; 0; 0; 0; 1; 1; 1; 1; 1; 1; 1; 1; 1; 1; 1; 1; 1; 1;
    1; 1; 1; 1; 1; 1; 1; 1; 1; 1; 1; 2; 2; 2; 2; 2; 2; 2; 2; 2; 2; 2; 2; 2;
    2; 2; 2; 2; 2; 2; 2; 2; 2; 2; 2; 2; 2; 2; 2; 2; 2; 2; 2; 2; 2; 2; 2; 2;
    2; 3; 3; 3; 3; 3; 3; 3; 3; 3; 3; 3; 3; 3; 3; 3; 3; 3; 3; 3; 3; 3; 3; 3;
    3; 3; 3; 3; 3; 3; 3; 3; 3; 3; 3; 3; 3; 3; 3; 3; 3; 3; 3; 3; 3; 3; 3; 3;
    3; 4; 4; 4; 4; 4; 4; 4; 4; 4; 4; 4; 4; 4; 4; 4; 4; 4; 4; 4; 4; 4; 4; 4;
    4; 4; 4; 4; 4; 4; 4; 4; 4; 4; 4; 4; 4; 4; 4; 4; 4; 4; 4; 4; 4; 4; 4; 4;
    4; 4; 4; 4; 4; 4; 4 ].

(** The second index array: the angular momentum [j] of the second factor. *)
Definition index_j : list Z :=
  [1; 2; 2; 3; 3; 3; 4; 4; 4; 4; 0; 1; 1; 1; 2; 2; 2; 2; 2; 3; 3; 3; 3; 3;
    3; 3; 4; 4; 4; 4; 4; 4; 4; 4; 4; 0; 0; 1; 1; 1; 1; 1; 2; 2; 2; 2; 2; 2;
    2; 2; 3; 3; 3; 3; 3; 3; 3; 3; 3; 3; 3; 4; 4; 4; 4; 4; 4; 4; 4; 4; 4; 4;
    4; 0; 0; 0; 1; 1; 1; 1; 1; 1; 1; 2; 2; 2; 2; 2; 2; 2; 2; 2; 2; 2; 3; 3;
    3; 3; 3; 3; 3; 3; 3; 3; 3; 3; 3; 4; 4; 4; 4; 4; 4; 4; 4; 4; 4; 4; 4; 4;
    4; 0; 0; 0; 0; 1; 1; 1; 1; 1; 1; 1; 1; 1; 2; 2; 2; 2; 2; 2; 2; 2; 2; 2;
    2; 2; 3; 3; 3; 3; 3; 3; 3; 3; 3; 3; 3; 3; 3; 3; 4; 4; 4; 4; 4; 4; 4; 4;
    4; 4; 4; 4; 4; 4; 4 ].

(** The third index array: the power [k] of the expansion variable. *)
Definition index_k : list Z :=
  [0; 0; 1; 0; 1; 2; 0; 1; 2; 3; 0; 0; 1; 1; 0; 1; 1; 2; 2; 0; 1; 1; 2; 2;
    3; 3; 0; 1; 1; 2; 2; 3; 3; 4; 4; 0; 1; 0; 1; 1; 2; 2; 0; 1; 1; 2; 2; 2;
    3; 3; 0; 1; 1; 2; 2; 2; 3; 3; 3; 4; 4; 0; 1; 1; 2; 2; 2; 3; 3; 3; 4; 4;
    4; 0; 1; 2; 0; 1; 1; 2; 2; 3; 3; 0; 1; 1; 2; 2; 2; 3; 3; 3; 4; 4; 0; 1;
    1; 2; 2; 2; 3; 3; 3; 3; 4; 4; 4; 0; 1; 1; 2; 2; 2; 3; 3; 3; 3; 4; 4; 4;
    4; 0; 1; 2; 3; 0; 1; 1; 2; 2; 3; 3; 4; 4; 0; 1; 1; 2; 2; 2; 3; 3; 3; 4;
    4; 4; 0; 1; 1; 2; 2; 2; 3; 3; 3; 3; 4; 4; 4; 4; 0; 1; 1; 2; 2; 2; 3; 3;
    3; 3; 4; 4; 4; 4; 4 ].

(** The fourth index array: the position [m] of a monomial in the two
    offsets. *)
Definition index_m : list Z :=
  [4; 21; 4; 11; 21; 4; 2; 11; 21; 4; 15; 3; 4; 15; 1; 3; 21; 4; 15; 17; 1;
    11; 3; 21; 4; 15; 19; 2; 17; 1; 11; 3; 21; 4; 15; 22; 15; 10; 3; 22; 4;
    15; 23; 1; 10; 3; 21; 22; 4; 15; 9; 17; 23; 1; 10; 11; 3; 21; 22; 4; 15;
    12; 9; 19; 2; 17; 23; 1; 10; 11; 3; 21; 22; 13; 22; 15; 14; 10; 13; 3;
    22; 4; 15; 5; 14; 23; 1; 10; 13; 3; 21; 22; 4; 15; 16; 5; 9; 14; 17; 23;
    1; 10; 11; 13; 3; 21; 22; 18; 12; 16; 5; 9; 19; 2; 14; 17; 23; 1; 10;
    11; 13; 7; 13; 22; 15; 24; 7; 14; 10; 13; 3; 22; 4; 15; 20; 5; 24; 7;
    14; 23; 1; 10; 13; 3; 21; 22; 6; 16; 20; 5; 9; 24; 7; 14; 17; 23; 1; 10;
    11; 13; 8; 6; 18; 12; 16; 20; 5; 9; 19; 24; 2; 7; 14; 17; 23 ].

(** The weights.  The source holds them as floats; all of them are whole
    numbers. *)
Definition weights : list Z :=
  [1; 1; 2; 1; 3; 3; 1; 4; 6; 4; 1; 1; 1; 1; 1; 2; 1; 2; 1; 1; 3; 1; 3; 3;
    3; 1; 1; 1; 4; 6; 4; 4; 6; 4; 1; 1; 2; 1; 2; 1; 1; 2; 1; 2; 2; 4; 1; 1;
    2; 2; 1; 2; 3; 6; 3; 1; 6; 3; 1; 3; 2; 1; 4; 2; 1; 8; 6; 12; 4; 4; 8; 6;
    1; 1; 3; 3; 1; 3; 1; 3; 3; 1; 3; 1; 2; 3; 3; 6; 1; 6; 1; 3; 2; 3; 1; 3;
    3; 3; 3; 9; 9; 9; 1; 1; 9; 3; 3; 1; 3; 4; 6; 12; 3; 1; 4; 12; 18; 18;
    12; 4; 1; 1; 4; 6; 4; 1; 1; 4; 6; 4; 4; 6; 1; 4; 1; 4; 2; 1; 8; 6; 4;
    12; 4; 8; 1; 6; 1; 4; 3; 12; 6; 3; 1; 12; 4; 18; 12; 18; 1; 4; 1; 4; 4;
    6; 16; 6; 24; 24; 4; 4; 1; 1; 16; 16; 36 ].

(** [binom_factor_table]: the four index arrays and the array of
    weights. *)
Definition binom_factor_table : (list Z * list Z * list Z * list Z) * list R :=
  ((index_i, index_j, index_k, index_m), IZR <$> weights).

(** The table row by row: [(i, j, k, m, weight)]. *)
Definition rows : list (Z * Z * Z * Z * Z) :=
  zip (zip (zip (zip index_i index_j) index_k) index_m) weights.

(** The binomial coefficient, by the rule of Pascal. *)
Fixpoint choose (n k : nat) : nat :=
  match n, k with
  | _, O => 1
  | O, S _ => 0
  | S n', S k' => (choose n' k' + choose n' k)%nat
  end.

Definition binomial (n k : Z) : Z := Z.of_nat (choose (Z.to_nat n) (Z.to_nat k)).

(** The rows with [k = 0] carry the leading monomial of the product of the
    two factors, whose exponents are [(i, j)]: they name the monomials.
    [monomial_exponents m] reads the exponents of monomial [m] off the
    first such row. *)
Definition monomial_exponents (m : Z) : option (Z * Z) :=
  (λ '(i, j, _, _, _), (i, j))
    <$> head (filter (λ '(_, _, k, m', _), k = 0 ∧ m' = m) rows).

(** The sum of the weights of the rows of one [(i, j, k)]. *)
Definition group_weight (i j k : Z) : Z :=
  foldr Z.add 0
    ((λ '(_, _, _, _, w), w)
       <$> filter (λ '(i', j', k', _, _), i' = i ∧ j' = j ∧ k' = k) rows).

(** The position of a row in the order of the table. *)
Definition row_key (r : Z * Z * Z * Z * Z) : Z :=
  let '(i, j, k, m, _) := r in ((i * 5 + j) * 5 + k) * 25 + m.

(** What a row must be for the table to hold the expansion of
    [(x + a)^i (x + b)^j]: its monomial [a^p b^q] has [p <= i] and
    [q <= j], it stands at the power [k = (i - p) + (j - q)] of [x], and
    its weight is the product of the two binomial coefficients. *)
Definition row_is_expansion_term (r : Z * Z * Z * Z * Z) : Prop :=
  let '(i, j, k, m, w) := r in
  match monomial_exponents m with
  | Some (p, q) =>
      0 ≤ p ≤ i ∧ 0 ≤ q ≤ j ∧ k = (i - p) + (j - q)
      ∧ w = binomial i p * binomial j q
  | None => False
  end.

(** The terms that the table must hold: for angular momenta up to four,
    every monomial other than the constant one whose power of [x] is at
    most four. *)
Definition expected_terms : list (Z * Z * Z * Z) :=
  filter (λ '(i, j, p, q), (p, q) ≠ (0, 0) ∧ (i - p) + (j - q) ≤ 4)
    (i ← Py.range 5; j ← Py.range 5;
     p ← Py.range (i + 1); q ← Py.range (j + 1); [(i, j, p, q)]).

(** The term of a row. *)
Definition row_term (r : Z * Z * Z * Z * Z) : option (Z * Z * Z * Z) :=
  let '(i, j, _, m, _) := r in
  (λ '(p, q), (i, j, p, q)) <$> monomial_exponents m.

End BinomFactorTable.

(** ** The integral engine *)

Section Integrals.

(** The kernels call into mess/units.py, mess/primitive.py and
    mess/special.py, which are not among the sources at hand.  What they
    provide is taken as a parameter, and nothing is assumed about it:
    - [LMAX], the compiled maximum angular momentum;
    - [product a b], the Gaussian product of two primitives;
    - [binom n k], [factorial n], [factorial2 n];
    - [binom_factor l1 l2 a b max_k], the binomial-expansion coefficient
      vector, with [None] for a call that leaves [max_k] to its default;
    - [gammanu n x], evaluated at one order. *)
Variable LMAX : Z.
Variable product : Primitive → Primitive → Primitive.
Variable binom : Z → Z → R.
Variable factorial : Z → R.
Variable factorial2 : Z → R.
Variable binom_factor : Z → Z → R → R → option Z → list R.
Variable gammanu : Z → R → R.

(** Drops from the context of a proof the collaborators that its goal does
    not mention, so that a decision procedure cannot pick them up. *)
Ltac forget_collaborators :=
  try clear gammanu; try clear binom_factor; try clear factorial2;
  try clear factorial; try clear binom; try clear product; try clear LMAX.

(** *** Overlap *)

(** The index pairs [(s, t)] of [overlap_axis]. *)
Definition overlap_idx : list (Z * Z) :=
  s ← Py.range (LMAX + 1); t ← Py.range (2 * s + 1); [(s, t)].

(** The unmasked term of [overlap_axis] at [(s, t)].  The arrays [s] and [t]
    are [uint32]: [2 * s - t] and [2 * s - 1] are unsigned results, while a
    difference with the signed [i] or [j] is signed. *)
Definition overlap_term (p_alpha : R) (i j : Z) (a b : R) (st : Z * Z) : R :=
  let '(s, t) := st in
  let out := (binom i (Py.u32 (2 * s - t)) * binom j t)%R in
  let out := (out * (powerRZ a (Z.max (i - Py.u32 (2 * s - t)) 0)
                     * powerRZ b (Z.max (j - t) 0)))%R in
  let out := (out * (factorial2 (Py.u32 (2 * s - 1)) / powerRZ (2 * p_alpha) s))%R in
  out.

(** [mask = (2 * s - i <= t) & (t <= j)]. *)
Definition overlap_mask (i j : Z) (st : Z * Z) : bool :=
  let '(s, t) := st in bool_decide (2 * s - i ≤ t)%Z && bool_decide (t ≤ j)%Z.

(** What the pair [(s, t)] contributes: [jnp.where(mask, out, 0)]. *)
Definition overlap_contribution (p_alpha : R) (i j : Z) (a b : R)
    (st : Z * Z) : R :=
  if overlap_mask i j st then overlap_term p_alpha i j a b st else 0%R.

Definition overlap_axis (p_alpha : R) (i j : Z) (a b : R) : R :=
  Rsum (overlap_contribution p_alpha i j a b <$> overlap_idx).

Definition _overlap_primitives (a b : Primitive) : R :=
  let p := product a b in
  let pa := sub3 (center p) (center a) in
  let pb := sub3 (center p) (center b) in
  let out := (Rpower (PI / alpha p) (3 / 2) * norm p)%R in
  (out * prod3 (vmap_axes (λ ax,
      overlap_axis (alpha p) (axis_get (lmn a) ax) (axis_get (lmn b) ax)
                   (axis_get pa ax) (axis_get pb ax))))%R.

(** *** Kinetic *)

(** [offset_qn(ax, offset)] inside [_kinetic_primitives]: [b] with the
    angular momentum of one axis shifted. *)
Definition offset_qn (b : Primitive) (ax : Axis) (offset : Z) : Primitive :=
  mkPrimitive (center b) (alpha b) (at_add3 (lmn b) ax offset) (norm b).

Definition _kinetic_primitives (a b : Primitive) : R :=
  let t0 := (alpha b * (2 * IZR (sum3z (lmn b)) + 3) * _overlap_primitives a b)%R in
  let b1 := vmap_axes (λ ax, offset_qn b ax 2) in
  let t1 := sum3 (vmap_axes (λ ax, _overlap_primitives a (axis_get b1 ax))) in
  let b2 := vmap_axes (λ ax, offset_qn b ax (-2)) in
  let t2 := sum3 (vmap_axes (λ ax,
      (IZR (axis_get (lmn b) ax) * (IZR (axis_get (lmn b) ax) - 1)
       * _overlap_primitives a (axis_get b2 ax))%R)) in
  (t0 - 2 * (alpha b) ^ 2 * t1 - 0.5 * t2)%R.

(** *** Nuclear attraction *)

Definition build_gindex : list (Z * Z * Z) :=
  i ← Py.range (LMAX + 1);
  r ← Py.range (i / 2 + 1);
  u ← Py.range ((i - 2 * r) / 2 + 1);
  [(i, r, u)].

Definition gindex : list (Z * Z * Z) := build_gindex.

(** [index = i - 2 * r - u], the segment ids of [g_term]. *)
Definition g_index : list Z := (λ '(i, r, u), i - 2 * r - u)%Z <$> gindex.

(** The masked values [g] of [g_term], one per row of [gindex]. *)
Definition g_values (epsilon : R) (l1 l2 : Z) (pa pb cp : R) : list R :=
  (λ '(i, r, u),
     let index := (i - 2 * r - u)%Z in
     let g := (powerRZ (-1) (i + u)
               * take_z (binom_factor l1 l2 pa pb None) i
               * factorial i
               * powerRZ cp (index - u)
               * powerRZ epsilon (r + u)
               / (factorial r * factorial u * factorial (index - u)))%R in
     if bool_decide (index ≤ l1 + l2)%Z then g else 0%R) <$> gindex.

Definition g_term (epsilon : R) (l1 l2 : Z) (pa pb cp : R) : list R :=
  segment_sum (g_values epsilon l1 l2 pa pb cp) g_index (Z.to_nat (LMAX + 1)).

Definition _nuclear_primitives (a b : Primitive) (c : Float3) : R :=
  let p := product a b in
  let pa := sub3 (center p) (center a) in
  let pb := sub3 (center p) (center b) in
  let pc := sub3 (center p) c in
  let epsilon := (1 / (4 * alpha p))%R in
  let '(Gi, Gj, Gk) := vmap_axes (λ ax,
      g_term epsilon (axis_get (lmn a) ax) (axis_get (lmn b) ax)
             (axis_get pa ax) (axis_get pb ax) (axis_get pc ax)) in
  let ids := Py.range (3 * LMAX + 1) in
  let ijk := Py.range (LMAX + 1) in
  let gam := (λ n, gammanu n (alpha p * inner3 pc pc)%R) <$> ids in
  let W := i ← ijk; j ← ijk; k ← ijk;
           [(take_z Gi i * take_z Gj j * take_z Gk k * take_z gam (i + j + k))%R] in
  (-2 * PI / alpha p * norm p * Rsum W)%R.

(** *** Electron repulsion *)

Definition build_cindex : list (Z * Z * Z * Z * Z) :=
  i1 ← Py.range (2 * LMAX + 1);
  i2 ← Py.range (2 * LMAX + 1);
  r1 ← Py.range (i1 / 2 + 1);
  r2 ← Py.range (i2 / 2 + 1);
  u ← Py.range ((i1 + i2) / 2 - r1 - r2 + 1);
  [(i1, i2, r1, r2, u)].

Definition cindex : list (Z * Z * Z * Z * Z) := build_cindex.

(** [H(l1, l2, a, b, i, r, gamma)] inside [_eri_primitives]. *)
Definition H (l1 l2 : Z) (a b : R) (i r : Z) (gamma : R) : R :=
  let u := (factorial i * take_z (binom_factor l1 l2 a b (Some (2 * LMAX)%Z)) i)%R in
  let v := (factorial r * factorial (i - 2 * r) * powerRZ (4 * gamma) (i - r))%R in
  (u / v)%R.

(** [index = i1 + i2 - 2 * (r1 + r2) - u], the segment ids of [c_term]. *)
Definition c_index : list Z :=
  (λ '(i1, i2, r1, r2, u), i1 + i2 - 2 * (r1 + r2) - u)%Z <$> cindex.

(** The masked values [c] of [c_term], one per row of [cindex]. *)
Definition c_values (p_alpha q_alpha delta : R) (la lb lc ld : Z)
    (pa pb qc qd qp : R) : list R :=
  (λ '(i1, i2, r1, r2, u),
     let h := (H la lb pa pb i1 r1 p_alpha * H lc ld qc qd i2 r2 q_alpha)%R in
     let index := (i1 + i2 - 2 * (r1 + r2) - u)%Z in
     let x := (powerRZ (-1) (i2 + u) * factorial (index + u)
               * powerRZ qp (index - u))%R in
     let y := (factorial u * factorial (index - u) * powerRZ delta index)%R in
     let c := (h * x / y)%R in
     let mask := bool_decide (i1 ≤ la + lb)%Z && bool_decide (i2 ≤ lc + ld)%Z in
     if mask then c else 0%R) <$> cindex.

Definition c_term (p_alpha q_alpha delta : R) (la lb lc ld : Z)
    (pa pb qc qd qp : R) : list R :=
  segment_sum (c_values p_alpha q_alpha delta la lb lc ld pa pb qc qd qp)
              c_index (Z.to_nat (4 * LMAX + 1)).

Definition _eri_primitives (a b c d : Primitive) : R :=
  let p := product a b in
  let q := product c d in
  let pa := sub3 (center p) (center a) in
  let pb := sub3 (center p) (center b) in
  let qc := sub3 (center q) (center c) in
  let qd := sub3 (center q) (center d) in
  let qp := sub3 (center q) (center p) in
  let delta := (1 / (4 * alpha p) + 1 / (4 * alpha q))%R in
  let '(Ci, Cj, Ck) := vmap_axes (λ ax,
      c_term (alpha p) (alpha q) delta
             (axis_get (lmn a) ax) (axis_get (lmn b) ax)
             (axis_get (lmn c) ax) (axis_get (lmn d) ax)
             (axis_get pa ax) (axis_get pb ax)
             (axis_get qc ax) (axis_get qd ax) (axis_get qp ax)) in
  let ijk := Py.range (4 * LMAX + 1) in
  let ids := Py.range (12 * LMAX + 1) in
  let gam := (λ n, gammanu n (inner3 qp qp / (4 * delta))%R) <$> ids in
  let W := i ← ijk; j ← ijk; k ← ijk;
           [(take_z Ci i * take_z Cj j * take_z Ck k * take_z gam (i + j + k))%R] in
  (2 * PI ^ 2 / (alpha p * alpha q) * sqrt (PI / (alpha p + alpha q))
   * norm p * norm q * Rsum W)%R.

Definition vmap_eri_primitives : Primitive → Primitive → Primitive → Primitive → R :=
  _eri_primitives.

(** *** Basis aggregation: one- and two-index integrals *)

(** Modelled from the spec: [basis_iter] (mess/basis.py, not among the
    sources at hand) yields the unique unordered pairs of primitive
    positions, here the pairs [i <= j] in row-major order, each side with
    the contraction coefficients and the primitives gathered at its
    positions. *)
Definition triu_indices (n : nat) : list (nat * nat) :=
  i ← seq 0 n; j ← seq i (n - i); [(i, j)].

Definition basis_iter (basis : Basis)
    : (list nat * list R * list Primitive) * (list nat * list R * list Primitive) :=
  let pairs := triu_indices (num_primitives basis) in
  let ii := pairs.*1 in
  let jj := pairs.*2 in
  ((ii, take_at (basis_coefficients basis) <$> ii,
        take_at (basis_primitives basis) <$> ii),
   (jj, take_at (basis_coefficients basis) <$> jj,
        take_at (basis_primitives basis) <$> jj)).

Definition integrate_dense (basis : Basis) (primitive_op : BinaryPrimitiveOp)
    : Matrix :=
  let '((ii, cl, lhs), (jj, cr, rhs)) := basis_iter basis in
  let aij := zip_with Rmult (zip_with Rmult cl cr) (zip_with primitive_op lhs rhs) in
  let A := zeros2 (num_primitives basis) (num_primitives basis) in
  let A := at_set2 A (zip ii jj) aij in
  let A := msub (madd A (transpose (num_primitives basis) (num_primitives basis) A))
                (diag_matrix (diag A)) in
  let index := orbital_index basis in
  let out := segment_sum_rows (num_primitives basis) A index (num_orbitals basis) in
  let out := segment_sum_rows (num_orbitals basis)
               (transpose (num_orbitals basis) (num_primitives basis) out)
               index (num_orbitals basis) in
  out.

Definition integrate : Basis → BinaryPrimitiveOp → Matrix := integrate_dense.

Definition overlap_basis (basis : Basis) : Matrix :=
  integrate basis _overlap_primitives.

Definition kinetic_basis (b : Basis) : Matrix :=
  integrate b _kinetic_primitives.

(** [nuclear_basis]: [vmap] of the per-nucleus integration over the nuclei
    of the structure; the result is stacked along a leading axis. *)
Definition nuclear_basis (basis : Basis) : list Matrix :=
  let n (atomic_number : Z) (position : Float3) : Matrix :=
    let op (pi pj : Primitive) : R :=
      (IZR atomic_number * _nuclear_primitives pi pj position)%R in
    integrate basis op in
  zip_with n (atomic_number (structure basis)) (position (structure basis)).

(** *** Basis aggregation: electron repulsion *)

(** [offset = np.insert(np.cumsum([o.num_primitives ...]), 0, 0)]. *)
Definition eri_offset (b : Basis) : list nat :=
  0 :: Py.cumsum (orbital_num_primitives <$> orbitals b).

(** The Cartesian product of the four primitive ranges of one orbital
    quadruple ([cartesian_product] of [mesh]). *)
Definition mesh_product (offset : list nat) (idx : quad) : list quad :=
  let '(i, j, k, l) := idx in
  let mesh x := Py.range2 (offset !!! x) (offset !!! (x + 1)) in
  a ← mesh i; b ← mesh j; c ← mesh k; d ← mesh l; [(a, b, c, d)].

(** The loop over [enumerate(...)] that grows [indices] and [batch]. *)
Definition expand_quads (offset : list nat) (quads : list quad)
    : list quad * list Z :=
  foldl (λ '(indices, batch) '(count, idx),
           let indices := indices ++ mesh_product offset idx in
           let batch :=
             batch ++ replicate (length indices - length batch) (Z.of_nat count) in
           (indices, batch))
        ([], []) (Py.enumerate quads).

(** The coefficient product and the kernel value of one primitive
    quadruple: an entry of [eris]. *)
Definition eri_entry (b : Basis) (t : quad) : R :=
  let '(i, j, k, l) := t in
  let cijkl := (take_at (basis_coefficients b) i * take_at (basis_coefficients b) j
                * take_at (basis_coefficients b) k * take_at (basis_coefficients b) l)%R in
  (cijkl * vmap_eri_primitives (take_at (basis_primitives b) i)
                               (take_at (basis_primitives b) j)
                               (take_at (basis_primitives b) k)
                               (take_at (basis_primitives b) l))%R.

(** The statements that follow the loop, shared by [eri_basis_sparse] and
    by each batch of [eri_basis_sparse_batched].  [jnp.stack] raises on an
    empty list of index rows, which is what an empty [indices] transposes
    to. *)
Definition contract_eris (b : Basis) (indices : list quad) (batch : list Z)
    (num_segments : nat) : option (list R) :=
  match indices with
  | [] => None
  | _ =>
      let eris := eri_entry b <$> indices in
      Some (segment_sum eris batch num_segments)
  end.

Definition eri_basis_sparse (b : Basis) : option (list R) :=
  let offset := eri_offset b in
  let quads := gen_ijkl (num_orbitals b) in
  let '(indices, batch) := expand_quads offset quads in
  contract_eris b indices batch (length quads).

(** [more_itertools.batched] raises for a batch size below one, and
    [jnp.hstack] raises on an empty list of batches. *)
Definition eri_basis_sparse_batched (basis : Basis) (batch_size : nat)
    : option (list R) :=
  if decide (batch_size < 1) then None
  else
    let offset := eri_offset basis in
    batched_eris ←
      mapM (λ ijkl_batch,
              let '(indices, batch) := expand_quads offset ijkl_batch in
              contract_eris basis indices batch (length ijkl_batch))
           (Py.batched (gen_ijkl (num_orbitals basis)) batch_size);
    match batched_eris with
    | [] => None
    | _ => Some (mjoin batched_eris)
    end.

Definition eri_basis (b : Basis) : option Tensor4 :=
  unique_eris ← eri_basis_sparse_batched b (1024 * 1024);
  let quads := gen_ijkl (num_orbitals b) in
  let eri_dense := empty4 (num_orbitals b) in
  let eri_dense := at_set4 eri_dense ((λ '(i, j, k, l), (i, j, k, l)) <$> quads) unique_eris in
  let eri_dense := at_set4 eri_dense ((λ '(i, j, k, l), (i, j, l, k)) <$> quads) unique_eris in
  let eri_dense := at_set4 eri_dense ((λ '(i, j, k, l), (j, i, k, l)) <$> quads) unique_eris in
  let eri_dense := at_set4 eri_dense ((λ '(i, j, k, l), (j, i, l, k)) <$> quads) unique_eris in
  let eri_dense := at_set4 eri_dense ((λ '(i, j, k, l), (k, l, i, j)) <$> quads) unique_eris in
  let eri_dense := at_set4 eri_dense ((λ '(i, j, k, l), (k, l, j, i)) <$> quads) unique_eris in
  let eri_dense := at_set4 eri_dense ((λ '(i, j, k, l), (l, k, i, j)) <$> quads) unique_eris in
  let eri_dense := at_set4 eri_dense ((λ '(i, j, k, l), (l, k, j, i)) <$> quads) unique_eris in
  Some eri_dense.

(** The segment ids that the loop of [expand_quads] produces: the position
    of each orbital quadruple, once per primitive quadruple of its mesh. *)
Definition batch_ids (offset : list nat) (quads : list quad) : list Z :=
  mjoin (imap (λ count idx,
                 replicate (length (mesh_product offset idx)) (Z.of_nat count))
              quads).

(** The value of one orbital quadruple: the sum of [eris] over the
    primitive quadruples of its mesh. *)
Definition quad_value (b : Basis) (idx : quad) : R :=
  Rsum (eri_entry b <$> mesh_product (eri_offset b) idx).

(** Every orbital has at least one primitive. *)
Definition orbitals_nonempty (b : Basis) : Prop :=
  Forall (λ o, 0 < orbital_num_primitives o) (orbitals b).

(** All the writes of [eri_basis], in order: for each of the eight index
    permutations, the permuted quadruples paired with the unique values. *)
Definition eri_updates (n : nat) (vals : list R) : list (quad * R) :=
  perms8 ≫= λ perm, zip (perm <$> gen_ijkl n) vals.

(** *** Closed forms of the dense aggregation *)

(** The weighted kernel value of an ordered pair of primitive positions. *)
Definition pair_weight (b : Basis) (op : BinaryPrimitiveOp) (p q : nat) : R :=
  (take_at (basis_coefficients b) p * take_at (basis_coefficients b) q
   * op (take_at (basis_primitives b) p) (take_at (basis_primitives b) q))%R.

(** The same for an unordered pair: the kernel is evaluated with the
    smaller position first. *)
Definition sym_weight (b : Basis) (op : BinaryPrimitiveOp) (p q : nat) : R :=
  pair_weight b op (p `min` q) (p `max` q).

(** The primitive positions owned by one orbital. *)
Definition orbital_primitives (b : Basis) (o : nat) : list nat :=
  filter (λ p, orbital_index b !!! p = Z.of_nat o) (seq 0 (num_primitives b)).

(** The grouped double sum over the primitives of two orbitals. *)
Definition dense_entry (b : Basis) (op : BinaryPrimitiveOp) (s t : nat) : R :=
  Rsum ((λ p, Rsum ((λ q, sym_weight b op p q) <$> orbital_primitives b t))
          <$> orbital_primitives b s).

(** The kernel that [nuclear_basis] integrates for one nucleus. *)
Definition nuclear_op (atomic_number : Z) (position : Float3) : BinaryPrimitiveOp :=
  λ pi pj, (IZR atomic_number * _nuclear_primitives pi pj position)%R.

(** The per-nucleus contributions: for each nucleus, the orbital-aggregated
    nuclear-attraction kernel weighted by its atomic number. *)
Definition nuclear_contributions (basis : Basis) : list Matrix :=
  zip_with (λ Zc pos, integrate basis (nuclear_op Zc pos))
           (atomic_number (structure basis)) (position (structure basis)).

(** The reading of the nuclear-attraction claim as it is stated: the
    function returns one matrix, the sum of the contributions of all the
    nuclei. *)
Definition nuclear_basis_returns_sum (basis : Basis) : Prop :=
  nuclear_basis basis
  = [msum (num_orbitals basis) (num_orbitals basis) (nuclear_contributions basis)].

(** *** The remaining functions of the module *)

(** The jitted kernels. *)
Definition overlap_primitives : Primitive → Primitive → R := _overlap_primitives.
Definition kinetic_primitives : Primitive → Primitive → R := _kinetic_primitives.
Definition nuclear_primitives : Primitive → Primitive → Float3 → R :=
  _nuclear_primitives.
Definition eri_primitives : Primitive → Primitive → Primitive → Primitive → R :=
  _eri_primitives.

(** [range(offset[i], offset[i + 1])]: the primitive positions that the
    meshes attribute to orbital [i]. *)
Definition orbital_mesh (b : Basis) (i : nat) : list nat :=
  Py.range2 (eri_offset b !!! i) (eri_offset b !!! (i + 1)).

(** The number of primitives before orbital [o]. *)
Definition block_start (b : Basis) (o : nat) : nat :=
  sum_list (take o (orbital_num_primitives <$> orbitals b)).

(** [offset = np.cumsum([0] + [o.num_primitives ...])] of
    [integrate_sparse]. *)
Definition sparse_offset (basis : Basis) : list nat :=
  Py.cumsum (0 :: (orbital_num_primitives <$> orbitals basis)).

(** The Cartesian product of the two primitive ranges of one orbital
    pair. *)
Definition pair_mesh_product (offset : list nat) (idx : nat * nat)
    : list (nat * nat) :=
  let '(i, j) := idx in
  let mesh x := Py.range2 (offset !!! x) (offset !!! (x + 1)) in
  p ← mesh i; q ← mesh j; [(p, q)].

(** The loop of [integrate_sparse] over [enumerate(zip(ii, jj))]. *)
Definition expand_pairs (offset : list nat) (pairs : list (nat * nat))
    : list (nat * nat) * list Z :=
  foldl (λ '(indices, batch) '(count, idx),
           let indices := indices ++ pair_mesh_product offset idx in
           let batch :=
             batch ++ replicate (length indices - length batch) (Z.of_nat count) in
           (indices, batch))
        ([], []) (Py.enumerate pairs).

(** [integrate_sparse].  [allpairs_indices] (mess/special.py) is not among
    the sources at hand and is a parameter: it returns the index arrays
    [ii] and [jj] of the orbital pairs to evaluate, two arrays of one
    length.  An orbital index for which [offset[i + 1]] does not exist
    makes the loop raise, and, as in the electron-repulsion functions,
    [jnp.stack] raises when there is no primitive pair at all. *)
Definition integrate_sparse (allpairs_indices : nat → list nat * list nat)
    (basis : Basis) (primitive_op : BinaryPrimitiveOp) : option Matrix :=
  let offset := sparse_offset basis in
  let '(ii, jj) := allpairs_indices (num_orbitals basis) in
  if decide (Forall (λ idx, idx.1 < num_orbitals basis ∧ idx.2 < num_orbitals basis)
                    (zip ii jj))
  then
    let '(indices, batch) := expand_pairs offset (zip ii jj) in
    match indices with
    | [] => None
    | _ =>
        let cij := (λ '(p, q), (take_at (basis_coefficients basis) p
                                * take_at (basis_coefficients basis) q)%R)
                     <$> indices in
        let vals := (λ '(p, q), primitive_op (take_at (basis_primitives basis) p)
                                             (take_at (basis_primitives basis) q))
                      <$> indices in
        let aij := segment_sum (zip_with Rmult cij vals) batch (length (zip ii jj)) in
        let A := zeros2 (num_orbitals basis) (num_orbitals basis) in
        let A := at_set2 A (zip ii jj) aij in
        let A := msub (madd A (transpose (num_orbitals basis) (num_orbitals basis) A))
                      (diag_matrix (diag A)) in
        Some A
    end
  else None.

(** The segment ids that a loop of the shape of [expand_quads] and
    [expand_pairs] produces: the position of each item, once per tuple of
    its mesh. *)
Definition segment_ids {I T} (mesh : I → list T) (items : list I) : list Z :=
  mjoin (imap (λ count idx, replicate (length (mesh idx)) (Z.of_nat count)) items).

(** The value that [integrate_sparse] computes for one orbital pair: the
    sum of the weighted kernel over the primitive pairs of its mesh. *)
Definition pair_value (b : Basis) (op : BinaryPrimitiveOp) (idx : nat * nat) : R :=
  Rsum ((λ pq, pair_weight b op pq.1 pq.2)
          <$> pair_mesh_product (sparse_offset b) idx).

(** What [integrate_sparse] leaves at position [(s, t)] before the
    symmetrisation: the value of the pair when it is among the evaluated
    pairs, zero otherwise. *)
Definition sparse_half (b : Basis) (op : BinaryPrimitiveOp)
    (pairs : list (nat * nat)) (s t : nat) : R :=
  if decide ((s, t) ∈ pairs) then pair_value b op (s, t) else 0%R.

(** The orbital pairs that [integrate_sparse] evaluates: [zip(ii, jj)]. *)
Definition sparse_pairs (allpairs_indices : nat → list nat * list nat)
    (b : Basis) : list (nat * nat) :=
  zip (allpairs_indices (num_orbitals b)).1 (allpairs_indices (num_orbitals b)).2.

(** Both orbitals of a pair exist and have a primitive. *)
Definition pair_has_primitives (b : Basis) (idx : nat * nat) : Prop :=
  ∃ x y, orbitals b !! idx.1 = Some x ∧ orbitals b !! idx.2 = Some y ∧
         0 < orbital_num_primitives x ∧ 0 < orbital_num_primitives y.

(** An index function for [integrate_sparse], used on concrete inputs:
    the pairs [s <= t] of orbitals, row by row. *)
Definition upper_pairs_indices (n : nat) : list nat * list nat :=
  ((triu_indices n).*1, (triu_indices n).*2).

(** Two kernels for concrete inputs: the signed and the absolute distance
    along the x axis from the first centre to the second. *)
Definition forward_gap : BinaryPrimitiveOp :=
  λ x y, ((center y).1.1 - (center x).1.1)%R.

Definition absolute_gap : BinaryPrimitiveOp :=
  λ x y, Rabs ((center y).1.1 - (center x).1.1).
Section GenIjkl.

Lemma elem_of_gen_ijkl n q : q ∈ gen_ijkl n ↔ canonical n q.
Proof.
  destruct q as [[[i j] k] l]. unfold gen_ijkl, canonical. split.
  - intros H.
    apply list_elem_of_bind in H as (i' & H & Hi).
    apply list_elem_of_bind in H as (j' & H & Hj).
    apply list_elem_of_bind in H as (k' & H & Hk).
    apply list_elem_of_bind in H as (l' & H & Hl).
    apply list_elem_of_singleton in H. simplify_eq.
    apply elem_of_seq in Hi, Hj, Hk, Hl.
    repeat case_decide; lia.
  - intros (Hi & Hj & Hk & Hl).
    apply list_elem_of_bind. exists i. split; [|apply elem_of_seq; lia].
    apply list_elem_of_bind. exists j. split; [|apply elem_of_seq; lia].
    apply list_elem_of_bind. exists k. split; [|apply elem_of_seq; lia].
    apply list_elem_of_bind. exists l. split; [|apply elem_of_seq; lia].
    apply list_elem_of_singleton. done.
Qed.

Lemma canonical_in_range n q : canonical n q → in_range n q.
Proof.
  destruct q as [[[i j] k] l]. unfold canonical, in_range.
  case_decide; lia.
Qed.

Lemma NoDup_gen_ijkl n : NoDup (gen_ijkl n).
Proof.
  unfold gen_ijkl.
  apply NoDup_bind; [| |apply NoDup_seq].
  { intros i1 i2 q _ _ H1 H2.
    apply list_elem_of_bind in H1 as (? & H1 & _).
    apply list_elem_of_bind in H1 as (? & H1 & _).
    apply list_elem_of_bind in H1 as (? & H1 & _).
    apply list_elem_of_singleton in H1.
    apply list_elem_of_bind in H2 as (? & H2 & _).
    apply list_elem_of_bind in H2 as (? & H2 & _).
    apply list_elem_of_bind in H2 as (? & H2 & _).
    apply list_elem_of_singleton in H2. by simplify_eq. }
  intros i _. apply NoDup_bind; [| |apply NoDup_seq].
  { intros j1 j2 q _ _ H1 H2.
    apply list_elem_of_bind in H1 as (? & H1 & _).
    apply list_elem_of_bind in H1 as (? & H1 & _).
    apply list_elem_of_singleton in H1.
    apply list_elem_of_bind in H2 as (? & H2 & _).
    apply list_elem_of_bind in H2 as (? & H2 & _).
    apply list_elem_of_singleton in H2. by simplify_eq. }
  intros j _. apply NoDup_bind; [| |apply NoDup_seq].
  { intros k1 k2 q _ _ H1 H2.
    apply list_elem_of_bind in H1 as (? & H1 & _).
    apply list_elem_of_singleton in H1.
    apply list_elem_of_bind in H2 as (? & H2 & _).
    apply list_elem_of_singleton in H2. by simplify_eq. }
  intros k _. apply NoDup_bind; [| |apply NoDup_seq].
  { intros l1 l2 q _ _ H1 H2.
    apply list_elem_of_singleton in H1, H2. by simplify_eq. }
  intros l _. apply NoDup_singleton.
Qed.

Lemma elem_of_images8 p q :
  p ∈ images8 q ↔
  let '(i, j, k, l) := q in
  p = (i, j, k, l) ∨ p = (i, j, l, k) ∨ p = (j, i, k, l) ∨ p = (j, i, l, k) ∨
  p = (k, l, i, j) ∨ p = (k, l, j, i) ∨ p = (l, k, i, j) ∨ p = (l, k, j, i).
Proof. forget_collaborators.
  destruct q as [[[i j] k] l]. unfold images8.
  rewrite !elem_of_cons, elem_of_nil. tauto.
Qed.

Lemma canon_canonical n p : in_range n p → canonical n (canon p).
Proof.
  destruct p as [[[i j] k] l]. unfold in_range, canon, canonical.
  intros ?. repeat (case_decide; simpl); repeat case_decide; lia.
Qed.

Lemma canon_image p : p ∈ images8 (canon p).
Proof. forget_collaborators.
  destruct p as [[[i j] k] l]. unfold canon.
  repeat (case_decide; simpl); rewrite !elem_of_cons; tauto.
Qed.

(** Two canonical quadruples with a common image are equal. *)
Lemma canonical_unique n p q1 q2 :
  canonical n q1 → canonical n q2 →
  p ∈ images8 q1 → p ∈ images8 q2 → q1 = q2.
Proof.
  destruct q1 as [[[i1 j1] k1] l1], q2 as [[[i2 j2] k2] l2].
  unfold canonical. intros H1 H2 Hp1 Hp2.
  apply elem_of_images8 in Hp1, Hp2.
  assert (i1 = i2 ∧ j1 = j2 ∧ k1 = k2 ∧ l1 = l2) as (-> & -> & -> & ->);
    [|done].
  repeat case_decide;
    destruct Hp1 as [->|[->|[->|[->|[->|[->|[->| ->]]]]]]];
    destruct Hp2 as [Hp|[Hp|[Hp|[Hp|[Hp|[Hp|[Hp|Hp]]]]]]];
    injection Hp as ????; lia.
Qed.

Lemma canon_of_image n p q : canonical n q → p ∈ images8 q → canon p = q.
Proof.
  intros Hq Hp.
  assert (in_range n p) as Hr.
  { apply canonical_in_range in Hq.
    destruct q as [[[i j] k] l]. apply elem_of_images8 in Hp.
    unfold in_range in *.
    destruct Hp as [->|[->|[->|[->|[->|[->|[->| ->]]]]]]]; lia. }
  eapply canonical_unique; [by apply canon_canonical|done|apply canon_image|done].
Qed.

End GenIjkl.

(** *** Counting the yielded quadruples *)

Section GenIjklCount.











(** *** The eight images as symmetry classes *)

Lemma images8_perms8 q : images8 q = (λ perm : quad → quad, perm q) <$> perms8.
Proof. by destruct q as [[[i j] k] l]. Qed.








End GenIjklCount.
Section Sums.
Local Open Scope R_scope.

Lemma Rsum_app l k : Rsum (l ++ k) = Rsum l + Rsum k.
Proof. induction l as [|x l IH]; csimpl; [lra|rewrite IH; lra]. Qed.

Lemma Rsum_ext {A} (f g : A → R) (l : list A) :
  (∀ x, x ∈ l → f x = g x) → Rsum (f <$> l) = Rsum (g <$> l).
Proof.
  induction l as [|x l IH]; intros H; [done|]. csimpl.
  rewrite H, IH; [done| |left]. intros y Hy. apply H. by right.
Qed.

Lemma Rsum_zero {A} (l : list A) : Rsum ((λ _, 0) <$> l) = 0.
Proof. induction l as [|x l IH]; csimpl; [done|rewrite IH; lra]. Qed.

Lemma Rsum_plus {A} (f g : A → R) (l : list A) :
  Rsum ((λ x, f x + g x) <$> l) = Rsum (f <$> l) + Rsum (g <$> l).
Proof. induction l as [|x l IH]; csimpl; [lra|rewrite IH; lra]. Qed.

(** Exchange of two finite sums. *)
Lemma Rsum_swap {A B} (f : A → B → R) (la : list A) (lb : list B) :
  Rsum ((λ a, Rsum ((λ b, f a b) <$> lb)) <$> la)
  = Rsum ((λ b, Rsum ((λ a, f a b) <$> la)) <$> lb).
Proof.
  induction la as [|a la IH]; csimpl.
  - by rewrite Rsum_zero.
  - by rewrite IH, Rsum_plus.
Qed.

(** A sum in which only the items passing a test contribute. *)
Lemma Rsum_filter {A} (P : A → Prop) `{∀ x, Decision (P x)}
    (f : A → R) (l : list A) :
  Rsum ((λ x, if decide (P x) then f x else 0) <$> l)
  = Rsum (f <$> filter P l).
Proof.
  induction l as [|x l IH]; [done|]. csimpl. rewrite filter_cons.
  destruct (decide (P x)); csimpl; rewrite IH; lra.
Qed.

(** A sum over the items of a list is a sum over its positions. *)
Lemma Rsum_positions {A} `{Inhabited A} (f : A → R) (l : list A) :
  Rsum (f <$> l) = Rsum ((λ p, f (l !!! p)) <$> seq 0 (length l)).
Proof.
  induction l as [|x l IH] using rev_ind; [done|].
  rewrite length_app, Nat.add_1_r, seq_S, !fmap_app, !Rsum_app. csimpl.
  rewrite IH. f_equal.
  - apply Rsum_ext. intros p Hp%elem_of_seq.
    by rewrite lookup_total_app_l by lia.
  - rewrite lookup_total_app_r, Nat.sub_diag by lia. done.
Qed.

Lemma Rsum_lookup (l : list R) :
  Rsum l = Rsum ((λ p, l !!! p) <$> seq 0 (length l)).
Proof. rewrite <-(list_fmap_id l) at 1. apply (Rsum_positions id). Qed.

End Sums.

Section SegmentSum.
Context {A : Type} (add : A → A → A) (zero : A).

Lemma segment_scatter_lookup (kvs : list (Z * A)) (out : list A) (s : nat) :
  foldl (λ out '(id, x),
           if decide (0 ≤ id)%Z then alter (λ y, add y x) (Z.to_nat id) out
           else out) out kvs !! s
  = (λ a, segment_fold add s a kvs) <$> out !! s.
Proof.
  revert out. induction kvs as [|[id x] kvs IH]; intros out; csimpl.
  { by destruct (out !! s). }
  rewrite IH. unfold segment_fold. csimpl.
  destruct (decide (0 ≤ id)%Z) as [Hid|Hid].
  - rewrite list_lookup_alter.
    destruct (decide (Z.to_nat id = s)) as [<-|Hne].
    + destruct (out !! _); csimpl; [|done].
      rewrite decide_True by lia. done.
    + destruct (out !! s); csimpl; [|done].
      rewrite decide_False by lia. done.
  - destruct (out !! s); csimpl; [|done].
    rewrite decide_False by lia. done.
Qed.

Lemma segment_sum_gen_lookup data ids n s :
  s < n →
  segment_sum_gen add zero data ids n !! s
  = Some (segment_fold add s zero (zip ids data)).
Proof.
  intros Hs. unfold segment_sum_gen.
  rewrite segment_scatter_lookup, lookup_replicate_2 by done. done.
Qed.

Lemma segment_sum_gen_length data ids n :
  length (segment_sum_gen add zero data ids n) = n.
Proof.
  unfold segment_sum_gen. generalize (zip ids data) as kvs.
  assert (∀ (kvs : list (Z * A)) out,
    length (foldl (λ out '(id, x),
           if decide (0 ≤ id)%Z then alter (λ y, add y x) (Z.to_nat id) out
           else out) out kvs) = length out) as Hlen.
  { induction kvs as [|[id x] kvs IH]; intros out; csimpl; [done|].
    rewrite IH. case_decide; [apply length_alter|done]. }
  intros kvs. by rewrite Hlen, length_replicate.
Qed.

End SegmentSum.

Section SegmentSumReal.
Local Open Scope R_scope.

Lemma segment_fold_Rplus s acc (kvs : list (Z * R)) :
  segment_fold Rplus s acc kvs
  = acc + Rsum ((λ '(id, x), if decide (id = Z.of_nat s) then x else 0) <$> kvs).
Proof.
  revert acc. induction kvs as [|[id x] kvs IH]; intros acc; csimpl; [lra|].
  rewrite IH. case_decide; lra.
Qed.

Lemma segment_sum_lookup data ids n s :
  (s < n)%nat →
  segment_sum data ids n !! s
  = Some (Rsum ((λ '(id, x), if decide (id = Z.of_nat s) then x else 0)
                  <$> zip ids data)).
Proof.
  intros Hs. unfold segment_sum.
  rewrite segment_sum_gen_lookup, segment_fold_Rplus by done.
  f_equal. lra.
Qed.

Lemma segment_sum_length data ids n : length (segment_sum data ids n) = n.
Proof. apply segment_sum_gen_length. Qed.

(** When every id is a valid segment nothing is dropped: the segments
    add up to the sum of the data. *)
Lemma segment_sum_total data ids n :
  length ids = length data →
  Forall (λ id, 0 ≤ id < Z.of_nat n)%Z ids →
  Rsum (segment_sum data ids n) = Rsum data.
Proof.
  intros Hlen Hids.
  rewrite (Rsum_lookup (segment_sum _ _ _)), segment_sum_length.
  erewrite Rsum_ext.
  2:{ intros s Hs%elem_of_seq.
      apply list_lookup_total_correct, segment_sum_lookup. lia. }
  rewrite (Rsum_swap (λ s '(id, x), if decide (id = Z.of_nat s) then x else 0)).
  revert data Hlen.
  induction Hids as [|i ids Hi Hids IH]; intros [|x data] Hlen;
    simplify_eq/=; [done|]. rewrite IH by done. f_equal.
  clear IH Hids. destruct Hi as [Hi0 Hin].
  replace i with (Z.of_nat (Z.to_nat i)) by lia.
  assert (Z.to_nat i < n)%nat as Hlt by lia. revert Hlt.
  generalize (Z.to_nat i) as k. clear. intros k Hk.
  induction n as [|n IH]; [lia|].
  rewrite seq_S, fmap_app, Rsum_app. csimpl.
  destruct (decide (k = n)) as [->|Hne].
  - rewrite decide_True by done.
    erewrite Rsum_ext; [rewrite Rsum_zero; lra|].
    intros s Hs%elem_of_seq. csimpl. rewrite decide_False by lia. done.
  - rewrite decide_False by lia. rewrite IH by lia. lra.
Qed.

End SegmentSumReal.


(** ** The index tables of the nuclear and electron-repulsion kernels *)

Section IndexTables.

Lemma elem_of_range (n x : Z) : x ∈ Py.range n ↔ (0 ≤ x < n)%Z.
Proof.
  unfold Py.range. rewrite list_elem_of_fmap. split.
  - intros (k & -> & Hk%elem_of_seq). lia.
  - intros Hx. exists (Z.to_nat x). split; [lia|]. apply elem_of_seq. lia.
Qed.

Lemma elem_of_build_gindex i r u :
  (i, r, u) ∈ build_gindex ↔
  (0 ≤ i < LMAX + 1 ∧ 0 ≤ r < i / 2 + 1 ∧ 0 ≤ u < (i - 2 * r) / 2 + 1)%Z.
Proof.
  unfold build_gindex. split.
  - intros Hin.
    apply list_elem_of_bind in Hin as (i' & Hin & Hi).
    apply list_elem_of_bind in Hin as (r' & Hin & Hr).
    apply list_elem_of_bind in Hin as (u' & Hin & Hu).
    apply list_elem_of_singleton in Hin. simplify_eq.
    apply elem_of_range in Hi, Hr, Hu. done.
  - intros (Hi & Hr & Hu).
    apply list_elem_of_bind. exists i. split; [|by apply elem_of_range].
    apply list_elem_of_bind. exists r. split; [|by apply elem_of_range].
    apply list_elem_of_bind. exists u. split; [|by apply elem_of_range].
    by apply list_elem_of_singleton.
Qed.

Lemma elem_of_build_cindex i1 i2 r1 r2 u :
  (i1, i2, r1, r2, u) ∈ build_cindex ↔
  (0 ≤ i1 < 2 * LMAX + 1 ∧ 0 ≤ i2 < 2 * LMAX + 1 ∧
   0 ≤ r1 < i1 / 2 + 1 ∧ 0 ≤ r2 < i2 / 2 + 1 ∧
   0 ≤ u < (i1 + i2) / 2 - r1 - r2 + 1)%Z.
Proof.
  unfold build_cindex. split.
  - intros Hin.
    apply list_elem_of_bind in Hin as (i1' & Hin & Hi1).
    apply list_elem_of_bind in Hin as (i2' & Hin & Hi2).
    apply list_elem_of_bind in Hin as (r1' & Hin & Hr1).
    apply list_elem_of_bind in Hin as (r2' & Hin & Hr2).
    apply list_elem_of_bind in Hin as (u' & Hin & Hu).
    apply list_elem_of_singleton in Hin. simplify_eq.
    apply elem_of_range in Hi1, Hi2, Hr1, Hr2, Hu. done.
  - intros (Hi1 & Hi2 & Hr1 & Hr2 & Hu).
    apply list_elem_of_bind. exists i1. split; [|by apply elem_of_range].
    apply list_elem_of_bind. exists i2. split; [|by apply elem_of_range].
    apply list_elem_of_bind. exists r1. split; [|by apply elem_of_range].
    apply list_elem_of_bind. exists r2. split; [|by apply elem_of_range].
    apply list_elem_of_bind. exists u. split; [|by apply elem_of_range].
    by apply list_elem_of_singleton.
Qed.

Lemma gindex_bounds i r u :
  (i, r, u) ∈ build_gindex →
  (0 ≤ i - 2 * r - u ≤ LMAX ∧ 0 ≤ i - 2 * r - u - u)%Z.
Proof. forget_collaborators.
  intros (Hi & Hr & Hu)%elem_of_build_gindex.
  Z.div_mod_to_equations. lia.
Qed.

Lemma cindex_bounds i1 i2 r1 r2 u :
  (i1, i2, r1, r2, u) ∈ build_cindex →
  (0 ≤ i1 + i2 - 2 * (r1 + r2) - u ≤ 4 * LMAX ∧
   0 ≤ i1 + i2 - 2 * (r1 + r2) - u - u)%Z.
Proof. forget_collaborators.
  intros (Hi1 & Hi2 & Hr1 & Hr2 & Hu)%elem_of_build_cindex.
  Z.div_mod_to_equations. lia.
Qed.

Lemma g_index_in_range :
  Forall (λ id, 0 ≤ id < Z.of_nat (Z.to_nat (LMAX + 1)))%Z g_index.
Proof.
  unfold g_index, gindex. apply Forall_fmap, Forall_forall.
  intros [[i r] u] Hin. pose proof (gindex_bounds _ _ _ Hin). simpl. lia.
Qed.

Lemma c_index_in_range :
  Forall (λ id, 0 ≤ id < Z.of_nat (Z.to_nat (4 * LMAX + 1)))%Z c_index.
Proof.
  unfold c_index, cindex. apply Forall_fmap, Forall_forall.
  intros [[[[i1 i2] r1] r2] u] Hin.
  pose proof (cindex_bounds _ _ _ _ _ Hin). simpl. lia.
Qed.

(** C10: every row of [build_gindex] has [0 <= i - 2r - u <= LMAX] and
    every row of [build_cindex] has
    [0 <= i1 + i2 - 2(r1 + r2) - u <= 4 LMAX]; hence every segment id that
    [g_term] and [c_term] pass to [segment_sum] is a valid segment of the
    declared [LMAX + 1], respectively [4 LMAX + 1], segments, and no term
    is dropped: the segments add up to the sum of all the masked terms. *)
Theorem index_tables_within_segments :
  (∀ i r u, (i, r, u) ∈ build_gindex → (0 ≤ i - 2 * r - u ≤ LMAX)%Z) ∧
  (∀ i1 i2 r1 r2 u, (i1, i2, r1, r2, u) ∈ build_cindex →
     (0 ≤ i1 + i2 - 2 * (r1 + r2) - u ≤ 4 * LMAX)%Z) ∧
  Forall (λ id, 0 ≤ id < Z.of_nat (Z.to_nat (LMAX + 1)))%Z g_index ∧
  Forall (λ id, 0 ≤ id < Z.of_nat (Z.to_nat (4 * LMAX + 1)))%Z c_index ∧
  (∀ epsilon l1 l2 pa pb cp,
     Rsum (g_term epsilon l1 l2 pa pb cp)
     = Rsum (g_values epsilon l1 l2 pa pb cp)) ∧
  (∀ p_alpha q_alpha delta la lb lc ld pa pb qc qd qp,
     Rsum (c_term p_alpha q_alpha delta la lb lc ld pa pb qc qd qp)
     = Rsum (c_values p_alpha q_alpha delta la lb lc ld pa pb qc qd qp)).
Proof.
  split_and!.
  - intros i r u Hin. by apply gindex_bounds.
  - intros i1 i2 r1 r2 u Hin. by apply cindex_bounds.
  - apply g_index_in_range.
  - apply c_index_in_range.
  - intros. unfold g_term. apply segment_sum_total; [|apply g_index_in_range].
    unfold g_index, g_values. by rewrite !length_fmap.
  - intros. unfold c_term. apply segment_sum_total; [|apply c_index_in_range].
    unfold c_index, c_values. by rewrite !length_fmap.
Qed.

End IndexTables.

(** ** Sparse and batched electron-repulsion integrals *)

Section EriSparse.

Lemma enumerate_snoc {A} (l : list A) (x : A) :
  Py.enumerate (l ++ [x]) = Py.enumerate l ++ [(length l, x)].
Proof.
  unfold Py.enumerate. rewrite imap_app. simpl.
  by rewrite Nat.add_0_r.
Qed.

Lemma batch_ids_snoc offset quads q :
  batch_ids offset (quads ++ [q])
  = batch_ids offset quads
    ++ replicate (length (mesh_product offset q)) (Z.of_nat (length quads)).
Proof.
  unfold batch_ids. rewrite imap_app, join_app. simpl.
  by rewrite Nat.add_0_r, app_nil_r.
Qed.

Lemma batch_ids_length offset quads :
  length (batch_ids offset quads) = length (quads ≫= mesh_product offset).
Proof.
  induction quads as [|q quads IH] using rev_ind; [done|].
  rewrite batch_ids_snoc, bind_app, bind_singleton, !length_app, IH.
  by rewrite length_replicate.
Qed.

(** The loop computes the concatenated meshes and their segment ids. *)
Lemma expand_quads_spec offset quads :
  expand_quads offset quads
  = (quads ≫= mesh_product offset, batch_ids offset quads).
Proof.
  unfold expand_quads.
  induction quads as [|q quads IH] using rev_ind; [done|].
  rewrite enumerate_snoc, foldl_snoc, IH. simpl.
  rewrite bind_app, bind_singleton, batch_ids_snoc. f_equal. f_equal. f_equal.
  rewrite length_app, batch_ids_length. lia.
Qed.

Lemma batch_ids_bound offset quads :
  Forall (λ id, 0 ≤ id < Z.of_nat (length quads))%Z (batch_ids offset quads).
Proof.
  induction quads as [|q quads IH] using rev_ind; [constructor|].
  rewrite batch_ids_snoc, length_app. simpl. apply Forall_app. split.
  - eapply Forall_impl; [exact IH|]. simpl. intros; lia.
  - apply Forall_replicate. lia.
Qed.

Lemma Rsum_indicator_replicate (s c : nat) (m : nat) (xs : list R) :
  length xs = m →
  Rsum ((λ '(id, x), if decide (id = Z.of_nat s) then x else 0%R)
          <$> zip (replicate m (Z.of_nat c)) xs)
  = if decide (c = s) then Rsum xs else 0%R.
Proof.
  revert m. induction xs as [|x xs IH]; intros [|m] Hlen; simplify_eq/=.
  { by case_decide. }
  rewrite (IH _ eq_refl).
  destruct (decide (c = s)) as [->|Hne].
  - by rewrite decide_True by done.
  - rewrite decide_False by lia. lra.
Qed.

Lemma Rsum_indicator_out_of_range (s : nat) (ids : list Z) (xs : list R) :
  Forall (λ id, id ≠ Z.of_nat s) ids →
  Rsum ((λ '(id, x), if decide (id = Z.of_nat s) then x else 0%R) <$> zip ids xs)
  = 0%R.
Proof.
  intros Hids. revert xs.
  induction Hids as [|id ids Hid Hids IH]; intros [|x xs]; csimpl; try done.
  rewrite decide_False, IH by done. lra.
Qed.

(** One segment of the segment sum is the value of its orbital quadruple. *)
Lemma segment_of_quad b quads s q :
  quads !! s = Some q →
  Rsum ((λ '(id, x), if decide (id = Z.of_nat s) then x else 0%R)
          <$> zip (batch_ids (eri_offset b) quads)
                  (eri_entry b <$> (quads ≫= mesh_product (eri_offset b))))
  = quad_value b q.
Proof.
  revert s q. induction quads as [|q' quads IH] using rev_ind; intros s q Hs.
  { done. }
  rewrite batch_ids_snoc, bind_app, bind_singleton, fmap_app.
  rewrite zip_with_app
    by (by rewrite batch_ids_length, length_fmap).
  rewrite fmap_app, Rsum_app.
  rewrite Rsum_indicator_replicate by (by rewrite length_fmap).
  destruct (decide (s < length quads)) as [Hlt|Hge].
  - rewrite lookup_app_l in Hs by done.
    rewrite (IH _ _ Hs), decide_False by lia. lra.
  - rewrite lookup_app_r in Hs by lia.
    apply list_lookup_singleton_Some in Hs as [Hs ->].
    rewrite decide_True by lia.
    rewrite Rsum_indicator_out_of_range; [unfold quad_value; lra|].
    eapply Forall_impl; [apply batch_ids_bound|]. simpl. intros; lia.
Qed.

Lemma segment_sum_quads b quads :
  segment_sum (eri_entry b <$> (quads ≫= mesh_product (eri_offset b)))
              (batch_ids (eri_offset b) quads) (length quads)
  = quad_value b <$> quads.
Proof.
  apply list_eq. intros s. rewrite list_lookup_fmap.
  destruct (quads !! s) as [q|] eqn:Hs; simpl.
  - rewrite segment_sum_lookup by (by eapply lookup_lt_Some).
    f_equal. by apply segment_of_quad.
  - apply lookup_ge_None. rewrite segment_sum_length.
    by apply lookup_ge_None.
Qed.

(** What the shared body returns for a list of orbital quadruples. *)
Lemma contract_expand b quads :
  (let '(indices, batch) := expand_quads (eri_offset b) quads in
   contract_eris b indices batch (length quads))
  = if decide (quads ≫= mesh_product (eri_offset b) = []) then None
    else Some (quad_value b <$> quads).
Proof.
  rewrite expand_quads_spec. unfold contract_eris.
  pose proof (segment_sum_quads b quads) as Hseg.
  destruct (quads ≫= mesh_product (eri_offset b)) as [|t ts] eqn:Hidx.
  - by rewrite decide_True.
  - rewrite decide_False by done. by rewrite Hseg.
Qed.

(** *** Offsets and meshes *)

Lemma cumsum_from_lookup acc sizes x :
  x < length sizes →
  ∃ lo, (acc :: Py.cumsum_from acc sizes) !! x = Some lo ∧
        (acc :: Py.cumsum_from acc sizes) !! (x + 1) = Some (lo + sizes !!! x).
Proof.
  revert acc x. induction sizes as [|sz sizes IH]; intros acc x Hx; simpl in *.
  { lia. }
  destruct x as [|x]; simpl.
  - by exists acc.
  - destruct (IH (acc + sz) x) as (lo & H1 & H2); [lia|]. by exists lo.
Qed.

Lemma mesh_product_nonempty b q :
  orbitals_nonempty b → in_range (num_orbitals b) q →
  mesh_product (eri_offset b) q ≠ [].
Proof.
  intros Hne Hq. destruct q as [[[i j] k] l]. destruct Hq as (Hi & Hj & Hk & Hl).
  assert (∀ x, x < num_orbitals b →
    eri_offset b !!! x ∈
      Py.range2 (eri_offset b !!! x) (eri_offset b !!! (x + 1))) as Hmesh.
  { intros x Hx. unfold eri_offset, Py.cumsum, num_orbitals in *.
    destruct (cumsum_from_lookup 0 (orbital_num_primitives <$> orbitals b) x)
      as (lo & H1 & H2); [by rewrite length_fmap|].
    rewrite (list_lookup_total_correct _ _ _ H1),
            (list_lookup_total_correct _ _ _ H2).
    unfold Py.range2. apply elem_of_seq.
    destruct (lookup_lt_is_Some_2 (orbitals b) x Hx) as [o Ho].
    rewrite (list_lookup_total_correct _ x (orbital_num_primitives o))
      by (by rewrite list_lookup_fmap, Ho).
    eapply Forall_lookup_1 in Hne; [|exact Ho]. simpl in Hne. lia. }
  intros Hnil.
  assert ((eri_offset b !!! i, eri_offset b !!! j, eri_offset b !!! k,
           eri_offset b !!! l) ∈ mesh_product (eri_offset b) (i, j, k, l)) as Hin.
  { unfold mesh_product.
    apply list_elem_of_bind. eexists. split; [|by apply Hmesh].
    apply list_elem_of_bind. eexists. split; [|by apply Hmesh].
    apply list_elem_of_bind. eexists. split; [|by apply Hmesh].
    apply list_elem_of_bind. eexists. split; [|by apply Hmesh].
    by apply list_elem_of_singleton. }
  rewrite Hnil in Hin. by apply elem_of_nil in Hin.
Qed.

Lemma bind_mesh_nonempty b quads :
  orbitals_nonempty b → quads ≠ [] →
  Forall (in_range (num_orbitals b)) quads →
  quads ≫= mesh_product (eri_offset b) ≠ [].
Proof.
  intros Hne Hq Hr. destruct quads as [|q quads]; [done|].
  rewrite bind_cons. intros [Hnil _]%app_eq_nil.
  eapply mesh_product_nonempty; [done| |done].
  by eapply Forall_inv.
Qed.

(** *** Batches *)

Lemma mjoin_cons {A} (c : list A) (cs : list (list A)) :
  mjoin (c :: cs) = c ++ mjoin cs.
Proof. done. Qed.

Lemma join_fmap_fmap {A B} (f : A → B) (cs : list (list A)) :
  mjoin ((λ c : list A, f <$> c) <$> cs) = f <$> mjoin cs.
Proof.
  induction cs as [|c cs IH]; [done|].
  rewrite fmap_cons, !mjoin_cons, fmap_app, IH. done.
Qed.

Lemma batched_fuel_spec {A} (n : nat) (fuel : nat) (l : list A) :
  1 ≤ n → length l ≤ fuel →
  mjoin (Py.batched_fuel fuel l n) = l ∧
  Forall (λ c, c ≠ [] ∧ c ⊆ l) (Py.batched_fuel fuel l n) ∧
  (Py.batched_fuel fuel l n = [] ↔ l = []).
Proof.
  intros Hn. revert l. induction fuel as [|fuel IH]; intros l Hlen.
  { destruct l; simpl in *; [|lia]. by split_and!. }
  destruct l as [|x l]; [by split_and!|].
  change (Py.batched_fuel (S fuel) (x :: l) n)
    with (take n (x :: l) :: Py.batched_fuel fuel (drop n (x :: l)) n).
  destruct (IH (drop n (x :: l))) as (Hj & Hall & _).
  { rewrite length_drop. simpl in *. lia. }
  split_and!.
  - rewrite mjoin_cons, Hj. apply take_drop.
  - constructor.
    + split; [by destruct n; [lia|]|].
      apply subseteq_take.
    + eapply Forall_impl; [exact Hall|]. simpl. intros c [Hc Hsub].
      split; [done|]. intros y Hy%Hsub.
      rewrite <-(take_drop n (x :: l)). apply elem_of_app. by right.
  - done.
Qed.

Lemma batched_spec {A} (n : nat) (l : list A) :
  1 ≤ n →
  mjoin (Py.batched l n) = l ∧
  Forall (λ c, c ≠ [] ∧ c ⊆ l) (Py.batched l n) ∧
  (Py.batched l n = [] ↔ l = []).
Proof. intros Hn. by apply batched_fuel_spec. Qed.

Lemma gen_ijkl_in_range n : Forall (in_range n) (gen_ijkl n).
Proof.
  apply Forall_forall. intros q Hq%elem_of_gen_ijkl.
  by apply canonical_in_range.
Qed.

Lemma gen_ijkl_nil n : gen_ijkl n = [] ↔ n = 0.
Proof.
  split; [|by intros ->].
  intros Hnil. destruct n as [|n]; [done|].
  assert ((0, 0, 0, 0) ∈ gen_ijkl (S n)) as Hin.
  { apply elem_of_gen_ijkl. unfold canonical. case_decide; lia. }
  rewrite Hnil in Hin. by apply elem_of_nil in Hin.
Qed.

(** The closed forms of the two functions on a basis whose orbitals all
    have a primitive. *)
Lemma eri_basis_sparse_value b :
  orbitals_nonempty b →
  eri_basis_sparse b
  = if decide (num_orbitals b = 0) then None
    else Some (quad_value b <$> gen_ijkl (num_orbitals b)).
Proof.
  intros Hne. unfold eri_basis_sparse. rewrite contract_expand.
  destruct (decide (num_orbitals b = 0)) as [Hz|Hnz].
  - rewrite Hz. by rewrite decide_True.
  - rewrite decide_False; [done|].
    apply bind_mesh_nonempty; [done| |apply gen_ijkl_in_range].
    by rewrite gen_ijkl_nil.
Qed.

Lemma eri_basis_sparse_batched_value b batch_size :
  orbitals_nonempty b → 1 ≤ batch_size →
  eri_basis_sparse_batched b batch_size
  = if decide (num_orbitals b = 0) then None
    else Some (quad_value b <$> gen_ijkl (num_orbitals b)).
Proof.
  intros Hne Hbs. unfold eri_basis_sparse_batched.
  rewrite decide_False by lia.
  destruct (batched_spec batch_size (gen_ijkl (num_orbitals b)) Hbs)
    as (Hjoin & Hall & Hnil).
  rewrite (mapM_Some_2 _ _
    ((λ c : list quad, quad_value b <$> c)
       <$> Py.batched (gen_ijkl (num_orbitals b)) batch_size)).
  2:{ apply Forall2_fmap_r, Forall_Forall2_diag.
      eapply Forall_impl; [exact Hall|]. simpl. intros c [Hc Hsub].
      rewrite contract_expand, decide_False; [done|].
      apply bind_mesh_nonempty; [done..|].
      apply Forall_forall. intros q Hq%Hsub%elem_of_gen_ijkl.
      by apply canonical_in_range. }
  assert (mjoin ((λ c : list quad, quad_value b <$> c)
                   <$> Py.batched (gen_ijkl (num_orbitals b)) batch_size)
          = quad_value b <$> gen_ijkl (num_orbitals b)) as Hm.
  { by rewrite join_fmap_fmap, Hjoin. }
  destruct (Py.batched _ _) as [|c cs] eqn:Hb.
  - destruct Hnil as [Hnil _]. specialize (Hnil eq_refl).
    apply gen_ijkl_nil in Hnil. by rewrite decide_True.
  - rewrite decide_False.
    + simpl in Hm |- *. by rewrite Hm.
    + intros Hz. rewrite Hz in Hjoin.
      apply Forall_inv in Hall as [Hc _].
      rewrite mjoin_cons in Hjoin. by destruct c.
Qed.

(** A batch all of whose meshes are empty makes the batched function
    raise, and a non-empty concatenated mesh makes the sparse one return. *)
Lemma eri_basis_sparse_batched_empty_batch b batch_size ijkl_batch :
  1 ≤ batch_size →
  ijkl_batch ∈ Py.batched (gen_ijkl (num_orbitals b)) batch_size →
  ijkl_batch ≫= mesh_product (eri_offset b) = [] →
  eri_basis_sparse_batched b batch_size = None.
Proof.
  intros Hbs Hin Hnil. unfold eri_basis_sparse_batched.
  rewrite decide_False by lia.
  rewrite (mapM_None_2 _ (Py.batched _ _)); [done|].
  apply Exists_exists. exists ijkl_batch. split; [done|].
  rewrite contract_expand. by rewrite decide_True.
Qed.

Lemma eri_basis_sparse_returns b :
  gen_ijkl (num_orbitals b) ≫= mesh_product (eri_offset b) ≠ [] →
  eri_basis_sparse b = Some (quad_value b <$> gen_ijkl (num_orbitals b)).
Proof.
  intros Hne. unfold eri_basis_sparse. rewrite contract_expand.
  by rewrite decide_False.
Qed.

(** X24: on a basis whose orbitals all have at least one primitive,
    [eri_basis_sparse_batched] with any batch size of at least one returns
    exactly what [eri_basis_sparse] returns, and for a basis that has an
    orbital that is the vector of the values of the canonical orbital
    quadruples. *)
Theorem eri_basis_sparse_batched_agrees b batch_size :
  orbitals_nonempty b → 1 ≤ batch_size →
  eri_basis_sparse_batched b batch_size = eri_basis_sparse b ∧
  (0 < num_orbitals b →
   eri_basis_sparse b = Some (quad_value b <$> gen_ijkl (num_orbitals b))).
Proof.
  intros Hne Hbs. split.
  - by rewrite eri_basis_sparse_batched_value, eri_basis_sparse_value.
  - intros Hn. rewrite eri_basis_sparse_value by done.
    by rewrite decide_False by lia.
Qed.

End EriSparse.

(** ** Scattered writes *)

Lemma scatter_app {T K V} (set : T → K → V → T) t kvs1 kvs2 :
  scatter set t (kvs1 ++ kvs2) = scatter set (scatter set t kvs1) kvs2.
Proof. apply foldl_app. Qed.

Section Scatter.
Context {T K V : Type} `{EqDecision K}.
Context (get : T → K → option V) (set : T → K → V → T).
Hypothesis get_set_eq : ∀ t k v, get (set t k v) k = (λ _, v) <$> get t k.
Hypothesis get_set_ne : ∀ t k k' v, k ≠ k' → get (set t k v) k' = get t k'.

Lemma scatter_get_notin t kvs k :
  k ∉ kvs.*1 → get (scatter set t kvs) k = get t k.
Proof.
  revert t. induction kvs as [|[k0 v0] kvs IH]; intros t Hk; [done|].
  rewrite fmap_cons, not_elem_of_cons in Hk. destruct Hk as [Hne Hk].
  unfold scatter in *. simpl. rewrite IH by done. by apply get_set_ne.
Qed.

(** When all the writes to a position carry one value, the position holds
    that value afterwards, whatever the order of the writes. *)
Lemma scatter_get_in t kvs k v :
  (k, v) ∈ kvs → (∀ v', (k, v') ∈ kvs → v' = v) →
  get (scatter set t kvs) k = (λ _, v) <$> get t k.
Proof.
  revert t. induction kvs as [|[k0 v0] kvs IH]; intros t Hin Hfun.
  { by apply elem_of_nil in Hin. }
  change (scatter set t ((k0, v0) :: kvs)) with (scatter set (set t k0 v0) kvs).
  destruct (decide (k ∈ kvs.*1)) as [Hk|Hk].
  - apply list_elem_of_fmap in Hk as ([k' v'] & -> & Hk). simpl in *.
    assert (v' = v) as -> by (apply Hfun; by right).
    rewrite IH; [|done|intros v'' Hv''; apply Hfun; by right].
    destruct (decide (k0 = k')) as [->|Hne].
    + rewrite get_set_eq. by destruct (get t k').
    + by rewrite get_set_ne.
  - apply elem_of_cons in Hin as [Heq|Hin].
    + simplify_eq. rewrite scatter_get_notin by done. apply get_set_eq.
    + exfalso. apply Hk. apply list_elem_of_fmap. by exists (k, v).
Qed.

End Scatter.

Section TensorStore.

Lemma insert_lookup_same {A} (l : list A) (i : nat) (x : A) :
  <[i := x]> l !! i = (λ _, x) <$> l !! i.
Proof.
  destruct (decide (i < length l)) as [Hlt|Hge].
  - rewrite list_lookup_insert_eq by done.
    by destruct (lookup_lt_is_Some_2 l i Hlt) as [y ->].
  - rewrite list_insert_ge by lia. by rewrite (lookup_ge_None_2 l i) by lia.
Qed.

Lemma get4_set4_eq G q v : get4 (set4 G q v) q = (λ _, v) <$> get4 G q.
Proof.
  destruct q as [[[i j] k] l]. unfold get4, set4.
  rewrite list_lookup_alter_eq. destruct (G !! i) as [G1|]; [csimpl|done].
  rewrite list_lookup_alter_eq. destruct (G1 !! j) as [G2|]; [csimpl|done].
  rewrite list_lookup_alter_eq. destruct (G2 !! k) as [G3|]; [csimpl|done].
  apply insert_lookup_same.
Qed.

Lemma get4_set4_ne G q q' v : q ≠ q' → get4 (set4 G q v) q' = get4 G q'.
Proof.
  destruct q as [[[i j] k] l], q' as [[[i' j'] k'] l']. unfold get4, set4.
  intros Hne. rewrite list_lookup_alter.
  destruct (decide (i = i')) as [<-|]; [|done].
  destruct (G !! i) as [G1|]; [csimpl|done].
  rewrite list_lookup_alter.
  destruct (decide (j = j')) as [<-|]; [|done].
  destruct (G1 !! j) as [G2|]; [csimpl|done].
  rewrite list_lookup_alter.
  destruct (decide (k = k')) as [<-|]; [|done].
  destruct (G2 !! k) as [G3|]; [csimpl|done].
  apply list_lookup_insert_ne. congruence.
Qed.

Lemma get2_set2_eq A p v : get2 (set2 A p v) p = (λ _, v) <$> get2 A p.
Proof.
  destruct p as [i j]. unfold get2, set2. simpl.
  rewrite list_lookup_alter_eq. destruct (A !! i) as [row|]; [csimpl|done].
  apply insert_lookup_same.
Qed.

Lemma get2_set2_ne A p p' v : p ≠ p' → get2 (set2 A p v) p' = get2 A p'.
Proof.
  destruct p as [i j], p' as [i' j']. unfold get2, set2. simpl.
  intros Hne. rewrite list_lookup_alter.
  destruct (decide (i = i')) as [<-|]; [|done].
  destruct (A !! i) as [row|]; [csimpl|done].
  apply list_lookup_insert_ne. congruence.
Qed.

Lemma foldl_pointwise {A B} (f g : A → B → A) (a : A) (l : list B) :
  (∀ a b, f a b = g a b) → foldl f a l = foldl g a l.
Proof.
  intros Hfg. revert a. induction l as [|b l IH]; intros a; [done|].
  simpl. by rewrite Hfg, IH.
Qed.

Lemma at_set4_scatter G idx vals :
  at_set4 G idx vals = scatter set4 G (zip idx vals).
Proof.
  unfold at_set4, scatter. apply foldl_pointwise. by intros G' [[[[i j] k] l] v].
Qed.

Lemma at_set2_scatter A idx vals :
  at_set2 A idx vals = scatter set2 A (zip idx vals).
Proof.
  unfold at_set2, scatter. apply foldl_pointwise. by intros A' [[i j] v].
Qed.

Lemma get4_tget G q v : get4 G q = Some v → tget G q = v.
Proof.
  destruct q as [[[i j] k] l]. unfold get4, tget. intros H.
  destruct (G !! i) as [G1|] eqn:H1; [csimpl in H|done].
  destruct (G1 !! j) as [G2|] eqn:H2; [csimpl in H|done].
  destruct (G2 !! k) as [G3|] eqn:H3; [csimpl in H|done].
  rewrite (list_lookup_total_correct _ _ _ H1), (list_lookup_total_correct _ _ _ H2),
    (list_lookup_total_correct _ _ _ H3). by apply list_lookup_total_correct.
Qed.

Lemma get2_mget A i j v : get2 A (i, j) = Some v → mget A i j = v.
Proof.
  unfold get2, mget. simpl. intros H.
  destruct (A !! i) as [row|] eqn:H1; [csimpl in H|done].
  rewrite (list_lookup_total_correct _ _ _ H1).
  by apply list_lookup_total_correct.
Qed.

Lemma get4_empty4 n q : in_range n q → get4 (empty4 n) q = Some 0%R.
Proof.
  destruct q as [[[i j] k] l]. intros (Hi & Hj & Hk & Hl). unfold get4, empty4.
  rewrite lookup_replicate_2 by done. simpl.
  rewrite lookup_replicate_2 by done. simpl.
  rewrite lookup_replicate_2 by done. simpl.
  by rewrite lookup_replicate_2.
Qed.

Lemma get2_zeros2 r c i j : i < r → j < c → get2 (zeros2 r c) (i, j) = Some 0%R.
Proof.
  intros Hi Hj. unfold get2, zeros2. simpl.
  rewrite lookup_replicate_2 by done. simpl. by rewrite lookup_replicate_2.
Qed.

End TensorStore.

(** ** The dense electron-repulsion tensor *)

Section EriDense.

Lemma elem_of_eri_updates n vals p v :
  (p, v) ∈ eri_updates n vals ↔
  ∃ c q, gen_ijkl n !! c = Some q ∧ vals !! c = Some v ∧ p ∈ images8 q.
Proof.
  unfold eri_updates. rewrite list_elem_of_bind. split.
  - intros (perm & Hz & Hperm).
    apply elem_of_lookup_zip_with in Hz as (c & p' & v' & Heq & Hp & Hv).
    simplify_eq. rewrite list_lookup_fmap in Hp.
    destruct (gen_ijkl n !! c) as [q|] eqn:Hq; simplify_eq/=.
    exists c, q. split_and!; [done..|].
    rewrite images8_perms8. apply list_elem_of_fmap. by exists perm.
  - intros (c & q & Hq & Hv & Hp).
    rewrite images8_perms8 in Hp.
    apply list_elem_of_fmap in Hp as (perm & -> & Hperm).
    exists perm. split; [|done].
    apply elem_of_lookup_zip_with. exists c, (perm q), v.
    split_and!; [done| |done]. by rewrite list_lookup_fmap, Hq.
Qed.

Lemma canon_lookup n p :
  in_range n p → ∃ c, gen_ijkl n !! c = Some (canon p).
Proof.
  intros Hp. apply list_elem_of_lookup, elem_of_gen_ijkl.
  by apply canon_canonical.
Qed.

(** After the eight scatters a position holds the unique value of its
    canonical representative. *)
Lemma eri_dense_get n vals p c v :
  in_range n p → gen_ijkl n !! c = Some (canon p) → vals !! c = Some v →
  get4 (scatter set4 (empty4 n) (eri_updates n vals)) p = Some v.
Proof.
  intros Hp Hc Hv.
  rewrite (scatter_get_in get4 set4 get4_set4_eq get4_set4_ne _ _ p v).
  - by rewrite get4_empty4.
  - apply elem_of_eri_updates. exists c, (canon p).
    split_and!; [done..|]. apply canon_image.
  - intros v' (c' & q' & Hq' & Hv' & Hp')%elem_of_eri_updates.
    assert (canon p = q') as <-.
    { eapply canon_of_image; [|done].
      apply elem_of_gen_ijkl. by eapply list_elem_of_lookup_2. }
    assert (c' = c) as ->.
    { eapply NoDup_lookup; [apply NoDup_gen_ijkl|done..]. }
    congruence.
Qed.

Lemma canon_swap12 i j k l : canon (j, i, k, l) = canon (i, j, k, l).
Proof.
  unfold canon. repeat (case_decide; simpl); repeat case_decide;
    try lia; f_equal; try f_equal; try f_equal; lia.
Qed.

Lemma canon_swap34 i j k l : canon (i, j, l, k) = canon (i, j, k, l).
Proof.
  unfold canon. repeat (case_decide; simpl); repeat case_decide;
    try lia; f_equal; try f_equal; try f_equal; lia.
Qed.

Lemma canon_swap_pairs i j k l : canon (k, l, i, j) = canon (i, j, k, l).
Proof.
  unfold canon. repeat (case_decide; simpl); repeat case_decide;
    try lia; f_equal; try f_equal; try f_equal; lia.
Qed.

(** The eight scatter statements are one sequence of writes. *)
Lemma eri_basis_unfold b :
  ∃ batch_size, 1 ≤ batch_size ∧
    eri_basis b
    = unique_eris ← eri_basis_sparse_batched b batch_size;
      Some (scatter set4 (empty4 (num_orbitals b))
                    (eri_updates (num_orbitals b) unique_eris)).
Proof.
  exists (1024 * 1024). split; [lia|].
  unfold eri_basis. generalize (1024 * 1024). intros batch_size.
  destruct (eri_basis_sparse_batched b _) as [unique_eris|]; [|done].
  csimpl. f_equal. rewrite !at_set4_scatter.
  unfold eri_updates, perms8.
  rewrite !bind_cons, !scatter_app. done.
Qed.

(** Whatever the batch size, a returned vector holds the values of the
    canonical quadruples in the order of [gen_ijkl]. *)
Lemma eri_basis_sparse_batched_Some b batch_size v :
  eri_basis_sparse_batched b batch_size = Some v →
  v = quad_value b <$> gen_ijkl (num_orbitals b).
Proof.
  unfold eri_basis_sparse_batched. case_decide as Hbs; [done|].
  destruct (mapM _ _) as [rs|] eqn:Hmap; [csimpl|done].
  destruct (batched_spec batch_size (gen_ijkl (num_orbitals b))) as (Hjoin & _);
    [lia|].
  assert (rs = (λ c : list quad, quad_value b <$> c)
                 <$> Py.batched (gen_ijkl (num_orbitals b)) batch_size) as ->.
  { apply mapM_Some_1 in Hmap. revert Hmap.
    generalize (Py.batched (gen_ijkl (num_orbitals b)) batch_size) as cs.
    intros cs Hall. induction Hall as [|c r cs rs Hc Hall IH]; [done|].
    rewrite fmap_cons, <-IH. f_equal.
    rewrite contract_expand in Hc. case_decide; by simplify_eq. }
  rewrite join_fmap_fmap, Hjoin.
  destruct (_ <$> Py.batched _ _); [done|]. by intros [= <-].
Qed.

(** The entries of the dense tensor. *)
Lemma eri_basis_entry b G p :
  eri_basis b = Some G → in_range (num_orbitals b) p →
  tget G p = quad_value b (canon p).
Proof.
  destruct (eri_basis_unfold b) as (batch_size & Hbs & ->). intros HG Hp.
  destruct (eri_basis_sparse_batched b _) as [v|] eqn:Hv; simplify_eq/=.
  apply eri_basis_sparse_batched_Some in Hv as ->.
  destruct (canon_lookup _ p Hp) as [c Hc].
  apply get4_tget. eapply eri_dense_get; [done..|].
  by rewrite list_lookup_fmap, Hc.
Qed.

(** C3: whenever [eri_basis] returns a tensor [G], it obeys
    [G[i,j,k,l] == G[j,i,k,l] == G[i,j,l,k] == G[k,l,i,j]] at all valid
    indices; and it does return one for a basis with at least one orbital
    whose orbitals all have a primitive. *)
Theorem eri_basis_permutation_symmetry b :
  (∀ G, eri_basis b = Some G →
     ∀ i j k l,
       i < num_orbitals b → j < num_orbitals b →
       k < num_orbitals b → l < num_orbitals b →
       tget G (i, j, k, l) = tget G (j, i, k, l) ∧
       tget G (j, i, k, l) = tget G (i, j, l, k) ∧
       tget G (i, j, l, k) = tget G (k, l, i, j)) ∧
  (orbitals_nonempty b → 0 < num_orbitals b → is_Some (eri_basis b)).
Proof.
  split.
  - intros G HG i j k l Hi Hj Hk Hl.
    rewrite !(eri_basis_entry b G) by (done || (unfold in_range; lia)).
    by rewrite (canon_swap12 i j k l), (canon_swap34 i j k l),
      (canon_swap_pairs i j k l).
  - intros Hne Hn. destruct (eri_basis_unfold b) as (batch_size & Hbs & ->).
    rewrite eri_basis_sparse_batched_value by (done || lia).
    rewrite decide_False by lia. by eexists.
Qed.

End EriDense.

(** ** Matrices *)

Section MatrixLemmas.
Local Open Scope R_scope.

Lemma shape2_lookup r c A i :
  shape2 r c A → (i < r)%nat →
  ∃ row, A !! i = Some row ∧ length row = c.
Proof.
  intros [Hr Hc] Hi. destruct (lookup_lt_is_Some_2 A i) as [row Hrow]; [lia|].
  exists row. split; [done|]. by eapply Forall_lookup_1 in Hc.
Qed.

Lemma mget_row A i j row : A !! i = Some row → mget A i j = row !!! j.
Proof. intros H. unfold mget. by rewrite (list_lookup_total_correct _ _ _ H). Qed.

Lemma shape2_zeros2 r c : shape2 r c (zeros2 r c).
Proof.
  split; [apply length_replicate|].
  apply Forall_replicate, length_replicate.
Qed.

Lemma mget_zeros2 r c i j : (i < r)%nat → (j < c)%nat → mget (zeros2 r c) i j = 0.
Proof. intros Hi Hj. apply get2_mget. by apply get2_zeros2. Qed.

Lemma shape2_set2 r c A p v : shape2 r c A → shape2 r c (set2 A p v).
Proof.
  intros [Hr Hc]. unfold set2. split; [by rewrite length_alter|].
  apply Forall_alter; [done|]. intros row _ Hrow. by rewrite length_insert.
Qed.

Lemma shape2_scatter r c A kvs : shape2 r c A → shape2 r c (scatter set2 A kvs).
Proof.
  revert A. induction kvs as [|[p v] kvs IH]; intros A HA; [done|].
  apply IH. by apply shape2_set2.
Qed.

Lemma shape2_zip_with (f : R → R → R) r c A B :
  shape2 r c A → shape2 r c B → shape2 r c (zip_with (zip_with f) A B).
Proof.
  intros [HAr HAc] [HBr HBc]. split.
  - rewrite length_zip_with. lia.
  - apply Forall_forall. intros row Hrow.
    apply elem_of_lookup_zip_with in Hrow as (i & ra & rb & -> & Ha & Hb).
    eapply Forall_lookup_1 in HAc; [|done].
    eapply Forall_lookup_1 in HBc; [|done].
    rewrite length_zip_with. lia.
Qed.

Lemma mget_zip_with (f : R → R → R) r c A B i j :
  shape2 r c A → shape2 r c B → (i < r)%nat → (j < c)%nat →
  mget (zip_with (zip_with f) A B) i j = f (mget A i j) (mget B i j).
Proof.
  intros HA HB Hi Hj.
  destruct (shape2_lookup r c A i HA Hi) as (ra & Hra & Hla).
  destruct (shape2_lookup r c B i HB Hi) as (rb & Hrb & Hlb).
  rewrite (mget_row _ _ _ _ Hra), (mget_row _ _ _ _ Hrb).
  rewrite (mget_row _ _ _ (zip_with f ra rb)).
  2:{ rewrite lookup_zip_with, Hra. csimpl. by rewrite Hrb. }
  apply list_lookup_total_correct. rewrite lookup_zip_with.
  rewrite (list_lookup_lookup_total_lt ra j) by lia. csimpl.
  by rewrite (list_lookup_lookup_total_lt rb j) by lia.
Qed.

Lemma shape2_transpose r c A : shape2 c r (transpose r c A).
Proof.
  unfold transpose. split; [by rewrite length_fmap, length_seq|].
  apply Forall_fmap, Forall_forall. intros j _. simpl.
  by rewrite length_fmap, length_seq.
Qed.

Lemma mget_transpose r c A i j :
  (i < r)%nat → (j < c)%nat → mget (transpose r c A) j i = mget A i j.
Proof.
  intros Hi Hj. unfold transpose.
  rewrite (mget_row _ _ _ ((λ i, mget A i j) <$> seq 0 r)).
  2:{ by rewrite list_lookup_fmap, lookup_seq_lt. }
  apply list_lookup_total_correct.
  by rewrite list_lookup_fmap, lookup_seq_lt.
Qed.

Lemma length_diag A : length (diag A) = length A.
Proof. apply length_imap. Qed.

Lemma diag_lookup_total A i : (i < length A)%nat → diag A !!! i = mget A i i.
Proof.
  intros Hi. destruct (lookup_lt_is_Some_2 A i Hi) as [row Hrow].
  apply list_lookup_total_correct. unfold diag.
  rewrite list_lookup_imap, Hrow. simpl. by rewrite (mget_row _ _ _ _ Hrow).
Qed.

Lemma shape2_diag_matrix d : shape2 (length d) (length d) (diag_matrix d).
Proof.
  unfold diag_matrix. split; [apply length_imap|].
  apply Forall_forall. intros row Hrow.
  apply list_elem_of_lookup in Hrow as [i Hrow].
  rewrite list_lookup_imap in Hrow.
  destruct (d !! i) as [x|]; simplify_eq/=.
  by rewrite length_insert, length_replicate.
Qed.

Lemma mget_diag_matrix d i j :
  (i < length d)%nat → (j < length d)%nat →
  mget (diag_matrix d) i j = if decide (i = j) then d !!! i else 0.
Proof.
  intros Hi Hj. destruct (lookup_lt_is_Some_2 d i Hi) as [x Hx].
  rewrite (mget_row _ _ _ (<[i := x]> (replicate (length d) 0))).
  2:{ unfold diag_matrix. by rewrite list_lookup_imap, Hx. }
  apply list_lookup_total_correct.
  destruct (decide (i = j)) as [<-|Hne].
  - rewrite list_lookup_insert_eq by (by rewrite length_replicate).
    by rewrite (list_lookup_total_correct _ _ _ Hx).
  - rewrite list_lookup_insert_ne by done. by apply lookup_replicate_2.
Qed.

(** *** Segment sums of rows *)

Lemma segment_fold_rows_length c s acc (kvs : list (Z * list R)) :
  length acc = c → Forall (λ kv, length kv.2 = c) kvs →
  length (segment_fold (zip_with Rplus) s acc kvs) = c.
Proof.
  intros Hacc Hkvs. revert acc Hacc.
  induction Hkvs as [|[id row] kvs Hrow Hkvs IH]; intros acc Hacc; [done|].
  simpl in *. apply IH. case_decide; [|done].
  rewrite length_zip_with. lia.
Qed.

Lemma segment_fold_rows_lookup c s acc (kvs : list (Z * list R)) j :
  length acc = c → Forall (λ kv, length kv.2 = c) kvs → (j < c)%nat →
  segment_fold (zip_with Rplus) s acc kvs !!! j
  = acc !!! j
    + Rsum ((λ kv, if decide (kv.1 = Z.of_nat s) then kv.2 !!! j else 0) <$> kvs).
Proof.
  intros Hacc Hkvs Hj. revert acc Hacc.
  induction Hkvs as [|[id row] kvs Hrow Hkvs IH]; intros acc Hacc; csimpl.
  { lra. }
  simpl in Hrow. unfold segment_fold in *. simpl.
  destruct (decide (id = Z.of_nat s)) as [->|Hne].
  - rewrite IH by (rewrite length_zip_with; lia).
    rewrite (list_lookup_total_correct (zip_with Rplus acc row) j
               (acc !!! j + row !!! j)); [lra|].
    rewrite lookup_zip_with.
    rewrite (list_lookup_lookup_total_lt acc j) by lia. csimpl.
    by rewrite (list_lookup_lookup_total_lt row j) by lia.
  - rewrite IH by done. lra.
Qed.

Lemma shape2_segment_sum_rows c A ids n :
  Forall (λ row, length row = c) A →
  shape2 n c (segment_sum_rows c A ids n).
Proof.
  intros HA. unfold segment_sum_rows. split; [apply segment_sum_gen_length|].
  apply Forall_forall. intros row Hrow.
  apply list_elem_of_lookup in Hrow as [s Hrow].
  assert (s < n)%nat as Hs.
  { apply lookup_lt_Some in Hrow. by rewrite segment_sum_gen_length in Hrow. }
  rewrite segment_sum_gen_lookup in Hrow by done. simplify_eq.
  apply segment_fold_rows_length; [apply length_replicate|].
  apply Forall_forall. intros [id row] Hin. simpl.
  apply elem_of_zip_r in Hin. by eapply Forall_forall in HA.
Qed.

Lemma mget_segment_sum_rows r c A ids n s j :
  shape2 r c A → length ids = r → (s < n)%nat → (j < c)%nat →
  mget (segment_sum_rows c A ids n) s j
  = Rsum ((λ p, if decide (ids !!! p = Z.of_nat s) then mget A p j else 0)
            <$> seq 0 r).
Proof.
  intros [HAr HAc] Hids Hs Hj. unfold segment_sum_rows.
  rewrite (mget_row _ _ _ _ (segment_sum_gen_lookup _ _ _ _ _ _ Hs)).
  rewrite (segment_fold_rows_lookup c); [|apply length_replicate| |done].
  2:{ apply Forall_forall. intros [id row] Hin. simpl.
      apply elem_of_zip_r in Hin. by eapply Forall_forall in HAc. }
  rewrite (list_lookup_total_correct _ _ 0) by (by apply lookup_replicate_2).
  rewrite Rplus_0_l, (Rsum_positions _ (zip ids A)).
  rewrite length_zip_with, Hids, HAr, Nat.min_id.
  apply Rsum_ext. intros p Hp%elem_of_seq.
  rewrite (list_lookup_total_correct (zip ids A) p (ids !!! p, A !!! p)).
  - done.
  - apply lookup_zip_Some. split; apply list_lookup_lookup_total_lt; lia.
Qed.

End MatrixLemmas.

(** ** Dense aggregation: [integrate_dense] *)

Section IntegrateDense.
Local Open Scope R_scope.

Lemma elem_of_triu_indices n i j :
  (i, j) ∈ triu_indices n ↔ (i ≤ j < n)%nat.
Proof.
  unfold triu_indices. rewrite list_elem_of_bind. split.
  - intros (i' & Hin & Hi%elem_of_seq).
    apply list_elem_of_bind in Hin as (j' & Hin & Hj%elem_of_seq).
    apply list_elem_of_singleton in Hin. simplify_eq. lia.
  - intros Hij. exists i. split; [|apply elem_of_seq; lia].
    apply list_elem_of_bind. exists j. split; [|apply elem_of_seq; lia].
    by apply list_elem_of_singleton.
Qed.

Lemma length_join_replicate {A B} (size : A → nat) (g : nat → B) (l : list A) :
  length (mjoin (imap (λ o x, replicate (size x) (g o)) l))
  = sum_list (size <$> l).
Proof.
  revert g. induction l as [|x l IH]; intros g; [done|].
  rewrite imap_cons, mjoin_cons, length_app, length_replicate.
  rewrite (imap_ext _ (λ o x, replicate (size x) ((g ∘ S) o))) by done.
  rewrite (IH (g ∘ S)). done.
Qed.

Lemma orbital_index_length b : length (orbital_index b) = num_primitives b.
Proof. apply (length_join_replicate orbital_num_primitives Z.of_nat). Qed.

(** The scattered values are a function of their positions. *)
Lemma basis_iter_values b op :
  let '((ii, cl, lhs), (jj, cr, rhs)) := basis_iter b in
  zip ii jj = triu_indices (num_primitives b) ∧
  zip_with Rmult (zip_with Rmult cl cr) (zip_with op lhs rhs)
  = (λ pq, pair_weight b op pq.1 pq.2) <$> triu_indices (num_primitives b).
Proof.
  unfold basis_iter. cbv zeta. split; [apply zip_fst_snd|].
  apply list_eq. intros n.
  rewrite !lookup_zip_with, !list_lookup_fmap.
  by destruct (triu_indices (num_primitives b) !! n) as [[i j]|].
Qed.

Lemma integrate_dense_unfold b op :
  integrate_dense b op
  = let P := num_primitives b in
    let A := scatter set2 (zeros2 P P)
               (zip (triu_indices P)
                    ((λ pq, pair_weight b op pq.1 pq.2) <$> triu_indices P)) in
    let A := msub (madd A (transpose P P A)) (diag_matrix (diag A)) in
    let out := segment_sum_rows P A (orbital_index b) (num_orbitals b) in
    segment_sum_rows (num_orbitals b)
      (transpose (num_orbitals b) P out) (orbital_index b) (num_orbitals b).
Proof.
  unfold integrate_dense. pose proof (basis_iter_values b op) as Hv.
  destruct (basis_iter b) as [[[ii cl] lhs] [[jj cr] rhs]].
  destruct Hv as [Hz Hv]. cbv zeta. by rewrite at_set2_scatter, Hz, Hv.
Qed.

(** The scattered matrix: the weighted kernel on and above the diagonal,
    zero below. *)
Lemma scattered_entry b op p q :
  (p < num_primitives b)%nat → (q < num_primitives b)%nat →
  mget (scatter set2 (zeros2 (num_primitives b) (num_primitives b))
          (zip (triu_indices (num_primitives b))
               ((λ pq, pair_weight b op pq.1 pq.2)
                  <$> triu_indices (num_primitives b)))) p q
  = if decide (p ≤ q)%nat then pair_weight b op p q else 0.
Proof.
  intros Hp Hq. apply get2_mget.
  set (P := num_primitives b) in *.
  set (W := λ pq : nat * nat, pair_weight b op pq.1 pq.2).
  assert (∀ k v, (k, v) ∈ zip (triu_indices P) (W <$> triu_indices P)
                 ↔ k ∈ triu_indices P ∧ v = W k) as Hkv.
  { intros k v. rewrite elem_of_lookup_zip_with. split.
    - intros (n & k' & v' & Heq & Hk & Hv). simplify_eq.
      rewrite list_lookup_fmap, Hk in Hv. simplify_eq/=.
      split; [|done]. by eapply list_elem_of_lookup_2.
    - intros [[n Hn]%list_elem_of_lookup ->]. exists n, k, (W k).
      split_and!; [done..|]. by rewrite list_lookup_fmap, Hn. }
  destruct (decide (p ≤ q)%nat) as [Hle|Hgt].
  - rewrite (scatter_get_in get2 set2 get2_set2_eq get2_set2_ne _ _ _ (W (p, q))).
    + by rewrite get2_zeros2.
    + apply Hkv. split; [|done]. apply elem_of_triu_indices. lia.
    + intros v' [_ ->]%Hkv. done.
  - rewrite (scatter_get_notin get2 set2 get2_set2_eq get2_set2_ne).
    + by rewrite get2_zeros2.
    + intros ([k v] & Heq & [Hk _]%Hkv)%list_elem_of_fmap.
      simpl in Heq. subst k. apply elem_of_triu_indices in Hk. lia.
Qed.

(** The completed matrix [A + A.T - diag(diag(A))]: every unordered pair
    once, the diagonal once. *)
Lemma completed_entry b op A p q :
  let P := num_primitives b in
  shape2 P P A →
  (∀ p q, (p < P)%nat → (q < P)%nat →
     mget A p q = if decide (p ≤ q)%nat then pair_weight b op p q else 0) →
  (p < P)%nat → (q < P)%nat →
  mget (msub (madd A (transpose P P A)) (diag_matrix (diag A))) p q
  = sym_weight b op p q.
Proof.
  intros P HA Hent Hp Hq. unfold msub, madd.
  assert (length (diag A) = P) as Hd by (rewrite length_diag; apply HA).
  assert (shape2 P P (transpose P P A)) as HT by apply shape2_transpose.
  assert (shape2 P P (diag_matrix (diag A))) as HD.
  { rewrite <-Hd at 1 2. apply shape2_diag_matrix. }
  rewrite (mget_zip_with Rminus P P) by (done || by apply shape2_zip_with).
  rewrite (mget_zip_with Rplus P P) by done.
  rewrite mget_transpose, mget_diag_matrix, diag_lookup_total, !Hent
    by (done || lia || (destruct HA; lia)).
  unfold sym_weight.
  repeat case_decide; try lia; subst;
    rewrite ?Nat.min_l, ?Nat.max_r, ?Nat.min_r, ?Nat.max_l by lia;
    rewrite ?Nat.min_id, ?Nat.max_id; lra.
Qed.

Lemma sym_weight_comm b op p q : sym_weight b op p q = sym_weight b op q p.
Proof. unfold sym_weight. by rewrite Nat.min_comm, Nat.max_comm. Qed.

(** The shape and the entries of the result. *)
Lemma integrate_dense_entry b op s t :
  (s < num_orbitals b)%nat → (t < num_orbitals b)%nat →
  mget (integrate_dense b op) s t = dense_entry b op s t.
Proof.
  intros Hs Ht. rewrite integrate_dense_unfold. cbv zeta.
  set (P := num_primitives b). set (O := num_orbitals b).
  set (A1 := scatter set2 _ _).
  set (A2 := msub _ _).
  assert (shape2 P P A1) as HA1 by apply shape2_scatter, shape2_zeros2.
  assert (shape2 P P A2) as HA2.
  { apply shape2_zip_with; [apply shape2_zip_with; [done|apply shape2_transpose]|].
    replace P with (length (diag A1)) at 1 2; [apply shape2_diag_matrix|].
    rewrite length_diag. apply HA1. }
  assert (∀ p q, (p < P)%nat → (q < P)%nat → mget A2 p q = sym_weight b op p q)
    as HA2e.
  { intros p q Hp Hq. apply completed_entry; [done| |done..].
    intros. by apply scattered_entry. }
  pose proof (orbital_index_length b) as Hidx.
  rewrite (mget_segment_sum_rows P O); [|apply shape2_transpose|done..].
  unfold dense_entry, orbital_primitives. fold P.
  rewrite <-Rsum_filter. apply Rsum_ext. intros q Hq%elem_of_seq.
  case_decide; [|done].
  rewrite mget_transpose by (done || lia).
  rewrite (mget_segment_sum_rows P P); [|done..|lia].
  rewrite <-Rsum_filter. apply Rsum_ext. intros p Hp%elem_of_seq.
  case_decide; [|done].
  rewrite HA2e by lia. apply sym_weight_comm.
Qed.

Lemma integrate_dense_shape b op :
  shape2 (num_orbitals b) (num_orbitals b) (integrate_dense b op).
Proof.
  rewrite integrate_dense_unfold. cbv zeta.
  apply shape2_segment_sum_rows. apply shape2_transpose.
Qed.

Lemma dense_entry_comm b op s t : dense_entry b op s t = dense_entry b op t s.
Proof.
  unfold dense_entry. rewrite Rsum_swap. apply Rsum_ext. intros q _.
  apply Rsum_ext. intros p _. apply sym_weight_comm.
Qed.

Lemma integrate_dense_symmetric b op :
  symmetric (num_orbitals b) (integrate_dense b op).
Proof.
  split; [apply integrate_dense_shape|].
  intros i j Hi Hj. rewrite !integrate_dense_entry by done.
  apply dense_entry_comm.
Qed.

End IntegrateDense.

(** ** The primitive kernels *)

Section Kernels.
Local Open Scope R_scope.

Lemma elem_of_overlap_idx s t :
  (s, t) ∈ overlap_idx ↔ (0 ≤ s < LMAX + 1 ∧ 0 ≤ t < 2 * s + 1)%Z.
Proof.
  unfold overlap_idx. rewrite list_elem_of_bind. split.
  - intros (s' & Hin & Hs%elem_of_range).
    apply list_elem_of_bind in Hin as (t' & Hin & Ht%elem_of_range).
    apply list_elem_of_singleton in Hin. by simplify_eq.
  - intros [Hs Ht]. exists s. split; [|by apply elem_of_range].
    apply list_elem_of_bind. exists t. split; [|by apply elem_of_range].
    by apply list_elem_of_singleton.
Qed.

Lemma overlap_mask_spec i j s t :
  overlap_mask i j (s, t) = true ↔ (2 * s - t ≤ i ∧ t ≤ j)%Z.
Proof.
  unfold overlap_mask. rewrite andb_true_iff, !bool_decide_eq_true. lia.
Qed.

Lemma overlap_contribution_masked p_alpha i j a b s t :
  ¬ (2 * s - t ≤ i ∧ t ≤ j)%Z →
  overlap_contribution p_alpha i j a b (s, t) = 0.
Proof.
  intros Hm. unfold overlap_contribution.
  destruct (overlap_mask i j (s, t)) eqn:Hmask; [|done].
  by apply overlap_mask_spec in Hmask.
Qed.

Lemma overlap_contribution_unmasked p_alpha i j a b s t :
  (2 * s - t ≤ i)%Z → (t ≤ j)%Z →
  overlap_contribution p_alpha i j a b (s, t)
  = overlap_term p_alpha i j a b (s, t).
Proof.
  intros H1 H2. unfold overlap_contribution.
  by rewrite (proj2 (overlap_mask_spec i j s t)).
Qed.

(** The axis sum is the sum of the unmasked terms over the index pairs that
    satisfy the mask. *)
Lemma overlap_axis_filtered p_alpha i j a b :
  overlap_axis p_alpha i j a b
  = Rsum (overlap_term p_alpha i j a b
            <$> filter (λ st, overlap_mask i j st = true) overlap_idx).
Proof.
  unfold overlap_axis. rewrite <-Rsum_filter. apply Rsum_ext.
  intros st _. unfold overlap_contribution.
  destruct (overlap_mask i j st); by case_decide.
Qed.

(** With a negative angular momentum on the right no pair passes the
    mask. *)
Lemma overlap_axis_negative p_alpha i j a b :
  (j < 0)%Z → overlap_axis p_alpha i j a b = 0.
Proof.
  intros Hj. unfold overlap_axis.
  erewrite Rsum_ext; [apply Rsum_zero|].
  intros [s t] [Hs Ht]%elem_of_overlap_idx. simpl.
  apply overlap_contribution_masked. lia.
Qed.

(** C7: in [overlap_axis] a pair [(s, t)] violating
    [2s - t <= i /\ t <= j] contributes exactly zero, a pair satisfying it
    contributes its term, so the axis sum is the sum of the terms of the
    pairs that satisfy the mask; for angular momenta within [LMAX] every
    pair of the expansion that satisfies the mask is in the table; and the
    kernel is [(pi / alpha)^1.5] times the product prefactor times the
    product of the three axis sums. *)
Theorem overlap_masked_terms_vanish :
  (∀ p_alpha i j a b s t,
     ¬ (2 * s - t ≤ i ∧ t ≤ j)%Z →
     overlap_contribution p_alpha i j a b (s, t) = 0) ∧
  (∀ p_alpha i j a b s t,
     (2 * s - t ≤ i)%Z → (t ≤ j)%Z →
     overlap_contribution p_alpha i j a b (s, t)
     = overlap_term p_alpha i j a b (s, t)) ∧
  (∀ p_alpha i j a b,
     overlap_axis p_alpha i j a b
     = Rsum (overlap_term p_alpha i j a b
               <$> filter (λ st, (2 * st.1 - st.2 ≤ i ∧ st.2 ≤ j)%Z) overlap_idx)) ∧
  (∀ i j s t,
     (i ≤ LMAX)%Z → (j ≤ LMAX)%Z → (0 ≤ s)%Z → (0 ≤ t ≤ 2 * s)%Z →
     (2 * s - t ≤ i)%Z → (t ≤ j)%Z → (s, t) ∈ overlap_idx) ∧
  (∀ a b,
     let p := product a b in
     let pa := sub3 (center p) (center a) in
     let pb := sub3 (center p) (center b) in
     let axis_sum ax :=
       overlap_axis (alpha p) (axis_get (lmn a) ax) (axis_get (lmn b) ax)
                    (axis_get pa ax) (axis_get pb ax) in
     _overlap_primitives a b
     = Rpower (PI / alpha p) (3 / 2) * norm p
       * (axis_sum AxX * axis_sum AxY * axis_sum AxZ)).
Proof.
  split_and!.
  - intros. by apply overlap_contribution_masked.
  - intros. by apply overlap_contribution_unmasked.
  - intros. rewrite overlap_axis_filtered. f_equal. f_equal.
    apply list_filter_iff. intros [s t]. apply overlap_mask_spec.
  - intros i j s t Hi Hj Hs Ht H1 H2. apply elem_of_overlap_idx. lia.
  - intros a b. reflexivity.
Qed.

(** *** Kinetic *)



(** *** The [H] coefficient of the electron-repulsion kernel *)

Lemma powerRZ_nonneg_pow x n : (0 ≤ n)%Z → powerRZ x n = x ^ Z.to_nat n.
Proof. intros Hn. destruct n as [|n|n]; [done|done|lia]. Qed.

Lemma powerRZ_opp_inv x n : powerRZ x (- n) = / powerRZ x n.
Proof.
  destruct n as [|n|n]; simpl.
  - by rewrite Rinv_1.
  - done.
  - by rewrite Rinv_inv.
Qed.

Lemma H_forms l1 l2 a b i r gamma :
  (0 ≤ r)%Z → (2 * r ≤ i)%Z →
  H l1 l2 a b i r gamma
  = factorial i * take_z (binom_factor l1 l2 a b (Some (2 * LMAX)%Z)) i
    / (factorial r * factorial (i - 2 * r) * (4 * gamma) ^ Z.to_nat (i - r))
  ∧ H l1 l2 a b i r gamma
  = factorial i * take_z (binom_factor l1 l2 a b (Some (2 * LMAX)%Z)) i
    * powerRZ (4 * gamma) (r - i)
    / (factorial r * factorial (i - 2 * r)).
Proof.
  intros Hr Hi. unfold H. split.
  - by rewrite powerRZ_nonneg_pow by lia.
  - replace (r - i)%Z with (- (i - r))%Z by lia.
    rewrite powerRZ_opp_inv. unfold Rdiv. rewrite !Rinv_mult. ring.
Qed.

(** C4: for every row of [cindex], the coefficient [H] at [(i1, r1)] and at
    [(i2, r2)] is [factorial(i) * binom_factor(l1, l2, a, b, 2 LMAX)[i]]
    divided by [factorial(r) * factorial(i - 2r) * (4 gamma)^(i - r)],
    with a natural-number exponent [i - r] and the index [i] within the
    [2 LMAX + 1] entries of the coefficient vector; equivalently the
    numerator is multiplied by [(4 gamma)^(r - i)]. *)
Theorem H_scaling l1 l2 a b gamma i1 i2 r1 r2 u :
  (i1, i2, r1, r2, u) ∈ cindex →
  ∀ i r, (i, r) = (i1, r1) ∨ (i, r) = (i2, r2) →
    (0 ≤ r ∧ 0 ≤ i - 2 * r ∧ 0 ≤ i - r ∧ 0 ≤ i ≤ 2 * LMAX)%Z ∧
    H l1 l2 a b i r gamma
    = factorial i * take_z (binom_factor l1 l2 a b (Some (2 * LMAX)%Z)) i
      / (factorial r * factorial (i - 2 * r) * (4 * gamma) ^ Z.to_nat (i - r)) ∧
    H l1 l2 a b i r gamma
    = factorial i * take_z (binom_factor l1 l2 a b (Some (2 * LMAX)%Z)) i
      * powerRZ (4 * gamma) (r - i)
      / (factorial r * factorial (i - 2 * r)).
Proof. forget_collaborators.
  intros (Hi1 & Hi2 & Hr1 & Hr2 & Hu)%elem_of_build_cindex i r Hir.
  assert (0 ≤ r ∧ 0 ≤ i - 2 * r ∧ 0 ≤ i - r ∧ 0 ≤ i ≤ 2 * LMAX)%Z as Hb.
  { destruct Hir as [[= -> ->]|[= -> ->]]; Z.div_mod_to_equations; lia. }
  split; [done|]. apply H_forms; lia.
Qed.

End Kernels.

(** ** The one-electron matrices *)

Section BasisMatrices.
Local Open Scope R_scope.

(** C6: [integrate_dense] scatters the coefficient-weighted kernel values
    of the pairs of [basis_iter], which are the pairs [p <= q] of primitive
    positions, each once, into a [num_primitives]-square matrix [A] that is
    zero below the diagonal; [A + A.T - diag(diag(A))] then holds every
    unordered pair once and the diagonal once; and the result is the
    [num_orbitals]-square matrix whose entry [(s, t)] is the double sum of
    that matrix over the primitives owned by orbital [s] and by orbital
    [t]. *)
Theorem integrate_dense_closed_form (b : Basis) (op : BinaryPrimitiveOp) :
  NoDup (zip (basis_iter b).1.1.1 (basis_iter b).2.1.1) ∧
  (∀ p q, (p, q) ∈ zip (basis_iter b).1.1.1 (basis_iter b).2.1.1
          ↔ (p ≤ q < num_primitives b)%nat) ∧
  (let '((ii, cl, lhs), (jj, cr, rhs)) := basis_iter b in
   let aij := zip_with Rmult (zip_with Rmult cl cr) (zip_with op lhs rhs) in
   let A := at_set2 (zeros2 (num_primitives b) (num_primitives b)) (zip ii jj) aij in
   shape2 (num_primitives b) (num_primitives b) A ∧
   (∀ p q, (p < num_primitives b)%nat → (q < num_primitives b)%nat →
      mget A p q = if decide (p ≤ q)%nat then pair_weight b op p q else 0) ∧
   (∀ p q, (p < num_primitives b)%nat → (q < num_primitives b)%nat →
      mget (msub (madd A (transpose (num_primitives b) (num_primitives b) A))
                 (diag_matrix (diag A))) p q
      = sym_weight b op p q)) ∧
  shape2 (num_orbitals b) (num_orbitals b) (integrate_dense b op) ∧
  (∀ s t, (s < num_orbitals b)%nat → (t < num_orbitals b)%nat →
     mget (integrate_dense b op) s t = dense_entry b op s t).
Proof.
  pose proof (basis_iter_values b op) as Hv.
  assert (zip (basis_iter b).1.1.1 (basis_iter b).2.1.1
          = triu_indices (num_primitives b)) as Hz by apply zip_fst_snd.
  split_and!.
  - rewrite Hz. unfold triu_indices.
    apply NoDup_bind; [| |apply NoDup_seq].
    + intros i1 i2 [p q] _ _ H1 H2.
      apply list_elem_of_bind in H1 as (? & H1%list_elem_of_singleton & _).
      apply list_elem_of_bind in H2 as (? & H2%list_elem_of_singleton & _).
      by simplify_eq.
    + intros i _. apply NoDup_bind; [| |apply NoDup_seq].
      * intros j1 j2 [p q] _ _ H1%list_elem_of_singleton H2%list_elem_of_singleton.
        by simplify_eq.
      * intros j _. apply NoDup_singleton.
  - intros p q. rewrite Hz. apply elem_of_triu_indices.
  - destruct (basis_iter b) as [[[ii cl] lhs] [[jj cr] rhs]].
    destruct Hv as [Hz' Hv]. cbv zeta. rewrite at_set2_scatter, Hz', Hv.
    assert (shape2 (num_primitives b) (num_primitives b)
              (scatter set2 (zeros2 (num_primitives b) (num_primitives b))
                 (zip (triu_indices (num_primitives b))
                    ((λ pq, pair_weight b op pq.1 pq.2)
                       <$> triu_indices (num_primitives b))))) as Hshape
      by apply shape2_scatter, shape2_zeros2.
    split_and!; [done| |].
    + intros p q Hp Hq. by apply scattered_entry.
    + intros p q Hp Hq. apply completed_entry; [done| |done..].
      intros. by apply scattered_entry.
  - apply integrate_dense_shape.
  - intros s t Hs Ht. by apply integrate_dense_entry.
Qed.

(** *** Sums of stacks of matrices *)

Lemma symmetric_zeros2 n : symmetric n (zeros2 n n).
Proof.
  split; [apply shape2_zeros2|]. intros i j Hi Hj.
  by rewrite !mget_zeros2.
Qed.

Lemma symmetric_madd n A B : symmetric n A → symmetric n B → symmetric n (madd A B).
Proof.
  intros [HA HAs] [HB HBs]. split; [by apply shape2_zip_with|].
  intros i j Hi Hj. unfold madd.
  rewrite !(mget_zip_with Rplus n n) by done. by rewrite HAs, HBs.
Qed.

Lemma symmetric_foldl_madd n A As :
  symmetric n A → Forall (symmetric n) As → symmetric n (foldl madd A As).
Proof.
  intros HA HAs. revert A HA.
  induction HAs as [|B As HB HAs IH]; intros A HA; [done|].
  simpl. apply IH. by apply symmetric_madd.
Qed.

Lemma mget_foldl_madd n A As i j :
  shape2 n n A → Forall (shape2 n n) As → (i < n)%nat → (j < n)%nat →
  mget (foldl madd A As) i j = mget A i j + Rsum ((λ B, mget B i j) <$> As).
Proof.
  intros HA HAs Hi Hj. revert A HA.
  induction HAs as [|B As HB HAs IH]; intros A HA; csimpl; [lra|].
  rewrite IH by (by apply shape2_zip_with). unfold madd.
  rewrite (mget_zip_with Rplus n n) by done. lra.
Qed.

Lemma nuclear_basis_contributions b : nuclear_basis b = nuclear_contributions b.
Proof. reflexivity. Qed.

Lemma nuclear_basis_length b :
  length (nuclear_basis b)
  = (length (atomic_number (structure b))
     `min` length (position (structure b)))%nat.
Proof. unfold nuclear_basis. apply length_zip_with. Qed.

Lemma nuclear_contributions_lookup b c V :
  nuclear_contributions b !! c = Some V ↔
  ∃ Zc pos, atomic_number (structure b) !! c = Some Zc ∧
            position (structure b) !! c = Some pos ∧
            V = integrate_dense b (nuclear_op Zc pos).
Proof. forget_collaborators.
  unfold nuclear_contributions. rewrite lookup_zip_with_Some.
  split; intros (Zc & pos & H); exists Zc, pos; tauto.
Qed.

Lemma nuclear_contributions_symmetric b :
  Forall (symmetric (num_orbitals b)) (nuclear_contributions b).
Proof.
  apply Forall_lookup. intros c V (Zc & pos & _ & _ & ->)%nuclear_contributions_lookup.
  apply integrate_dense_symmetric.
Qed.

(** C8: the overlap and kinetic matrices are symmetric, and so is every
    matrix that [nuclear_basis] returns, one per nucleus, and their sum
    over the nuclei. *)
Theorem one_electron_matrices_symmetric (b : Basis) :
  symmetric (num_orbitals b) (overlap_basis b) ∧
  symmetric (num_orbitals b) (kinetic_basis b) ∧
  Forall (symmetric (num_orbitals b)) (nuclear_basis b) ∧
  symmetric (num_orbitals b)
    (msum (num_orbitals b) (num_orbitals b) (nuclear_basis b)).
Proof.
  split_and!.
  - apply integrate_dense_symmetric.
  - apply integrate_dense_symmetric.
  - apply nuclear_contributions_symmetric.
  - apply symmetric_foldl_madd;
      [apply symmetric_zeros2|apply nuclear_contributions_symmetric].
Qed.

(** C1, as amended: [nuclear_basis] returns a stack with one matrix per
    nucleus; the matrix of a nucleus is the symmetric
    [num_orbitals]-square matrix that aggregates, over the primitives of
    each pair of orbitals, the primitive nuclear-attraction kernel at the
    position of that nucleus weighted by its atomic number; and the sum of
    the stack over its leading axis is symmetric and is, entry by entry,
    the sum of the contributions of all the nuclei. *)
Theorem nuclear_basis_stack (b : Basis) :
  length (nuclear_basis b)
  = (length (atomic_number (structure b))
     `min` length (position (structure b)))%nat ∧
  (∀ c Zc pos,
     atomic_number (structure b) !! c = Some Zc →
     position (structure b) !! c = Some pos →
     ∃ V, nuclear_basis b !! c = Some V ∧
          symmetric (num_orbitals b) V ∧
          ∀ s t, (s < num_orbitals b)%nat → (t < num_orbitals b)%nat →
            mget V s t
            = dense_entry b
                (λ pi pj, IZR Zc * _nuclear_primitives pi pj pos) s t) ∧
  symmetric (num_orbitals b)
    (msum (num_orbitals b) (num_orbitals b) (nuclear_basis b)) ∧
  (∀ s t, (s < num_orbitals b)%nat → (t < num_orbitals b)%nat →
     mget (msum (num_orbitals b) (num_orbitals b) (nuclear_basis b)) s t
     = Rsum ((λ V, mget V s t) <$> nuclear_basis b)).
Proof.
  split_and!.
  - apply nuclear_basis_length.
  - intros c Zc pos HZ Hpos. exists (integrate_dense b (nuclear_op Zc pos)).
    split_and!.
    + rewrite nuclear_basis_contributions.
      apply nuclear_contributions_lookup. by exists Zc, pos.
    + apply integrate_dense_symmetric.
    + intros s t Hs Ht. by apply integrate_dense_entry.
  - apply symmetric_foldl_madd;
      [apply symmetric_zeros2|apply nuclear_contributions_symmetric].
  - intros s t Hs Ht. unfold msum.
    rewrite (mget_foldl_madd (num_orbitals b)); [|apply shape2_zeros2| |done..].
    + rewrite mget_zeros2 by done. lra.
    + eapply Forall_impl; [apply nuclear_contributions_symmetric|].
      by intros V [HV _].
Qed.

End BasisMatrices.

(** ** Further properties of the index tables and the kernels *)

Section MoreKernels.
Local Open Scope R_scope.

Lemma Rsum_scale {A} (c : R) (f : A → R) (l : list A) :
  Rsum ((λ x, c * f x) <$> l) = c * Rsum (f <$> l).
Proof. induction l as [|x l IH]; csimpl; [lra|rewrite IH; lra]. Qed.

(** A sum to which one item of a duplicate-free list contributes. *)
Lemma Rsum_single {A} (f : A → R) (l : list A) (x : A) :
  NoDup l → x ∈ l → (∀ y, y ∈ l → y ≠ x → f y = 0) →
  Rsum (f <$> l) = f x.
Proof.
  intros Hnd. induction Hnd as [|y l Hy Hnd IH]; intros Hx Hz.
  { by apply elem_of_nil in Hx. }
  csimpl. apply elem_of_cons in Hx as [->|Hx].
  - erewrite Rsum_ext; [rewrite Rsum_zero; lra|].
    intros z Hzl. apply Hz; [by right|]. by intros ->.
  - rewrite IH; [|done|intros z Hzl Hne; apply Hz; [by right|done]].
    rewrite Hz; [lra|by left|]. by intros ->.
Qed.

Lemma NoDup_range n : NoDup (Py.range n).
Proof.
  unfold Py.range. apply NoDup_fmap_2; [|apply NoDup_seq].
  intros x y. lia.
Qed.

Lemma NoDup_overlap_idx : NoDup overlap_idx.
Proof.
  unfold overlap_idx. apply NoDup_bind; [| |apply NoDup_range].
  - intros s1 s2 [s t] _ _ H1 H2.
    apply list_elem_of_bind in H1 as (? & H1%list_elem_of_singleton & _).
    apply list_elem_of_bind in H2 as (? & H2%list_elem_of_singleton & _).
    by simplify_eq.
  - intros s _. apply NoDup_bind; [| |apply NoDup_range].
    + intros t1 t2 [s' t] _ _ H1%list_elem_of_singleton H2%list_elem_of_singleton.
      by simplify_eq.
    + intros t _. apply NoDup_singleton.
Qed.

(** X1: the rows of [build_gindex], of [build_cindex] and of the index
    pairs of [overlap_axis] are pairwise distinct, so no combinatorial term
    is generated twice. *)
Theorem index_tables_have_no_repeated_row :
  NoDup build_gindex ∧ NoDup build_cindex ∧ NoDup overlap_idx.
Proof.
  split_and!; [| |apply NoDup_overlap_idx].
  - unfold build_gindex. apply NoDup_bind; [| |apply NoDup_range].
    { intros i1 i2 [[i r] u] _ _ H1 H2.
      apply list_elem_of_bind in H1 as (? & H1 & _).
      apply list_elem_of_bind in H1 as (? & H1%list_elem_of_singleton & _).
      apply list_elem_of_bind in H2 as (? & H2 & _).
      apply list_elem_of_bind in H2 as (? & H2%list_elem_of_singleton & _).
      by simplify_eq. }
    intros i _. apply NoDup_bind; [| |apply NoDup_range].
    { intros r1 r2 [[i' r] u] _ _ H1 H2.
      apply list_elem_of_bind in H1 as (? & H1%list_elem_of_singleton & _).
      apply list_elem_of_bind in H2 as (? & H2%list_elem_of_singleton & _).
      by simplify_eq. }
    intros r _. apply NoDup_bind; [| |apply NoDup_range].
    { intros u1 u2 [[i' r'] u] _ _ H1%list_elem_of_singleton H2%list_elem_of_singleton.
      by simplify_eq. }
    intros u _. apply NoDup_singleton.
  - unfold build_cindex. apply NoDup_bind; [| |apply NoDup_range].
    { intros x1 x2 [[[[i1 i2] r1] r2] u] _ _ H1 H2.
      apply list_elem_of_bind in H1 as (? & H1 & _).
      apply list_elem_of_bind in H1 as (? & H1 & _).
      apply list_elem_of_bind in H1 as (? & H1 & _).
      apply list_elem_of_bind in H1 as (? & H1%list_elem_of_singleton & _).
      apply list_elem_of_bind in H2 as (? & H2 & _).
      apply list_elem_of_bind in H2 as (? & H2 & _).
      apply list_elem_of_bind in H2 as (? & H2 & _).
      apply list_elem_of_bind in H2 as (? & H2%list_elem_of_singleton & _).
      by simplify_eq. }
    intros i1 _. apply NoDup_bind; [| |apply NoDup_range].
    { intros x1 x2 [[[[i1' i2] r1] r2] u] _ _ H1 H2.
      apply list_elem_of_bind in H1 as (? & H1 & _).
      apply list_elem_of_bind in H1 as (? & H1 & _).
      apply list_elem_of_bind in H1 as (? & H1%list_elem_of_singleton & _).
      apply list_elem_of_bind in H2 as (? & H2 & _).
      apply list_elem_of_bind in H2 as (? & H2 & _).
      apply list_elem_of_bind in H2 as (? & H2%list_elem_of_singleton & _).
      by simplify_eq. }
    intros i2 _. apply NoDup_bind; [| |apply NoDup_range].
    { intros x1 x2 [[[[i1' i2'] r1] r2] u] _ _ H1 H2.
      apply list_elem_of_bind in H1 as (? & H1 & _).
      apply list_elem_of_bind in H1 as (? & H1%list_elem_of_singleton & _).
      apply list_elem_of_bind in H2 as (? & H2 & _).
      apply list_elem_of_bind in H2 as (? & H2%list_elem_of_singleton & _).
      by simplify_eq. }
    intros r1 _. apply NoDup_bind; [| |apply NoDup_range].
    { intros x1 x2 [[[[i1' i2'] r1'] r2] u] _ _ H1 H2.
      apply list_elem_of_bind in H1 as (? & H1%list_elem_of_singleton & _).
      apply list_elem_of_bind in H2 as (? & H2%list_elem_of_singleton & _).
      by simplify_eq. }
    intros r2 _. apply NoDup_bind; [| |apply NoDup_range].
    { intros x1 x2 [[[[i1' i2'] r1'] r2'] u]
        _ _ H1%list_elem_of_singleton H2%list_elem_of_singleton.
      by simplify_eq. }
    intros u _. apply NoDup_singleton.
Qed.

(** *** Segments that receive only masked terms *)




(** *** Overlap of s-type and of ill-formed primitives *)

Lemma overlap_axis_negative_left p_alpha i j a b :
  (i < 0)%Z → overlap_axis p_alpha i j a b = 0.
Proof.
  intros Hi. unfold overlap_axis.
  erewrite Rsum_ext; [apply Rsum_zero|].
  intros [s t] [Hs Ht]%elem_of_overlap_idx. simpl.
  apply overlap_contribution_masked. lia.
Qed.

(** X4: when an angular-momentum component of either primitive is negative
    the overlap kernel returns zero: no index pair passes the mask on that
    axis. *)
Theorem overlap_of_negative_momentum_is_zero (a b : Primitive) (ax : Axis) :
  (axis_get (lmn a) ax < 0 ∨ axis_get (lmn b) ax < 0)%Z →
  _overlap_primitives a b = 0.
Proof.
  intros Hneg. unfold _overlap_primitives, vmap_axes, prod3.
  set (p := product a b).
  assert (overlap_axis (alpha p) (axis_get (lmn a) ax) (axis_get (lmn b) ax)
            (axis_get (sub3 (center p) (center a)) ax)
            (axis_get (sub3 (center p) (center b)) ax) = 0) as Hz.
  { destruct Hneg; [by apply overlap_axis_negative_left
                   |by apply overlap_axis_negative]. }
  destruct ax; rewrite Hz; lra.
Qed.

(** X5: for two s-type components ([i = j = 0]) the axis sum of the overlap
    kernel consists of the single term [(s, t) = (0, 0)]. *)
Theorem overlap_axis_s_type p_alpha a b :
  (0 ≤ LMAX)%Z →
  overlap_axis p_alpha 0 0 a b = overlap_term p_alpha 0 0 a b (0, 0)%Z.
Proof.
  intros HL. unfold overlap_axis.
  rewrite (Rsum_single _ _ (0, 0)%Z).
  - by rewrite overlap_contribution_unmasked by lia.
  - apply NoDup_overlap_idx.
  - apply elem_of_overlap_idx. lia.
  - intros [s t] [Hs Ht]%elem_of_overlap_idx Hne.
    apply overlap_contribution_masked. intros [H1 H2].
    apply Hne. f_equal; lia.
Qed.

End MoreKernels.

(** ** Offsets and the primitives of an orbital *)

Section Blocks.

Lemma cumsum_from_partial_sums acc sizes x :
  x ≤ length sizes →
  (acc :: Py.cumsum_from acc sizes) !! x = Some (acc + sum_list (take x sizes)).
Proof.
  revert acc x. induction sizes as [|sz sizes IH]; intros acc x Hx; simpl in *.
  { replace x with 0 by lia. simpl. f_equal. lia. }
  destruct x as [|x]; simpl.
  - f_equal. lia.
  - rewrite IH by lia. f_equal. lia.
Qed.

Lemma eri_offset_lookup b x :
  x ≤ num_orbitals b → eri_offset b !! x = Some (block_start b x).
Proof.
  intros Hx. unfold eri_offset, Py.cumsum, block_start.
  rewrite cumsum_from_partial_sums; [done|].
  by rewrite length_fmap.
Qed.

Lemma sparse_offset_eq b : sparse_offset b = eri_offset b.
Proof. reflexivity. Qed.

Lemma block_start_succ b o x :
  orbitals b !! o = Some x →
  block_start b (o + 1) = block_start b o + orbital_num_primitives x.
Proof.
  intros Ho. unfold block_start. rewrite Nat.add_1_r.
  rewrite (take_S_r _ _ (orbital_num_primitives x))
    by (by rewrite list_lookup_fmap, Ho).
  rewrite sum_list_with_app. simpl. lia.
Qed.

Lemma sum_list_take_le (l : list nat) x : sum_list (take x l) ≤ sum_list l.
Proof.
  rewrite <-(take_drop x l) at 2. rewrite sum_list_with_app. lia.
Qed.

Lemma block_start_le b o : block_start b o ≤ num_primitives b.
Proof. apply sum_list_take_le. Qed.

(** The mesh of an orbital is the run of its primitive positions. *)
Lemma orbital_mesh_seq b o x :
  orbitals b !! o = Some x →
  orbital_mesh b o = seq (block_start b o) (orbital_num_primitives x).
Proof.
  intros Ho. pose proof (lookup_lt_Some _ _ _ Ho) as Hlt.
  unfold orbital_mesh, Py.range2.
  assert (eri_offset b !! o = Some (block_start b o)) as H0
    by (apply eri_offset_lookup; unfold num_orbitals; lia).
  assert (eri_offset b !! (o + 1) = Some (block_start b (o + 1))) as H1
    by (apply eri_offset_lookup; unfold num_orbitals; lia).
  rewrite (list_lookup_total_correct _ _ _ H0).
  rewrite (list_lookup_total_correct _ _ _ H1).
  rewrite (block_start_succ b o x Ho). f_equal. lia.
Qed.

Lemma elem_of_orbital_mesh b o x p :
  orbitals b !! o = Some x →
  p ∈ orbital_mesh b o ↔
  block_start b o ≤ p < block_start b o + orbital_num_primitives x.
Proof. intros Ho. rewrite (orbital_mesh_seq b o x Ho). apply elem_of_seq. Qed.

(** Where the owner array holds a given owner. *)
Lemma blocks_lookup {A} (size : A → nat) (g : nat → Z) (l : list A) p v :
  mjoin (imap (λ o x, replicate (size x) (g o)) l) !! p = Some v ↔
  ∃ o x, l !! o = Some x ∧ v = g o ∧
         sum_list (size <$> take o l) ≤ p < sum_list (size <$> take o l) + size x.
Proof.
  revert g p. induction l as [|y l IH]; intros g p.
  { split; [done|]. by intros (o & x & Ho & _). }
  rewrite imap_cons, mjoin_cons.
  rewrite (imap_ext _ (λ o x, replicate (size x) ((g ∘ S) o))) by done.
  destruct (decide (p < size y)) as [Hlt|Hge].
  - rewrite lookup_app_l by (by rewrite length_replicate).
    rewrite lookup_replicate. split.
    + intros [-> _]. exists 0, y. simpl. split_and!; [done..|lia|lia].
    + intros (o & x & Ho & -> & Hp). destruct o as [|o]; simpl in *.
      * by simplify_eq.
      * lia.
  - rewrite lookup_app_r by (rewrite length_replicate; lia).
    rewrite length_replicate, IH. split.
    + intros (o & x & Ho & -> & Hp). exists (S o), x.
      rewrite firstn_cons, fmap_cons. change (sum_list (?a :: ?l)) with (a + sum_list l).
      split_and!; [done..|lia|lia].
    + intros (o & x & Ho & -> & Hp). destruct o as [|o].
      * simpl in *. simplify_eq. lia.
      * rewrite firstn_cons, fmap_cons in Hp.
        change (sum_list (?a :: ?l)) with (a + sum_list l) in Hp.
        exists o, x. split_and!; [done..|lia|lia].
Qed.

Lemma orbital_index_lookup b p o :
  orbital_index b !! p = Some (Z.of_nat o) ↔
  ∃ x, orbitals b !! o = Some x ∧
       block_start b o ≤ p < block_start b o + orbital_num_primitives x.
Proof.
  unfold orbital_index. rewrite blocks_lookup. unfold block_start.
  setoid_rewrite fmap_take. split.
  - intros (o' & x & Ho & Heq & Hp). assert (o' = o) as -> by lia. by exists x.
  - intros (x & Ho & Hp). by exists o, x.
Qed.

Lemma filter_seq_run (P : nat → Prop) `{∀ p, Decision (P p)} n lo sz :
  lo + sz ≤ n → (∀ p, p < n → P p ↔ lo ≤ p < lo + sz) →
  filter P (seq 0 n) = seq lo sz.
Proof.
  intros Hle HP.
  replace n with (lo + (sz + (n - lo - sz))) by lia.
  rewrite !seq_app, !filter_app. simpl.
  assert (∀ l : list nat, Forall (λ p, ¬ P p) l → filter P l = []) as Hnone.
  { intros l Hl. induction Hl as [|p l Hp Hl IH]; [done|].
    by rewrite filter_cons_False. }
  assert (∀ l : list nat, Forall P l → filter P l = l) as Hall.
  { intros l Hl. induction Hl as [|p l Hp Hl IH]; [done|].
    by rewrite filter_cons_True, IH. }
  rewrite (Hnone (seq 0 lo)), (Hall (seq lo sz)), (Hnone (seq (lo + sz) _)).
  - by rewrite app_nil_r.
  - apply Forall_forall. intros p Hp%elem_of_seq. rewrite HP by lia. lia.
  - apply Forall_forall. intros p Hp%elem_of_seq. rewrite HP by lia. lia.
  - apply Forall_forall. intros p Hp%elem_of_seq. rewrite HP by lia. lia.
Qed.

(** The primitives that the owner array attributes to an orbital are the
    primitives of its mesh. *)
Lemma orbital_primitives_mesh b o :
  o < num_orbitals b → orbital_primitives b o = orbital_mesh b o.
Proof.
  intros Ho. destruct (lookup_lt_is_Some_2 (orbitals b) o Ho) as [x Hx].
  rewrite (orbital_mesh_seq b o x Hx). unfold orbital_primitives.
  apply filter_seq_run.
  - rewrite <-(block_start_succ b o x Hx). apply block_start_le.
  - intros p Hp.
    rewrite <-(orbital_index_length b) in Hp.
    rewrite (list_lookup_total_alt (orbital_index b) p).
    destruct (lookup_lt_is_Some_2 _ _ Hp) as [v Hv]. rewrite Hv. simpl.
    split.
    + intros ->. apply orbital_index_lookup in Hv as (x' & Hx' & Hp').
      by simplify_eq.
    + intros Hrange.
      assert (orbital_index b !! p = Some (Z.of_nat o)) as Hv'.
      { apply orbital_index_lookup. by exists x. }
      congruence.
Qed.

End Blocks.

(** ** Further properties of the electron-repulsion aggregation *)

Section MoreEri.
Local Open Scope nat_scope.

Lemma elem_of_mesh_product b i j k l p q r s :
  (p, q, r, s) ∈ mesh_product (eri_offset b) (i, j, k, l) ↔
  p ∈ orbital_mesh b i ∧ q ∈ orbital_mesh b j ∧
  r ∈ orbital_mesh b k ∧ s ∈ orbital_mesh b l.
Proof.
  unfold mesh_product, orbital_mesh. split.
  - intros H.
    apply list_elem_of_bind in H as (p' & H & Hp).
    apply list_elem_of_bind in H as (q' & H & Hq).
    apply list_elem_of_bind in H as (r' & H & Hr).
    apply list_elem_of_bind in H as (s' & H%list_elem_of_singleton & Hs).
    by simplify_eq.
  - intros (Hp & Hq & Hr & Hs).
    apply list_elem_of_bind. exists p. split; [|done].
    apply list_elem_of_bind. exists q. split; [|done].
    apply list_elem_of_bind. exists r. split; [|done].
    apply list_elem_of_bind. exists s. split; [|done].
    by apply list_elem_of_singleton.
Qed.

Lemma orbital_mesh_nonempty b o x :
  orbitals b !! o = Some x →
  orbital_mesh b o ≠ [] ↔ 0 < orbital_num_primitives x.
Proof.
  intros Ho. rewrite (orbital_mesh_seq b o x Ho).
  destruct (orbital_num_primitives x); simpl; split; (done || lia).
Qed.

Lemma orbital_mesh_bound b o p :
  o < num_orbitals b → p ∈ orbital_mesh b o → p < num_primitives b.
Proof.
  intros Ho Hp. destruct (lookup_lt_is_Some_2 (orbitals b) o Ho) as [x Hx].
  apply (elem_of_orbital_mesh b o x p Hx) in Hp.
  pose proof (block_start_le b (o + 1)) as Hle.
  rewrite (block_start_succ b o x Hx) in Hle. lia.
Qed.

(** A quadruple has a primitive quadruple exactly when its four orbitals
    have a primitive. *)
Lemma mesh_product_nonempty_iff b i j k l :
  mesh_product (eri_offset b) (i, j, k, l) ≠ [] ↔
  orbital_mesh b i ≠ [] ∧ orbital_mesh b j ≠ [] ∧
  orbital_mesh b k ≠ [] ∧ orbital_mesh b l ≠ [].
Proof.
  split.
  - intros Hne. destruct (mesh_product _ _) as [|[[[p q] r] s] ts] eqn:Hm; [done|].
    assert ((p, q, r, s) ∈ mesh_product (eri_offset b) (i, j, k, l)) as Hin
      by (rewrite Hm; left).
    apply elem_of_mesh_product in Hin as (Hp & Hq & Hr & Hs).
    split_and!; intros Hnil; rewrite Hnil in *; by eapply elem_of_nil.
  - intros (Hi & Hj & Hk & Hl) Hnil.
    destruct (orbital_mesh b i) as [|p ?] eqn:Ei; [done|].
    destruct (orbital_mesh b j) as [|q ?] eqn:Ej; [done|].
    destruct (orbital_mesh b k) as [|r ?] eqn:Ek; [done|].
    destruct (orbital_mesh b l) as [|s ?] eqn:El; [done|].
    assert ((p, q, r, s) ∈ mesh_product (eri_offset b) (i, j, k, l)) as Hin.
    { apply elem_of_mesh_product. rewrite Ei, Ej, Ek, El.
      split_and!; left. }
    rewrite Hnil in Hin. by eapply elem_of_nil.
Qed.

Lemma bind_nonempty_iff {A B} (f : A → list B) (l : list A) :
  l ≫= f ≠ [] ↔ ∃ x, x ∈ l ∧ f x ≠ [].
Proof.
  split.
  - intros Hne. destruct (l ≫= f) as [|y ys] eqn:Hb; [done|].
    assert (y ∈ l ≫= f) as Hy by (rewrite Hb; left).
    apply list_elem_of_bind in Hy as (x & Hy & Hx).
    exists x. split; [done|]. intros Hnil. rewrite Hnil in Hy.
    by eapply elem_of_nil.
  - intros (x & Hx & Hfx) Hnil.
    destruct (f x) as [|y ys] eqn:Hf; [done|].
    assert (y ∈ l ≫= f) as Hy.
    { apply list_elem_of_bind. exists x. split; [|done]. rewrite Hf. left. }
    rewrite Hnil in Hy. by eapply elem_of_nil.
Qed.

Lemma diagonal_quad_generated n o : o < n → (o, o, o, o) ∈ gen_ijkl n.
Proof.
  intros Ho. apply elem_of_gen_ijkl. unfold canonical.
  rewrite decide_True by done. lia.
Qed.

Lemma batched_fuel_one {A} (fuel : nat) (l : list A) :
  length l ≤ fuel → Py.batched_fuel fuel l 1 = (λ x, [x]) <$> l.
Proof.
  revert l. induction fuel as [|fuel IH]; intros [|x l] Hlen; simpl in *;
    try done; try lia.
  rewrite take_0, drop_0. f_equal. apply IH. lia.
Qed.

Lemma eri_basis_sparse_is_Some b :
  is_Some (eri_basis_sparse b) ↔
  gen_ijkl (num_orbitals b) ≫= mesh_product (eri_offset b) ≠ [].
Proof.
  unfold eri_basis_sparse. rewrite contract_expand.
  case_decide as Hd; split; done.
Qed.

(** X6: [eri_basis_sparse] returns exactly when some orbital of the basis
    has a primitive; otherwise [jnp.stack] is handed an empty list and
    raises. *)
Theorem eri_basis_sparse_return_condition (b : Basis) :
  is_Some (eri_basis_sparse b) ↔
  Exists (λ o, 0 < orbital_num_primitives o) (orbitals b).
Proof.
  rewrite eri_basis_sparse_is_Some, bind_nonempty_iff, Exists_exists. split.
  - intros ([[[i j] k] l] & Hq & Hm).
    apply elem_of_gen_ijkl, canonical_in_range in Hq as (Hi & _).
    apply mesh_product_nonempty_iff in Hm as (Hm & _).
    destruct (lookup_lt_is_Some_2 (orbitals b) i Hi) as [x Hx].
    exists x. split; [by eapply list_elem_of_lookup_2|].
    by apply (orbital_mesh_nonempty b i x Hx).
  - intros (x & [o Ho]%list_elem_of_lookup_1 & Hx).
    exists (o, o, o, o). split.
    + apply diagonal_quad_generated. by eapply lookup_lt_Some.
    + apply mesh_product_nonempty_iff.
      by split_and!; apply (orbital_mesh_nonempty b o x Ho).
Qed.

(** X7: [eri_basis_sparse_batched] returns for every batch size of at
    least one exactly when the basis has an orbital and every orbital has
    a primitive. *)
Theorem eri_basis_sparse_batched_return_condition (b : Basis) :
  (∀ batch_size, 1 ≤ batch_size →
     is_Some (eri_basis_sparse_batched b batch_size)) ↔
  0 < num_orbitals b ∧ orbitals_nonempty b.
Proof.
  split.
  - intros Hall. specialize (Hall 1 (le_n 1)).
    assert (0 < num_orbitals b) as Hn.
    { destruct (decide (num_orbitals b = 0)) as [Hz|]; [|lia].
      unfold eri_basis_sparse_batched in Hall.
      rewrite Hz in Hall. simpl in Hall. by destruct Hall. }
    split; [done|].
    apply Forall_lookup. intros o x Ho.
    destruct (decide (0 < orbital_num_primitives x)) as [|Hz]; [done|].
    exfalso.
    rewrite (eri_basis_sparse_batched_empty_batch b 1 [(o, o, o, o)]) in Hall.
    + by destruct Hall.
    + done.
    + unfold Py.batched. rewrite batched_fuel_one by done.
      apply list_elem_of_fmap. exists (o, o, o, o). split; [done|].
      apply diagonal_quad_generated. by eapply lookup_lt_Some.
    + rewrite bind_singleton.
      destruct (mesh_product (eri_offset b) (o, o, o, o)) eqn:Hm; [done|].
      assert (mesh_product (eri_offset b) (o, o, o, o) ≠ []) as Hne
        by (by rewrite Hm).
      apply mesh_product_nonempty_iff in Hne as (Hne & _).
      by apply (orbital_mesh_nonempty b o x Ho) in Hne.
  - intros [Hn Hne] batch_size Hbs.
    rewrite eri_basis_sparse_batched_value by done.
    rewrite decide_False by lia. by eexists.
Qed.

(** X8: whenever [eri_basis_sparse_batched] returns a vector, whatever the
    batch size and the basis, [eri_basis_sparse] returns the same vector:
    the values of the canonical orbital quadruples in the order of
    [gen_ijkl]. *)
Theorem eri_basis_sparse_batched_refines_sparse (b : Basis) (batch_size : nat)
    (v : list R) :
  eri_basis_sparse_batched b batch_size = Some v →
  eri_basis_sparse b = Some v ∧
  v = quad_value b <$> gen_ijkl (num_orbitals b).
Proof.
  intros Hv. pose proof (eri_basis_sparse_batched_Some b batch_size v Hv) as ->.
  split; [|done]. apply eri_basis_sparse_returns.
  unfold eri_basis_sparse_batched in Hv. case_decide as Hbs; [done|].
  destruct (mapM _ _) as [rs|] eqn:Hmap; [csimpl in Hv|done].
  destruct rs as [|r rs]; [done|].
  apply mapM_Some_1 in Hmap.
  destruct (batched_spec batch_size (gen_ijkl (num_orbitals b))) as (_ & Hall & _);
    [lia|].
  destruct (Py.batched _ _) as [|c cs]; [by apply Forall2_nil_cons_inv in Hmap|].
  apply Forall2_cons_1 in Hmap as [Hc _].
  apply Forall_inv in Hall as [_ Hsub].
  rewrite contract_expand in Hc. case_decide as Hm; [done|].
  apply bind_nonempty_iff in Hm as (q & Hq & Hmq).
  apply bind_nonempty_iff. exists q. split; [by apply Hsub|done].
Qed.

(** X9: the loop of [eri_basis_sparse] keeps [indices] and [batch] of the
    same length, every segment id it records is the position of a
    generated quadruple, and every primitive position it records is a row
    of the primitive arrays, so that no gather reaches out of range. *)
Theorem expand_quads_in_range (b : Basis) :
  let '(indices, batch) := expand_quads (eri_offset b) (gen_ijkl (num_orbitals b)) in
  length indices = length batch ∧
  Forall (λ id, (0 ≤ id < Z.of_nat (length (gen_ijkl (num_orbitals b))))%Z) batch ∧
  Forall (λ '(p, q, r, s), p < num_primitives b ∧ q < num_primitives b ∧
                           r < num_primitives b ∧ s < num_primitives b) indices.
Proof.
  rewrite expand_quads_spec. split_and!.
  - by rewrite batch_ids_length.
  - apply batch_ids_bound.
  - apply Forall_forall. intros [[[p q] r] s] Hin.
    apply list_elem_of_bind in Hin as ([[[i j] k] l] & Hin & Hq).
    apply elem_of_gen_ijkl, canonical_in_range in Hq as (Hi & Hj & Hk & Hl).
    apply elem_of_mesh_product in Hin as (Hp & Hq & Hr & Hs).
    split_and!.
    + exact (orbital_mesh_bound b i p Hi Hp).
    + exact (orbital_mesh_bound b j q Hj Hq).
    + exact (orbital_mesh_bound b k r Hk Hr).
    + exact (orbital_mesh_bound b l s Hl Hs).
Qed.

(** X10: every entry of the tensor that [eri_basis] returns, at a
    canonical position or not, is the value of the canonical
    representative of its position, which [gen_ijkl] generates and of
    which the position is one of the eight images. *)
Theorem eri_basis_entries (b : Basis) (G : Tensor4) (p : quad) :
  eri_basis b = Some G → in_range (num_orbitals b) p →
  canon p ∈ gen_ijkl (num_orbitals b) ∧
  p ∈ images8 (canon p) ∧
  tget G p = Rsum (eri_entry b <$> mesh_product (eri_offset b) (canon p)).
Proof.
  intros HG Hp. split_and!.
  - by apply elem_of_gen_ijkl, canon_canonical.
  - apply canon_image.
  - by rewrite (eri_basis_entry b G p HG Hp).
Qed.

(** X11: the quadruples that [gen_ijkl] yields for [n] orbitals are the
    first quadruples that it yields for any larger number of orbitals, so
    the position of a quadruple in the sparse vector does not depend on
    the size of the basis. *)
Theorem gen_ijkl_prefix (n m : nat) :
  gen_ijkl n `prefix_of` gen_ijkl (n + m).
Proof.
  unfold gen_ijkl. rewrite seq_app, bind_app. by apply prefix_app_r.
Qed.

Lemma batched_fuel_nil {A} (fuel n : nat) :
  Py.batched_fuel fuel (@nil A) n = [].
Proof. by destruct fuel. Qed.

Lemma batched_single {A} (l : list A) (n : nat) :
  l ≠ [] → (length l ≤ n)%nat → Py.batched l n = [l].
Proof.
  intros Hne Hlen. unfold Py.batched.
  destruct l as [|x l]; [done|].
  change (Py.batched_fuel (length (x :: l)) (x :: l) n)
    with (take n (x :: l) :: Py.batched_fuel (length l) (drop n (x :: l)) n).
  rewrite take_ge, drop_ge by done. by rewrite batched_fuel_nil.
Qed.

(** X23: when all the quadruples of [gen_ijkl] fit in one batch,
    [eri_basis_sparse_batched] does exactly what [eri_basis_sparse] does,
    on any basis: it returns the same vector or raises with it. *)
Theorem eri_basis_sparse_batched_single_batch (b : Basis) (batch_size : nat) :
  (1 ≤ batch_size)%nat →
  (length (gen_ijkl (num_orbitals b)) ≤ batch_size)%nat →
  eri_basis_sparse_batched b batch_size = eri_basis_sparse b.
Proof.
  intros Hbs Hfit. unfold eri_basis_sparse_batched, eri_basis_sparse.
  rewrite decide_False by lia.
  destruct (decide (gen_ijkl (num_orbitals b) = [])) as [Hnil|Hne].
  - rewrite Hnil. done.
  - rewrite batched_single by done. csimpl.
    destruct (expand_quads _ _) as [indices batch].
    destruct (contract_eris b indices batch _) as [v|]; [|done].
    csimpl. by rewrite app_nil_r.
Qed.

End MoreEri.

(** ** Further properties of the dense aggregation *)

Section MoreDense.
Local Open Scope R_scope.

Lemma mget_outside r c A i j :
  shape2 r c A → ¬ (i < r ∧ j < c)%nat → mget A i j = 0.
Proof.
  intros [Hr Hc] Hout. unfold mget.
  rewrite (list_lookup_total_alt A i).
  destruct (A !! i) as [row|] eqn:Hrow; simpl.
  - pose proof (lookup_lt_Some _ _ _ Hrow) as Hi.
    eapply Forall_lookup_1 in Hc; [|exact Hrow].
    rewrite (list_lookup_total_alt row j).
    rewrite (lookup_ge_None_2 row j) by lia. done.
  - done.
Qed.

(** The entries of the result, inside and outside its shape. *)
Lemma mget_integrate_dense b op s t :
  mget (integrate_dense b op) s t
  = if decide (s < num_orbitals b ∧ t < num_orbitals b)%nat
    then dense_entry b op s t else 0.
Proof.
  case_decide as Hst.
  - destruct Hst. by apply integrate_dense_entry.
  - eapply mget_outside; [apply integrate_dense_shape|done].
Qed.

Lemma Rsum_linear {A} (c1 c2 : R) (f g : A → R) (l : list A) :
  Rsum ((λ x, c1 * f x + c2 * g x) <$> l)
  = c1 * Rsum (f <$> l) + c2 * Rsum (g <$> l).
Proof.
  rewrite (Rsum_plus (λ x, c1 * f x) (λ x, c2 * g x)).
  by rewrite !Rsum_scale.
Qed.

Lemma dense_entry_linear b op1 op2 c1 c2 s t :
  dense_entry b (λ p q, c1 * op1 p q + c2 * op2 p q) s t
  = c1 * dense_entry b op1 s t + c2 * dense_entry b op2 s t.
Proof.
  unfold dense_entry.
  rewrite <-(Rsum_linear c1 c2
    (λ p, Rsum ((λ q, sym_weight b op1 p q) <$> orbital_primitives b t))
    (λ p, Rsum ((λ q, sym_weight b op2 p q) <$> orbital_primitives b t))).
  apply Rsum_ext. intros p _.
  rewrite <-(Rsum_linear c1 c2 (λ q, sym_weight b op1 p q)
                               (λ q, sym_weight b op2 p q)).
  apply Rsum_ext. intros q _.
  unfold sym_weight, pair_weight. ring.
Qed.

(** X12: [integrate_dense] is linear in the primitive kernel, entry by
    entry and at every position. *)
Theorem integrate_dense_linear (b : Basis) (op1 op2 : BinaryPrimitiveOp)
    (c1 c2 : R) (s t : nat) :
  mget (integrate_dense b (λ p q, c1 * op1 p q + c2 * op2 p q)) s t
  = c1 * mget (integrate_dense b op1) s t
    + c2 * mget (integrate_dense b op2) s t.
Proof.
  rewrite !mget_integrate_dense. case_decide.
  - apply dense_entry_linear.
  - ring.
Qed.

(** X13: a matrix of the stack that [nuclear_basis] returns belongs to a
    nucleus of the structure and is the atomic number of that nucleus
    times the aggregation of the bare nuclear-attraction kernel at its
    position. *)
Theorem nuclear_basis_charge_factor (b : Basis) (c : nat) (V : Matrix) :
  nuclear_basis b !! c = Some V →
  ∃ Zc pos,
    atomic_number (structure b) !! c = Some Zc ∧
    position (structure b) !! c = Some pos ∧
    ∀ s t, mget V s t
           = IZR Zc * mget (integrate b (λ pi pj, _nuclear_primitives pi pj pos)) s t.
Proof.
  rewrite nuclear_basis_contributions.
  intros (Zc & pos & HZ & Hpos & ->)%nuclear_contributions_lookup.
  exists Zc, pos. split_and!; [done..|]. intros s t.
  unfold integrate, nuclear_op. rewrite !mget_integrate_dense. case_decide.
  - rewrite <-(Rplus_0_r (IZR Zc * dense_entry _ _ _ _)).
    rewrite <-(Rmult_0_l (dense_entry b (λ _ _, 0) s t)).
    rewrite <-dense_entry_linear. unfold dense_entry.
    apply Rsum_ext. intros p _. apply Rsum_ext. intros q _.
    unfold sym_weight, pair_weight. ring.
  - ring.
Qed.

Lemma orbital_primitives_empty b s x :
  orbitals b !! s = Some x → orbital_num_primitives x = 0%nat →
  orbital_primitives b s = [].
Proof.
  intros Hs Hx. rewrite orbital_primitives_mesh by (by eapply lookup_lt_Some).
  by rewrite (orbital_mesh_seq b s x Hs), Hx.
Qed.

(** X14: an orbital without primitives has a zero row and a zero column
    in the matrix of [integrate_dense], whatever the kernel. *)
Theorem integrate_dense_empty_orbital (b : Basis) (op : BinaryPrimitiveOp)
    (s t : nat) (x : Orbital) :
  orbitals b !! s = Some x → orbital_num_primitives x = 0%nat →
  mget (integrate_dense b op) s t = 0 ∧ mget (integrate_dense b op) t s = 0.
Proof.
  intros Hs Hx. rewrite !mget_integrate_dense.
  pose proof (orbital_primitives_empty b s x Hs Hx) as Hempty.
  split; case_decide; try done; unfold dense_entry; rewrite Hempty.
  - done.
  - csimpl. apply Rsum_zero.
Qed.

(** X15: the owner array of [integrate_dense] and the offsets of the
    sparse aggregations describe the same blocks: every primitive position
    has an owner, which is an orbital of the basis, and the position lies
    in the offset range of its owner and of no other orbital. *)
Theorem owner_array_matches_offsets (b : Basis) (p : nat) :
  (p < num_primitives b)%nat →
  ∃ o, orbital_index b !! p = Some (Z.of_nat o) ∧
       (o < num_orbitals b)%nat ∧
       p ∈ orbital_mesh b o ∧
       ∀ o', (o' < num_orbitals b)%nat → p ∈ orbital_mesh b o' → o' = o.
Proof.
  intros Hp. rewrite <-(orbital_index_length b) in Hp.
  destruct (lookup_lt_is_Some_2 _ _ Hp) as [v Hv].
  pose proof Hv as Hv'. unfold orbital_index in Hv'.
  apply blocks_lookup in Hv' as (o & x & Ho & -> & _).
  exists o. pose proof (lookup_lt_Some _ _ _ Ho) as Hlt.
  split_and!; [done|done| |].
  - apply orbital_index_lookup in Hv as (x' & Hx' & Hrange).
    by apply (elem_of_orbital_mesh b o x' p Hx').
  - intros o' Ho' Hin.
    destruct (lookup_lt_is_Some_2 (orbitals b) o' Ho') as [x' Hx'].
    apply (elem_of_orbital_mesh b o' x' p Hx') in Hin.
    assert (orbital_index b !! p = Some (Z.of_nat o')) as Hv''.
    { apply orbital_index_lookup. by exists x'. }
    rewrite Hv in Hv''. injection Hv'' as Heq. lia.
Qed.

(** The entries of the dense aggregation as sums over offset ranges. *)
Lemma dense_entry_mesh b op s t :
  (s < num_orbitals b)%nat → (t < num_orbitals b)%nat →
  dense_entry b op s t
  = Rsum ((λ p, Rsum ((λ q, sym_weight b op p q) <$> orbital_mesh b t))
            <$> orbital_mesh b s).
Proof.
  intros Hs Ht. unfold dense_entry.
  by rewrite !orbital_primitives_mesh.
Qed.

Lemma elem_of_orbital_primitives b o p :
  p ∈ orbital_primitives b o → (p < num_primitives b)%nat.
Proof.
  unfold orbital_primitives. intros [_ Hp%elem_of_seq]%list_elem_of_filter. lia.
Qed.

(** X16: [integrate_dense] evaluates the kernel on pairs of primitives of
    the basis in the order of their positions only: two kernels that agree
    whenever the first argument does not come after the second give the
    same matrix. *)
Theorem integrate_dense_upper_triangle (b : Basis) (op1 op2 : BinaryPrimitiveOp) :
  (∀ p q, (p ≤ q < num_primitives b)%nat →
     op1 (take_at (basis_primitives b) p) (take_at (basis_primitives b) q)
     = op2 (take_at (basis_primitives b) p) (take_at (basis_primitives b) q)) →
  ∀ s t, mget (integrate_dense b op1) s t = mget (integrate_dense b op2) s t.
Proof.
  intros Hop s t. rewrite !mget_integrate_dense. case_decide; [|done].
  unfold dense_entry.
  apply Rsum_ext. intros p Hp%elem_of_orbital_primitives.
  apply Rsum_ext. intros q Hq%elem_of_orbital_primitives.
  unfold sym_weight, pair_weight. rewrite Hop; [done|lia].
Qed.

End MoreDense.

(** ** Sparse aggregation of one-electron integrals: [integrate_sparse] *)

Section IntegrateSparse.
Local Open Scope R_scope.

Section Loop.
Context {I T : Type} (mesh : I → list T).

Lemma segment_ids_snoc items i :
  segment_ids mesh (items ++ [i])
  = segment_ids mesh items
    ++ replicate (length (mesh i)) (Z.of_nat (length items)).
Proof.
  unfold segment_ids. rewrite imap_app, join_app. simpl.
  by rewrite Nat.add_0_r, app_nil_r.
Qed.

Lemma segment_ids_length items :
  length (segment_ids mesh items) = length (items ≫= mesh).
Proof.
  induction items as [|i items IH] using rev_ind; [done|].
  rewrite segment_ids_snoc, bind_app, bind_singleton, !length_app, IH.
  by rewrite length_replicate.
Qed.

Lemma segment_ids_bound items :
  Forall (λ id, 0 ≤ id < Z.of_nat (length items))%Z (segment_ids mesh items).
Proof.
  induction items as [|i items IH] using rev_ind; [constructor|].
  rewrite segment_ids_snoc, length_app. simpl. apply Forall_app. split.
  - eapply Forall_impl; [exact IH|]. simpl. intros; lia.
  - apply Forall_replicate. lia.
Qed.

Lemma segment_of_item (f : T → R) items s i :
  items !! s = Some i →
  Rsum ((λ '(id, x), if decide (id = Z.of_nat s) then x else 0)
          <$> zip (segment_ids mesh items) (f <$> (items ≫= mesh)))
  = Rsum (f <$> mesh i).
Proof.
  revert s i. induction items as [|i' items IH] using rev_ind; intros s i Hs.
  { done. }
  rewrite segment_ids_snoc, bind_app, bind_singleton, fmap_app.
  rewrite zip_with_app
    by (by rewrite segment_ids_length, length_fmap).
  rewrite fmap_app, Rsum_app.
  rewrite Rsum_indicator_replicate by (by rewrite length_fmap).
  destruct (decide (s < length items)%nat) as [Hlt|Hge].
  - rewrite lookup_app_l in Hs by done.
    rewrite (IH _ _ Hs), decide_False by lia. lra.
  - rewrite lookup_app_r in Hs by lia.
    apply list_lookup_singleton_Some in Hs as [Hs ->].
    rewrite decide_True by lia.
    rewrite Rsum_indicator_out_of_range; [lra|].
    eapply Forall_impl; [apply segment_ids_bound|]. simpl. intros; lia.
Qed.

Lemma segment_sum_items (f : T → R) items :
  segment_sum (f <$> (items ≫= mesh)) (segment_ids mesh items) (length items)
  = (λ i, Rsum (f <$> mesh i)) <$> items.
Proof.
  apply list_eq. intros s. rewrite list_lookup_fmap.
  destruct (items !! s) as [i|] eqn:Hs; simpl.
  - rewrite segment_sum_lookup by (by eapply lookup_lt_Some).
    f_equal. by apply segment_of_item.
  - apply lookup_ge_None. rewrite segment_sum_length.
    by apply lookup_ge_None.
Qed.

End Loop.

Lemma Rsum_bind {A B} (f : B → R) (g : A → list B) (l : list A) :
  Rsum (f <$> (l ≫= g)) = Rsum ((λ x, Rsum (f <$> g x)) <$> l).
Proof.
  induction l as [|x l IH]; [done|].
  rewrite bind_cons, fmap_app, Rsum_app, IH. done.
Qed.

(** The loop computes the concatenated meshes and their segment ids. *)
Lemma expand_pairs_spec offset pairs :
  expand_pairs offset pairs
  = (pairs ≫= pair_mesh_product offset,
     segment_ids (pair_mesh_product offset) pairs).
Proof.
  unfold expand_pairs.
  induction pairs as [|q pairs IH] using rev_ind; [done|].
  rewrite enumerate_snoc, foldl_snoc, IH. simpl.
  rewrite bind_app, bind_singleton, segment_ids_snoc. f_equal. f_equal. f_equal.
  rewrite length_app, segment_ids_length. lia.
Qed.

Lemma elem_of_pair_mesh_product b i j p q :
  (p, q) ∈ pair_mesh_product (sparse_offset b) (i, j) ↔
  p ∈ orbital_mesh b i ∧ q ∈ orbital_mesh b j.
Proof.
  unfold pair_mesh_product. change (sparse_offset b) with (eri_offset b).
  fold (orbital_mesh b i) (orbital_mesh b j). split.
  - intros H.
    apply list_elem_of_bind in H as (p' & H & Hp).
    apply list_elem_of_bind in H as (q' & H%list_elem_of_singleton & Hq).
    by simplify_eq.
  - intros (Hp & Hq).
    apply list_elem_of_bind. exists p. split; [|done].
    apply list_elem_of_bind. exists q. split; [|done].
    by apply list_elem_of_singleton.
Qed.

Lemma pair_mesh_product_nonempty_iff b i j :
  pair_mesh_product (sparse_offset b) (i, j) ≠ [] ↔
  orbital_mesh b i ≠ [] ∧ orbital_mesh b j ≠ [].
Proof.
  split.
  - intros Hne.
    destruct (pair_mesh_product _ _) as [|[p q] ts] eqn:Hm; [done|].
    assert ((p, q) ∈ pair_mesh_product (sparse_offset b) (i, j)) as Hin
      by (rewrite Hm; left).
    apply elem_of_pair_mesh_product in Hin as (Hp & Hq).
    split; intros Hnil; rewrite Hnil in *; by eapply elem_of_nil.
  - intros (Hi & Hj) Hnil.
    destruct (orbital_mesh b i) as [|p ?] eqn:Ei; [done|].
    destruct (orbital_mesh b j) as [|q ?] eqn:Ej; [done|].
    assert ((p, q) ∈ pair_mesh_product (sparse_offset b) (i, j)) as Hin.
    { apply elem_of_pair_mesh_product. rewrite Ei, Ej. split; left. }
    rewrite Hnil in Hin. by eapply elem_of_nil.
Qed.

Lemma pair_mesh_product_nonempty b idx :
  (idx.1 < num_orbitals b ∧ idx.2 < num_orbitals b)%nat →
  pair_mesh_product (sparse_offset b) idx ≠ [] ↔ pair_has_primitives b idx.
Proof.
  destruct idx as [i j]. intros [Hi Hj].
  change ((i, j).1) with i in Hi. change ((i, j).2) with j in Hj.
  destruct (lookup_lt_is_Some_2 (orbitals b) i Hi) as [x Hx].
  destruct (lookup_lt_is_Some_2 (orbitals b) j Hj) as [y Hy].
  rewrite pair_mesh_product_nonempty_iff.
  rewrite (orbital_mesh_nonempty b i x Hx), (orbital_mesh_nonempty b j y Hy).
  unfold pair_has_primitives.
  change ((i, j).1) with i. change ((i, j).2) with j. split.
  - intros [Hsx Hsy]. by exists x, y.
  - intros (x' & y' & Hx' & Hy' & Hsx & Hsy). by simplify_eq.
Qed.

Lemma pair_value_sum b op s t :
  pair_value b op (s, t)
  = Rsum ((λ p, Rsum ((λ q, pair_weight b op p q) <$> orbital_mesh b t))
            <$> orbital_mesh b s).
Proof.
  unfold pair_value, pair_mesh_product.
  change (sparse_offset b) with (eri_offset b).
  fold (orbital_mesh b s) (orbital_mesh b t).
  rewrite Rsum_bind. apply Rsum_ext. intros p _.
  rewrite Rsum_bind. apply Rsum_ext. intros q _. csimpl. lra.
Qed.

Lemma sparse_weights b op (indices : list (nat * nat)) :
  zip_with Rmult
    ((λ '(p, q), take_at (basis_coefficients b) p
                 * take_at (basis_coefficients b) q) <$> indices)
    ((λ '(p, q), op (take_at (basis_primitives b) p)
                    (take_at (basis_primitives b) q)) <$> indices)
  = (λ pq, pair_weight b op pq.1 pq.2) <$> indices.
Proof.
  apply list_eq. intros n.
  rewrite lookup_zip_with, !list_lookup_fmap.
  by destruct (indices !! n) as [[p q]|].
Qed.

(** The statements of [integrate_sparse] on the pairs it evaluates. *)
Lemma integrate_sparse_unfold allpairs b op :
  integrate_sparse allpairs b op
  = let n := num_orbitals b in
    let pairs := sparse_pairs allpairs b in
    if decide (Forall (λ idx, idx.1 < n ∧ idx.2 < n)%nat pairs) then
      if decide (pairs ≫= pair_mesh_product (sparse_offset b) = []) then None
      else
        let A := scatter set2 (zeros2 n n)
                   (zip pairs (pair_value b op <$> pairs)) in
        Some (msub (madd A (transpose n n A)) (diag_matrix (diag A)))
    else None.
Proof.
  unfold integrate_sparse, sparse_pairs. cbv zeta.
  destruct (allpairs (num_orbitals b)) as [ii jj]. simpl.
  case_decide as Hrange; [|done].
  rewrite expand_pairs_spec.
  pose proof (segment_sum_items (pair_mesh_product (sparse_offset b))
                (λ pq, pair_weight b op pq.1 pq.2) (zip ii jj)) as Hseg.
  destruct (zip ii jj ≫= pair_mesh_product (sparse_offset b)) as [|t ts] eqn:Hidx.
  - by rewrite decide_True.
  - rewrite decide_False by done.
    rewrite sparse_weights, Hseg, at_set2_scatter. done.
Qed.

Lemma sparse_scattered_entry b op pairs s t :
  (s < num_orbitals b)%nat → (t < num_orbitals b)%nat →
  mget (scatter set2 (zeros2 (num_orbitals b) (num_orbitals b))
          (zip pairs (pair_value b op <$> pairs))) s t
  = sparse_half b op pairs s t.
Proof.
  intros Hs Ht. apply get2_mget. unfold sparse_half.
  assert (∀ k v, (k, v) ∈ zip pairs (pair_value b op <$> pairs)
                 ↔ k ∈ pairs ∧ v = pair_value b op k) as Hkv.
  { intros k v. rewrite elem_of_lookup_zip_with. split.
    - intros (n & k' & v' & Heq & Hk & Hv). simplify_eq.
      rewrite list_lookup_fmap, Hk in Hv. simplify_eq/=.
      split; [|done]. by eapply list_elem_of_lookup_2.
    - intros [[n Hn]%list_elem_of_lookup ->]. exists n, k, (pair_value b op k).
      split_and!; [done..|]. by rewrite list_lookup_fmap, Hn. }
  destruct (decide ((s, t) ∈ pairs)) as [Hin|Hout].
  - rewrite (scatter_get_in get2 set2 get2_set2_eq get2_set2_ne _ _ _
               (pair_value b op (s, t))).
    + by rewrite get2_zeros2.
    + by apply Hkv.
    + intros v' [_ ->]%Hkv. done.
  - rewrite (scatter_get_notin get2 set2 get2_set2_eq get2_set2_ne).
    + by rewrite get2_zeros2.
    + intros ([k v] & Heq & [Hk _]%Hkv)%list_elem_of_fmap.
      simpl in Heq. by subst k.
Qed.

(** [A + A.T - diag(diag(A))] for any square matrix. *)
Lemma completed_matrix_entry n A s t :
  shape2 n n A → (s < n)%nat → (t < n)%nat →
  mget (msub (madd A (transpose n n A)) (diag_matrix (diag A))) s t
  = mget A s t + mget A t s - (if decide (s = t) then mget A s s else 0).
Proof.
  intros HA Hs Ht. unfold msub, madd.
  assert (length (diag A) = n) as Hd by (rewrite length_diag; apply HA).
  assert (shape2 n n (transpose n n A)) as HT by apply shape2_transpose.
  assert (shape2 n n (diag_matrix (diag A))) as HD.
  { rewrite <-Hd at 1 2. apply shape2_diag_matrix. }
  rewrite (mget_zip_with Rminus n n) by (done || by apply shape2_zip_with).
  rewrite (mget_zip_with Rplus n n) by done.
  rewrite mget_transpose, mget_diag_matrix, diag_lookup_total
    by (done || lia || (destruct HA; lia)).
  done.
Qed.

Lemma completed_matrix_shape n A :
  shape2 n n A →
  shape2 n n (msub (madd A (transpose n n A)) (diag_matrix (diag A))).
Proof.
  intros HA.
  assert (length (diag A) = n) as Hd by (rewrite length_diag; apply HA).
  apply shape2_zip_with; [apply shape2_zip_with; [done|apply shape2_transpose]|].
  rewrite <-Hd at 1 2. apply shape2_diag_matrix.
Qed.

Lemma integrate_sparse_entry allpairs b op A s t :
  integrate_sparse allpairs b op = Some A →
  (s < num_orbitals b)%nat → (t < num_orbitals b)%nat →
  mget A s t
  = sparse_half b op (sparse_pairs allpairs b) s t
    + sparse_half b op (sparse_pairs allpairs b) t s
    - (if decide (s = t) then sparse_half b op (sparse_pairs allpairs b) s s
       else 0).
Proof.
  rewrite integrate_sparse_unfold. cbv zeta. intros HA Hs Ht.
  repeat case_decide; simplify_eq.
  - rewrite completed_matrix_entry, !sparse_scattered_entry by
      (done || apply shape2_scatter, shape2_zeros2).
    by rewrite decide_True.
  - rewrite completed_matrix_entry, !sparse_scattered_entry by
      (done || apply shape2_scatter, shape2_zeros2).
    by rewrite decide_False.
Qed.

Lemma integrate_sparse_shape allpairs b op A :
  integrate_sparse allpairs b op = Some A →
  shape2 (num_orbitals b) (num_orbitals b) A.
Proof.
  rewrite integrate_sparse_unfold. cbv zeta. intros HA.
  repeat case_decide; simplify_eq.
  apply completed_matrix_shape, shape2_scatter, shape2_zeros2.
Qed.

Lemma integrate_sparse_is_Some allpairs b op :
  is_Some (integrate_sparse allpairs b op) ↔
  Forall (λ idx, idx.1 < num_orbitals b ∧ idx.2 < num_orbitals b)%nat
         (sparse_pairs allpairs b) ∧
  sparse_pairs allpairs b ≫= pair_mesh_product (sparse_offset b) ≠ [].
Proof.
  rewrite integrate_sparse_unfold. cbv zeta.
  destruct (decide (Forall _ (sparse_pairs allpairs b))) as [Hrange|Hrange].
  - case_decide as Hnil.
    + split; [by intros [? ?]|]. by intros [_ ?].
    + split; [done|by eexists].
  - split; [by intros [? ?]|]. by intros [? _].
Qed.

(** X17: for index arrays of one length, [integrate_sparse] returns
    exactly when every orbital index that [allpairs_indices] supplies is an
    orbital of the basis and at least one of the pairs has a primitive in
    both its orbitals. *)
Theorem integrate_sparse_return_condition
    (allpairs : nat → list nat * list nat) (b : Basis) (op : BinaryPrimitiveOp) :
  length (allpairs (num_orbitals b)).1 = length (allpairs (num_orbitals b)).2 →
  is_Some (integrate_sparse allpairs b op) ↔
  Forall (λ idx, idx.1 < num_orbitals b ∧ idx.2 < num_orbitals b)%nat
         (sparse_pairs allpairs b) ∧
  Exists (pair_has_primitives b) (sparse_pairs allpairs b).
Proof.
  intros _. rewrite integrate_sparse_is_Some.
  split; intros [Hrange Hsome]; (split; [done|]).
  - apply bind_nonempty_iff in Hsome as (idx & Hin & Hidx).
    apply Exists_exists. exists idx. split; [done|].
    apply pair_mesh_product_nonempty; [|done].
    by eapply Forall_forall in Hrange.
  - apply Exists_exists in Hsome as (idx & Hin & Hidx).
    apply bind_nonempty_iff. exists idx. split; [done|].
    apply pair_mesh_product_nonempty; [|done].
    by eapply Forall_forall in Hrange.
Qed.

(** X18: a matrix that [integrate_sparse] returns, for index arrays of one
    length, is symmetric of side [num_orbitals]; its entry [(s, t)] holds
    the value of the pair [(s, t)] if that pair was evaluated plus the
    value of the pair [(t, s)] if that pair was evaluated, and a diagonal
    entry holds the value of its pair once. *)
Theorem integrate_sparse_entries
    (allpairs : nat → list nat * list nat) (b : Basis) (op : BinaryPrimitiveOp)
    (A : Matrix) :
  length (allpairs (num_orbitals b)).1 = length (allpairs (num_orbitals b)).2 →
  integrate_sparse allpairs b op = Some A →
  symmetric (num_orbitals b) A ∧
  (∀ s t, (s < num_orbitals b)%nat → (t < num_orbitals b)%nat → s ≠ t →
     mget A s t
     = sparse_half b op (sparse_pairs allpairs b) s t
       + sparse_half b op (sparse_pairs allpairs b) t s) ∧
  (∀ s, (s < num_orbitals b)%nat →
     mget A s s = sparse_half b op (sparse_pairs allpairs b) s s).
Proof.
  intros _ HA. split_and!.
  - split; [by eapply integrate_sparse_shape|].
    intros s t Hs Ht.
    destruct (decide (s = t)) as [->|Hne]; [done|].
    rewrite !(integrate_sparse_entry allpairs b op A) by done.
    rewrite !decide_False by done. lra.
  - intros s t Hs Ht Hne.
    rewrite (integrate_sparse_entry allpairs b op A) by done.
    rewrite decide_False by done. lra.
  - intros s Hs.
    rewrite (integrate_sparse_entry allpairs b op A) by done.
    rewrite decide_True by done. lra.
Qed.

Lemma block_start_mono b a c : (a ≤ c)%nat → (block_start b a ≤ block_start b c)%nat.
Proof.
  intros Hac. unfold block_start.
  rewrite <-(Nat.min_l a c) at 1 by done. rewrite <-take_take.
  apply sum_list_take_le.
Qed.

(** The primitives of an earlier orbital come before those of a later
    one. *)
Lemma mesh_ordered b s t p q :
  (s < t)%nat → (t < num_orbitals b)%nat →
  p ∈ orbital_mesh b s → q ∈ orbital_mesh b t → (p < q)%nat.
Proof.
  intros Hst Ht Hp Hq.
  destruct (lookup_lt_is_Some_2 (orbitals b) s) as [x Hx];
    [unfold num_orbitals in Ht; lia|].
  destruct (lookup_lt_is_Some_2 (orbitals b) t Ht) as [y Hy].
  apply (elem_of_orbital_mesh b s x p Hx) in Hp.
  apply (elem_of_orbital_mesh b t y q Hy) in Hq.
  pose proof (block_start_mono b (s + 1) t ltac:(lia)) as Hmono.
  rewrite (block_start_succ b s x Hx) in Hmono. lia.
Qed.

Lemma sym_weight_ordered b op p q :
  (p ≤ q)%nat → sym_weight b op p q = pair_weight b op p q.
Proof.
  intros Hpq. unfold sym_weight. by rewrite Nat.min_l, Nat.max_r by lia.
Qed.

(** X19: when the evaluated pairs are the pairs [s <= t] of orbitals,
    [integrate_sparse] and [integrate_dense] agree off the diagonal for
    any kernel, and on the diagonal for a kernel that is symmetric in its
    two arguments. *)
Theorem integrate_sparse_agrees_with_dense
    (allpairs : nat → list nat * list nat) (b : Basis) (op : BinaryPrimitiveOp)
    (A : Matrix) :
  length (allpairs (num_orbitals b)).1 = length (allpairs (num_orbitals b)).2 →
  (∀ s t, (s, t) ∈ sparse_pairs allpairs b ↔ (s ≤ t < num_orbitals b)%nat) →
  integrate_sparse allpairs b op = Some A →
  (∀ s t, (s < num_orbitals b)%nat → (t < num_orbitals b)%nat → s ≠ t →
     mget A s t = mget (integrate_dense b op) s t) ∧
  ((∀ x y, op x y = op y x) →
   ∀ s, (s < num_orbitals b)%nat →
     mget A s s = mget (integrate_dense b op) s s).
Proof.
  intros _ Htriu HA. split.
  - intros s t Hs Ht Hne.
    rewrite (integrate_sparse_entry allpairs b op A) by done.
    rewrite decide_False by done.
    rewrite integrate_dense_entry, dense_entry_mesh by done.
    unfold sparse_half.
    destruct (decide (s < t)%nat) as [Hlt|Hge].
    + rewrite decide_True by (apply Htriu; lia).
      rewrite decide_False by (rewrite Htriu; lia).
      rewrite pair_value_sum, Rplus_0_r, Rminus_0_r.
      apply Rsum_ext. intros p Hp. apply Rsum_ext. intros q Hq.
      symmetry. apply sym_weight_ordered.
      pose proof (mesh_ordered b s t p q Hlt Ht Hp Hq). lia.
    + rewrite decide_False by (rewrite Htriu; lia).
      rewrite decide_True by (apply Htriu; lia).
      rewrite pair_value_sum, Rplus_0_l, Rminus_0_r.
      rewrite (Rsum_swap (λ q p, pair_weight b op q p)).
      apply Rsum_ext. intros p Hp. apply Rsum_ext. intros q Hq.
      rewrite sym_weight_comm. symmetry. apply sym_weight_ordered.
      pose proof (mesh_ordered b t s q p ltac:(lia) Hs Hq Hp). lia.
  - intros Hsym s Hs.
    rewrite (integrate_sparse_entry allpairs b op A) by done.
    rewrite decide_True by done.
    rewrite integrate_dense_entry, dense_entry_mesh by done.
    unfold sparse_half. rewrite decide_True by (apply Htriu; lia).
    rewrite pair_value_sum.
    match goal with |- ?a + ?a - ?a = _ => replace (a + a - a) with a by lra end.
    apply Rsum_ext. intros p _. apply Rsum_ext. intros q _.
    unfold sym_weight.
    destruct (decide (p ≤ q)%nat) as [Hle|Hgt].
    + by rewrite Nat.min_l, Nat.max_r by lia.
    + rewrite Nat.min_r, Nat.max_l by lia.
      unfold pair_weight. rewrite (Hsym (take_at (basis_primitives b) p)). ring.
Qed.

Lemma sparse_pairs_upper b :
  sparse_pairs upper_pairs_indices b = triu_indices (num_orbitals b).
Proof. unfold sparse_pairs, upper_pairs_indices. apply zip_fst_snd. Qed.

End IntegrateSparse.

End Integrals.

(** ** The binomial-factor table *)

Section TableLemmas.
Import BinomFactorTable.
Local Open Scope Z_scope.

#[local] Instance row_is_expansion_term_dec r : Decision (row_is_expansion_term r).
Proof.
  destruct r as [[[[i j] k] m] w]. unfold row_is_expansion_term.
  destruct (monomial_exponents m) as [[p q]|]; apply _.
Defined.

(** X20: the five arrays of [binom_factor_table] have the same 175
    entries; in every row the two angular momenta and the power are between
    zero and four, the power is below the sum of the angular momenta, the
    monomial index is between 1 and 24 and the weight is at least one; and
    the rows are in strictly increasing order of [(i, j, k, m)], so no
    row is repeated and the segment ids [(i, j, k)] are sorted. *)
Theorem binom_factor_table_shape :
  (let '((ti, tj, tk, tm), tw) := binom_factor_table in
   length ti = 175%nat ∧ length tj = 175%nat ∧ length tk = 175%nat ∧
   length tm = 175%nat ∧ length tw = 175%nat) ∧
  Forall (λ '(i, j, k, m, w),
            0 ≤ i ≤ 4 ∧ 0 ≤ j ≤ 4 ∧ 0 ≤ k ≤ 4 ∧ k < i + j ∧
            1 ≤ m ≤ 24 ∧ 1 ≤ w) rows ∧
  Forall (λ '(r1, r2), row_key r1 < row_key r2) (zip rows (drop 1 rows)).
Proof.
  split_and!.
  - unfold binom_factor_table. rewrite length_fmap. by vm_compute.
  - apply (bool_decide_unpack _). by vm_compute.
  - apply (bool_decide_unpack _). by vm_compute.
Qed.

(** X21: the table is the binomial expansion of [(x + a)^i (x + b)^j]:
    every row is a term of the expansion, with the product of the two
    binomial coefficients as its weight; no term occurs in two rows; and
    the terms of the rows are exactly the expected terms. *)
Theorem binom_factor_table_is_expansion :
  Forall row_is_expansion_term rows ∧
  length (omap row_term rows) = length rows ∧
  NoDup (omap row_term rows) ∧
  Forall (λ t, t ∈ expected_terms) (omap row_term rows) ∧
  Forall (λ t, t ∈ omap row_term rows) expected_terms.
Proof.
  split_and!.
  - apply (bool_decide_unpack _). by vm_compute.
  - by vm_compute.
  - apply (bool_decide_unpack _). by vm_compute.
  - apply (bool_decide_unpack _). by vm_compute.
  - apply (bool_decide_unpack _). by vm_compute.
Qed.

(** X22: for every pair of angular momenta up to four and every power
    [k] up to four and below their sum, the weights of the rows of
    [(i, j, k)] add up to the binomial coefficient of [i + j] over [k]. *)
Theorem binom_factor_table_group_sums :
  Forall (λ '(i, j, k), k < i + j → group_weight i j k = binomial (i + j) k)
         (i ← Py.range 5; j ← Py.range 5; k ← Py.range 5; [(i, j, k)]).
Proof. apply (bool_decide_unpack _). by vm_compute. Qed.

End TableLemmas.

(** ** The engine on concrete inputs *)

Section Instances.
Import Examples.
Local Open Scope R_scope.

Local Abbreviation ref_overlap_primitives :=
  (_overlap_primitives Reference.LMAX Reference.product Reference.binom Reference.factorial2).
Local Abbreviation ref_eri_basis_sparse :=
  (eri_basis_sparse Reference.LMAX Reference.product Reference.factorial Reference.binom_factor Reference.gammanu).
Local Abbreviation ref_eri_basis_sparse_batched :=
  (eri_basis_sparse_batched Reference.LMAX Reference.product Reference.factorial Reference.binom_factor Reference.gammanu).
Local Abbreviation ref_eri_basis :=
  (eri_basis Reference.LMAX Reference.product Reference.factorial Reference.binom_factor Reference.gammanu).
Local Abbreviation ref_nuclear_basis :=
  (nuclear_basis Reference.LMAX Reference.product Reference.factorial Reference.binom_factor Reference.gammanu).
Local Abbreviation ref_nuclear_primitives :=
  (_nuclear_primitives Reference.LMAX Reference.product Reference.factorial Reference.binom_factor Reference.gammanu).

Ltac orbital_bound := unfold num_orbitals, h2; simpl; lia.

Lemma h2_orbitals_nonempty : orbitals_nonempty h2.
Proof. unfold orbitals_nonempty, h2. simpl. repeat constructor. Defined.

(** C1, the claim as stated fails: for two nuclei [nuclear_basis] returns
    two matrices, not the one matrix of their sum. *)
Lemma nuclear_basis_not_a_single_sum :
  ¬ nuclear_basis_returns_sum Reference.LMAX Reference.product Reference.factorial Reference.binom_factor Reference.gammanu h2.
Proof.
  unfold nuclear_basis_returns_sum. intros Heq.
  apply (f_equal length) in Heq. rewrite nuclear_basis_length in Heq.
  simpl in Heq. lia.
Qed.

Lemma nuclear_basis_stack_witness :
  length (ref_nuclear_basis h2) = 2%nat ∧
  ∃ V, ref_nuclear_basis h2 !! 0%nat = Some V ∧
       symmetric 2 V ∧
       mget V 0 1
       = dense_entry h2 (λ pi pj, IZR 1 * ref_nuclear_primitives pi pj (0, 0, 0)) 0 1.
Proof.
  destruct (nuclear_basis_stack Reference.LMAX Reference.product Reference.factorial Reference.binom_factor Reference.gammanu h2)
    as (Hlen & Hstack & _).
  split; [exact Hlen|].
  destruct (Hstack 0%nat 1%Z (0, 0, 0) eq_refl eq_refl) as (V & HV & Hsym & Hent).
  exists V. split; [exact HV|]. split; [exact Hsym|].
  apply Hent; orbital_bound.
Defined.

(** C2: on the basis [lopsided], whose second orbital has no primitive,
    with batches of one quadruple the second batch, [(1, 0, 0, 0)], has no
    primitive quadruple and [eri_basis_sparse_batched] raises, where the
    claim has it return what [eri_basis_sparse] returns: the values of the
    six canonical quadruples, which the batched function itself returns
    when one batch holds them all. *)
Theorem eri_basis_sparse_batched_differs :
  ref_eri_basis_sparse_batched lopsided 1 = None ∧
  ref_eri_basis_sparse lopsided
  = Some (quad_value Reference.LMAX Reference.product Reference.factorial Reference.binom_factor Reference.gammanu lopsided <$> gen_ijkl 2) ∧
  ref_eri_basis_sparse_batched lopsided 6 = ref_eri_basis_sparse lopsided.
Proof.
  split_and!.
  - apply (eri_basis_sparse_batched_empty_batch _ _ _ _ _ _ _ [(1, 0, 0, 0)%nat]).
    + lia.
    + vm_compute. right. left.
    + reflexivity.
  - rewrite eri_basis_sparse_returns; [done|]. by vm_compute.
  - unfold eri_basis_sparse_batched, eri_basis_sparse.
    rewrite decide_False by lia.
    rewrite batched_single by (by vm_compute).
    csimpl. reflexivity.
Qed.

Lemma eri_basis_sparse_batched_agrees_witness :
  orbitals_nonempty h2 ∧ (1 ≤ 1)%nat ∧
  ref_eri_basis_sparse_batched h2 1 = ref_eri_basis_sparse h2 ∧
  ref_eri_basis_sparse h2
  = Some (quad_value Reference.LMAX Reference.product Reference.factorial Reference.binom_factor Reference.gammanu h2 <$> gen_ijkl 2).
Proof.
  split; [exact h2_orbitals_nonempty|]. split; [lia|].
  destruct (eri_basis_sparse_batched_agrees Reference.LMAX Reference.product Reference.factorial Reference.binom_factor
              Reference.gammanu h2 1 h2_orbitals_nonempty (le_n 1)) as [Hagree Hval].
  split; [exact Hagree|]. apply Hval. orbital_bound.
Defined.

Lemma eri_basis_permutation_symmetry_witness :
  ∃ G, ref_eri_basis h2 = Some G ∧
       tget G (1, 0, 0, 0)%nat = tget G (0, 1, 0, 0)%nat ∧
       tget G (0, 1, 0, 0)%nat = tget G (1, 0, 0, 0)%nat ∧
       tget G (1, 0, 0, 0)%nat = tget G (0, 0, 1, 0)%nat.
Proof.
  destruct (eri_basis_permutation_symmetry Reference.LMAX Reference.product Reference.factorial Reference.binom_factor
              Reference.gammanu h2) as [Hsym Hreturns].
  destruct (Hreturns h2_orbitals_nonempty) as [G HG]; [orbital_bound|].
  exists G. split; [exact HG|].
  apply (Hsym G HG 1 0 0 0)%nat; orbital_bound.
Defined.

Lemma H_scaling_witness :
  (2, 0, 1, 0, 0)%Z ∈ cindex Reference.LMAX ∧
  H Reference.LMAX Reference.factorial Reference.binom_factor 1 1 0.5 0.5 2 1 1
  = Reference.factorial 2 * take_z (Reference.binom_factor 1 1 0.5 0.5 (Some (2 * Reference.LMAX)%Z)) 2
    / (Reference.factorial 1 * Reference.factorial (2 - 2 * 1) * (4 * 1) ^ Z.to_nat (2 - 1)).
Proof.
  assert ((2, 0, 1, 0, 0)%Z ∈ cindex Reference.LMAX) as Hin.
  { apply elem_of_build_cindex. unfold Reference.LMAX. Z.div_mod_to_equations. lia. }
  split; [exact Hin|].
  apply (H_scaling Reference.LMAX Reference.factorial Reference.binom_factor 1 1 0.5 0.5 1 2 0 1 0 0 Hin 2 1)%Z.
  by left.
Defined.


Lemma integrate_dense_closed_form_witness :
  mget (integrate_dense h2 ref_overlap_primitives) 0 1
  = dense_entry h2 ref_overlap_primitives 0 1.
Proof.
  apply (integrate_dense_closed_form h2 ref_overlap_primitives); orbital_bound.
Defined.

Lemma overlap_masked_terms_vanish_witness :
  overlap_contribution Reference.binom Reference.factorial2 1 0 0 0.5 0.5 (1, 0)%Z = 0.
Proof.
  apply (overlap_masked_terms_vanish Reference.LMAX Reference.product Reference.binom Reference.factorial2). lia.
Defined.


Lemma index_tables_within_segments_witness :
  (2, 1, 0)%Z ∈ build_gindex Reference.LMAX ∧ (0 ≤ 2 - 2 * 1 - 0 ≤ Reference.LMAX)%Z.
Proof.
  assert ((2, 1, 0)%Z ∈ build_gindex Reference.LMAX) as Hin.
  { apply elem_of_build_gindex. unfold Reference.LMAX. Z.div_mod_to_equations. lia. }
  split; [exact Hin|].
  by apply (index_tables_within_segments Reference.LMAX Reference.factorial Reference.binom_factor).
Defined.

End Instances.

(** ** Further properties on concrete inputs *)

Section MoreInstances.
Import Examples.
Local Open Scope R_scope.

Local Abbreviation ref_g_term :=
  (g_term Reference.LMAX Reference.factorial Reference.binom_factor).
Local Abbreviation ref_c_term :=
  (c_term Reference.LMAX Reference.factorial Reference.binom_factor).
Local Abbreviation ref_overlap :=
  (_overlap_primitives Reference.LMAX Reference.product Reference.binom Reference.factorial2).
Local Abbreviation ref_sparse :=
  (eri_basis_sparse Reference.LMAX Reference.product Reference.factorial Reference.binom_factor Reference.gammanu).
Local Abbreviation ref_batched :=
  (eri_basis_sparse_batched Reference.LMAX Reference.product Reference.factorial Reference.binom_factor Reference.gammanu).
Local Abbreviation ref_eri :=
  (eri_basis Reference.LMAX Reference.product Reference.factorial Reference.binom_factor Reference.gammanu).
Local Abbreviation ref_eri_entry :=
  (eri_entry Reference.LMAX Reference.product Reference.factorial Reference.binom_factor Reference.gammanu).
Local Abbreviation ref_quad_value :=
  (quad_value Reference.LMAX Reference.product Reference.factorial Reference.binom_factor Reference.gammanu).
Local Abbreviation ref_nuclear :=
  (nuclear_basis Reference.LMAX Reference.product Reference.factorial Reference.binom_factor Reference.gammanu).
Local Abbreviation ref_nuclear_kernel :=
  (_nuclear_primitives Reference.LMAX Reference.product Reference.factorial Reference.binom_factor Reference.gammanu).

Ltac h2_bound := unfold num_orbitals, h2; simpl; lia.

Lemma h2_batched_returns :
  ref_batched h2 1 = Some (ref_quad_value h2 <$> gen_ijkl (num_orbitals h2)).
Proof.
  rewrite eri_basis_sparse_batched_value by (exact h2_orbitals_nonempty || lia).
  reflexivity.
Defined.

Lemma h2_eri_returns : is_Some (ref_eri h2).
Proof.
  destruct (eri_basis_unfold Reference.LMAX Reference.product Reference.factorial
              Reference.binom_factor Reference.gammanu h2) as (bs & Hbs & ->).
  rewrite eri_basis_sparse_batched_value by (exact h2_orbitals_nonempty || lia).
  by eexists.
Defined.

Lemma h2_sparse_returns op : is_Some (integrate_sparse upper_pairs_indices h2 op).
Proof.
  rewrite integrate_sparse_unfold. cbv zeta.
  rewrite decide_True by (by vm_compute; repeat constructor).
  rewrite decide_False by (by vm_compute).
  by eexists.
Defined.



Lemma overlap_of_negative_momentum_is_zero_witness :
  ref_overlap (mkPrimitive (0, 0, 0) 1 (-1, 0, 0)%Z 1) (s_primitive 1.4 1) = 0.
Proof.
  apply (overlap_of_negative_momentum_is_zero Reference.LMAX Reference.product
           Reference.binom Reference.factorial2 _ _ AxX).
  left. simpl. lia.
Defined.

Lemma overlap_axis_s_type_witness :
  overlap_axis Reference.LMAX Reference.binom Reference.factorial2 2 0 0 0.5 0.5
  = overlap_term Reference.binom Reference.factorial2 2 0 0 0.5 0.5 (0, 0)%Z.
Proof.
  apply (overlap_axis_s_type Reference.LMAX Reference.binom Reference.factorial2).
  unfold Reference.LMAX. lia.
Defined.

Lemma eri_basis_sparse_batched_refines_sparse_witness :
  ref_sparse h2 = Some (ref_quad_value h2 <$> gen_ijkl (num_orbitals h2)).
Proof.
  apply (eri_basis_sparse_batched_refines_sparse Reference.LMAX Reference.product
           Reference.factorial Reference.binom_factor Reference.gammanu h2 1).
  exact h2_batched_returns.
Defined.

Lemma eri_basis_entries_witness :
  ∃ G, ref_eri h2 = Some G ∧
       canon (0, 1, 0, 0)%nat ∈ gen_ijkl (num_orbitals h2) ∧
       tget G (0, 1, 0, 0)%nat
       = Rsum (ref_eri_entry h2
                 <$> mesh_product (eri_offset h2) (canon (0, 1, 0, 0)%nat)).
Proof.
  destruct h2_eri_returns as [G HG]. exists G. split; [exact HG|].
  destruct (eri_basis_entries Reference.LMAX Reference.product Reference.factorial
              Reference.binom_factor Reference.gammanu h2 G (0, 1, 0, 0)%nat HG)
    as (Hgen & _ & Hval).
  - unfold in_range. repeat split; h2_bound.
  - split; [exact Hgen|exact Hval].
Defined.

Lemma nuclear_basis_charge_factor_witness :
  ∃ V Zc pos,
    ref_nuclear h2 !! 1%nat = Some V ∧
    atomic_number (structure h2) !! 1%nat = Some Zc ∧
    position (structure h2) !! 1%nat = Some pos ∧
    mget V 0 1
    = IZR Zc * mget (integrate h2 (λ pi pj, ref_nuclear_kernel pi pj pos)) 0 1.
Proof.
  assert (is_Some (ref_nuclear h2 !! 1%nat)) as [V HV].
  { apply lookup_lt_is_Some. rewrite nuclear_basis_length. simpl. lia. }
  destruct (nuclear_basis_charge_factor Reference.LMAX Reference.product
              Reference.factorial Reference.binom_factor Reference.gammanu
              h2 1 V HV) as (Zc & pos & HZ & Hpos & Hent).
  exists V, Zc, pos. split; [exact HV|]. split; [exact HZ|].
  split; [exact Hpos|]. apply Hent.
Defined.

Lemma integrate_dense_empty_orbital_witness :
  mget (integrate_dense lopsided ref_overlap) 1 0 = 0 ∧
  mget (integrate_dense lopsided ref_overlap) 0 1 = 0.
Proof.
  apply (integrate_dense_empty_orbital lopsided ref_overlap 1 0 (mkOrbital [] []));
    reflexivity.
Defined.

Lemma owner_array_matches_offsets_witness :
  ∃ o, orbital_index h2 !! 1%nat = Some (Z.of_nat o) ∧
       (o < num_orbitals h2)%nat ∧
       1%nat ∈ orbital_mesh h2 o ∧
       ∀ o', (o' < num_orbitals h2)%nat → 1%nat ∈ orbital_mesh h2 o' → o' = o.
Proof.
  apply (owner_array_matches_offsets h2 1).
  unfold num_primitives, h2. simpl. lia.
Defined.

Lemma integrate_dense_upper_triangle_witness :
  mget (integrate_dense h2 forward_gap) 1 0
  = mget (integrate_dense h2 absolute_gap) 1 0.
Proof.
  apply (integrate_dense_upper_triangle h2 forward_gap absolute_gap).
  intros p q Hpq. unfold forward_gap, absolute_gap.
  assert (num_primitives h2 = 2%nat) as Hn by reflexivity.
  rewrite Hn in Hpq. symmetry. apply Rabs_pos_eq.
  destruct p as [|[|p]], q as [|[|q]]; try lia;
    unfold take_at, basis_primitives, h2, s_primitive; simpl; lra.
Defined.

Lemma integrate_sparse_entries_witness :
  ∃ A, integrate_sparse upper_pairs_indices h2 ref_overlap = Some A ∧
       symmetric 2 A ∧
       mget A 0 1
       = sparse_half h2 ref_overlap (sparse_pairs upper_pairs_indices h2) 0 1
         + sparse_half h2 ref_overlap (sparse_pairs upper_pairs_indices h2) 1 0.
Proof.
  destruct (h2_sparse_returns ref_overlap) as [A HA]. exists A.
  destruct (integrate_sparse_entries upper_pairs_indices h2 ref_overlap A
              eq_refl HA) as (Hsym & Hoff & _).
  split; [exact HA|]. split; [exact Hsym|].
  apply Hoff; [h2_bound|h2_bound|lia].
Defined.

Lemma integrate_sparse_agrees_with_dense_witness :
  ∃ A, integrate_sparse upper_pairs_indices h2 forward_gap = Some A ∧
       mget A 1 0 = mget (integrate_dense h2 forward_gap) 1 0.
Proof.
  destruct (h2_sparse_returns forward_gap) as [A HA]. exists A.
  split; [exact HA|].
  destruct (integrate_sparse_agrees_with_dense upper_pairs_indices h2 forward_gap A
              eq_refl) as [Hoff _].
  - intros s t. rewrite sparse_pairs_upper. apply elem_of_triu_indices.
  - exact HA.
  - apply Hoff; [h2_bound|h2_bound|lia].
Defined.

Lemma integrate_sparse_return_condition_witness :
  is_Some (integrate_sparse upper_pairs_indices h2 ref_overlap).
Proof.
  apply (integrate_sparse_return_condition upper_pairs_indices h2 ref_overlap eq_refl).
  split.
  - apply (bool_decide_unpack _). by vm_compute.
  - apply Exists_cons_hd.
    exists (mkOrbital [s_primitive 0 1] [1]), (mkOrbital [s_primitive 0 1] [1]).
    split; [reflexivity|]. split; [reflexivity|].
    unfold orbital_num_primitives. simpl. lia.
Defined.

Lemma eri_basis_sparse_batched_single_batch_witness :
  ref_batched lopsided 6 = ref_sparse lopsided.
Proof.
  apply (eri_basis_sparse_batched_single_batch Reference.LMAX Reference.product
           Reference.factorial Reference.binom_factor Reference.gammanu lopsided 6).
  - lia.
  - by vm_compute.
Defined.

End MoreInstances.
